(** * doc-finder: the indexing and search engine of [doc-finder.js]

    A shallow embedding of class [DocFinder] and of its helpers
    ([normalize], [stem], [compareResults], [Result],
    [OffsetResult.result]), with the properties of ingestion, search and
    completion.

    Modelling conventions.
    - A JavaScript string is a list of characters; a character is an 8-bit
      code unit (the Latin-1 range of UTF-16), so an index into the list is
      the JavaScript string index.  [\s], [toLowerCase] and the character
      classes are those of JavaScript on that range.
    - The numbers of the engine (counts, offsets) are non-negative integers
      ([N]), printed in decimal; results of [indexOf], [lastIndexOf] and of
      comparators are in [Z].
    - An object or [Map] is the list of its entries in insertion order; a
      [Set] is the list of its distinct elements in insertion order.
    - The four MongoDB collections are finite maps keyed by [_id].  A
      document of [words] is the list of its fields other than [_id]; a
      field holds a stored value: a number, [null], an array or an embedded
      document ([value]).
    - The store is MongoDB 4.0 behind the Node driver 3.1, the versions of
      the time of the code ([MONGO_OPTIONS.useNewUrlParser]): the key of a
      [$set] is a dotted path ([set_path]), an empty [$set] is refused, and
      the driver builds the object of a document by assignment, so that a
      field [__proto__] becomes the prototype of the object and not one of
      its properties.  Limits of size and of nesting depth are not
      modelled, nor is what the serialiser of the driver does with the keys
      [toBSON] and [_bsontype], which depends on its version: the theorems
      about plain field names ([field_name]) leave these two names out.
    - [this.noiseWords] is a finite set.
    - An [async] method is a function from the state before the call to
      its outcome (the value returned or the exception thrown) and the state
      after it.
    - [Array.prototype.sort] is a stable merge sort.
    - [String.prototype.localeCompare] is an interface ([Collator]). *)

From Stdlib Require Import ZArith NArith Ascii String DecimalString.
From stdpp Require Import gmap strings list sorting.

#[local] Set Warnings "-clear-no-such-hyp,-register-all".

Local Open Scope N_scope.

(** ** JavaScript strings *)

Abbreviation jsstring := (list ascii).

Definition str (s : string) : jsstring := String.list_ascii_of_string s.

Definition LF : ascii := "010"%char.

Module Js.

Definition code (c : ascii) : N := N_of_ascii c.

(** [\s] on 8-bit code units: TAB, LF, VT, FF, CR, SPACE and NBSP. *)
Definition is_space (c : ascii) : bool :=
  let n := code c in
  ((9 <=? n) && (n <=? 13)) || (n =? 32) || (n =? 160).

(** [[a-z]] *)
Definition is_az (c : ascii) : bool :=
  let n := code c in (97 <=? n) && (n <=? 122).

(** [[a-zA-Z]] *)
Definition is_alpha (c : ascii) : bool :=
  let n := code c in
  ((97 <=? n) && (n <=? 122)) || ((65 <=? n) && (n <=? 90)).

(** [String.prototype.toLowerCase] on one code unit: [A-Z] and the
    Latin-1 capitals U+00C0..U+00DE (except the multiplication sign
    U+00D7) move up by 32. *)
Definition toLowerCase_char (c : ascii) : ascii :=
  let n := code c in
  if ((65 <=? n) && (n <=? 90))
     || ((192 <=? n) && (n <=? 222) && negb (n =? 215))
  then ascii_of_N (n + 32) else c.

Definition toLowerCase (s : jsstring) : jsstring := map toLowerCase_char s.

(** [s.startsWith(p)] *)
Fixpoint startsWith (s p : jsstring) {struct p} : bool :=
  match p with
  | [] => true
  | b :: p' =>
      match s with
      | [] => false
      | a :: s' => if decide (a = b) then startsWith s' p' else false
      end
  end.

(** [s.endsWith(p)] *)
Definition endsWith (s p : jsstring) : bool :=
  startsWith (reverse s) (reverse p).

(** [s.indexOf("\n", from)]: the least index not below [from] that
    holds a newline, or -1. *)
Fixpoint indexOf_from (s : jsstring) (k : N) (from : Z) : Z :=
  match s with
  | [] => (-1)%Z
  | c :: s' =>
      if (from <=? Z.of_N k)%Z && bool_decide (c = LF) then Z.of_N k
      else indexOf_from s' (k + 1) from
  end.
Definition indexOf_LF (s : jsstring) (from : Z) : Z := indexOf_from s 0 from.

(** [s.lastIndexOf("\n", from)]: the largest index not above [from]
    that holds a newline, or -1. *)
Fixpoint lastIndexOf_from (s : jsstring) (k : N) (from : N) (found : Z) : Z :=
  match s with
  | [] => found
  | c :: s' =>
      if from <? k then found
      else lastIndexOf_from s' (k + 1) from
             (if bool_decide (c = LF) then Z.of_N k else found)
  end.
Definition lastIndexOf_LF (s : jsstring) (from : N) : Z :=
  lastIndexOf_from s 0 from (-1)%Z.

(** [s.substring(start, end)]: both arguments are clamped to
    [0 .. s.length] and swapped when [start > end]. *)
Definition clamp (s : jsstring) (i : Z) : nat :=
  Z.to_nat (Z.min (Z.max i 0) (Z.of_nat (length s))).
Definition substring (s : jsstring) (i j : Z) : jsstring :=
  let a := clamp s i in
  let b := clamp s j in
  take (Nat.max a b - Nat.min a b) (drop (Nat.min a b) s).

(** [s.split(/\s+/)]: the pieces between maximal runs of white space;
    [cur] is the piece being read, [inrun] tells that the previous
    character was white space. *)
Fixpoint split_go (s : jsstring) (cur : jsstring) (inrun : bool)
  : list jsstring :=
  match s with
  | [] => [cur]
  | c :: s' =>
      if is_space c
      then (if inrun then split_go s' [] true
            else cur :: split_go s' [] true)
      else split_go s' (cur ++ [c]) false
  end.
Definition split_ws (s : jsstring) : list jsstring := split_go s [] false.

(** The successive results of [WORD_REGEX.exec(content)] for
    [WORD_REGEX = /\S+/g]: every maximal run of non-space characters with
    the index where it starts ([match[0]], [match.index]).  [k] is the
    index of the head of [s]; [run] is the run being read. *)
Fixpoint exec_go (s : jsstring) (k : N) (run : option (jsstring * N))
  : list (jsstring * N) :=
  match s with
  | [] => match run with Some m => [m] | None => [] end
  | c :: s' =>
      if is_space c
      then match run with
           | Some m => m :: exec_go s' (k + 1) None
           | None => exec_go s' (k + 1) None
           end
      else exec_go s' (k + 1)
             (Some match run with
                   | Some (tok, i) => (tok ++ [c], i)
                   | None => ([c], k)
                   end)
  end.
Definition exec_all (content : jsstring) : list (jsstring * N) :=
  exec_go content 0 None.

(** The default order of [Array.prototype.sort] on strings: code units,
    left to right. *)
Fixpoint compare (a b : jsstring) : comparison :=
  match a, b with
  | [], [] => Eq
  | [], _ :: _ => Lt
  | _ :: _, [] => Gt
  | x :: a', y :: b' =>
      match N.compare (code x) (code y) with
      | Eq => compare a' b'
      | r => r
      end
  end.
Definition le (a b : jsstring) : Prop := compare a b ≠ Gt.
#[global] Instance le_dec : RelDecision le.
Proof. intros a b. unfold le. apply _. Defined.

(** [new Set(iterable)]: the distinct elements in order of first
    insertion. *)
Definition Set_add {A} `{EqDecision A} (s : list A) (x : A) : list A :=
  if decide (x ∈ s) then s else s ++ [x].
Definition Set_from {A} `{EqDecision A} (l : list A) : list A :=
  fold_left Set_add l [].

(** Own-property enumeration ([Object.keys], [Object.entries]) lists
    first the keys that are array indices (canonical decimal numerals
    below 2^32 - 1) in ascending numeric order, then all other string
    keys in order of creation. *)
Definition digit (c : ascii) : option N :=
  let n := code c in
  if (48 <=? n) && (n <=? 57) then Some (n - 48) else None.
Fixpoint decimal (s : jsstring) (acc : N) : option N :=
  match s with
  | [] => Some acc
  | c :: s' =>
      match digit c with
      | Some d => decimal s' (10 * acc + d)
      | None => None
      end
  end.
Definition array_index (key : jsstring) : option N :=
  match key with
  | [] => None
  | c :: rest =>
      if bool_decide (c = "0"%char)
      then (if bool_decide (rest = []) then Some 0 else None)
      else match decimal key 0 with
           | Some n => if n <? 4294967295 then Some n else None
           | None => None
           end
  end.
Definition index_key {V} (kv : jsstring * V) : N :=
  default 0 (array_index kv.1).
Definition index_le {V} (a b : jsstring * V) : Prop :=
  index_key a <= index_key b.
#[global] Instance index_le_dec {V} : RelDecision (@index_le V).
Proof. intros a b. unfold index_le. apply _. Defined.
Definition is_index {V} (kv : jsstring * V) : bool :=
  bool_decide (is_Some (array_index kv.1)).
Definition Object_entries {V} (o : list (jsstring * V))
  : list (jsstring * V) :=
  merge_sort index_le (List.filter is_index o)
  ++ List.filter (λ kv, negb (is_index kv)) o.
Definition Object_keys {V} (o : list (jsstring * V)) : list jsstring :=
  (Object_entries o).*1.

(** Keyed containers in insertion order: the own properties of an
    object, or a [Map]. [assoc_get] is the value of a key, [assoc_set]
    assigns in place when the key exists and appends otherwise. *)
Fixpoint assoc_get {V} (o : list (jsstring * V)) (key : jsstring)
  : option V :=
  match o with
  | [] => None
  | (k, v) :: o' => if decide (k = key) then Some v else assoc_get o' key
  end.
Fixpoint assoc_set {V} (o : list (jsstring * V)) (key : jsstring) (v : V)
  : list (jsstring * V) :=
  match o with
  | [] => [(key, v)]
  | (k, w) :: o' =>
      if decide (k = key) then (k, v) :: o' else (k, w) :: assoc_set o' key v
  end.


(** [ToString] of a number: its decimal numeral. *)
Definition Number_toString (n : N) : jsstring :=
  String.list_ascii_of_string (NilZero.string_of_uint (N.to_uint n)).

(** [StringToNumber] on the strings that [ToString] builds from stored
    values (decimal digits, commas and the words ["[object Object]"],
    ["undefined"], ["null"], ["NaN"]): the empty string is 0, a string of
    decimal digits is its value, every other string is [NaN] ([None]). *)
Definition StringToNumber (s : jsstring) : option N :=
  match s with
  | [] => Some 0
  | _ => decimal s 0
  end.

(** [parts.join(",")] for strings. *)
Fixpoint join_comma (parts : list jsstring) : jsstring :=
  match parts with
  | [] => []
  | [p] => p
  | p :: rest => p ++ ","%char :: join_comma rest
  end.

End Js.

(** ** Normalisation (functions [stem] and [normalize]) *)

(** [word.replace(/\'s$/, '')] *)
Definition stem (word : jsstring) : jsstring :=
  if Js.endsWith word (str "'s") then take (length word - 2) word else word.

(** [stem(word.toLowerCase()).replace(/[^a-z]/g, '')] *)
Definition normalize (word : jsstring) : jsstring :=
  List.filter Js.is_az (stem (Js.toLowerCase word)).


(** ** Persistent state and the engine object *)

(** A stored occurrence [[count, offset]]. *)
Definition occurrence : Type := N * N.

(** What a field of a document can hold. *)
Inductive value :=
| VNum (n : N)
| VNull
| VArr (elems : list value)
| VDoc (fields : list (jsstring * value)).

(** The array [[count, offset]] as a stored value, and back. *)
Definition pair_value (occ : occurrence) : value :=
  VArr [VNum occ.1; VNum occ.2].

Definition as_pair (v : value) : option occurrence :=
  match v with
  | VArr [VNum count; VNum offset] => Some (count, offset)
  | _ => None
  end.

(** The database: collections [completions], [contents], [noise] and
    [words], each keyed by [_id].  A document of [words] is the list of its
    fields other than [_id], in field order; [addContent] stores under a
    document name the array [[count, offset]]. *)
Record Database := mkDatabase {
  completionsTable : gmap jsstring (list jsstring);
  contentsTable : gmap jsstring jsstring;
  noiseTable : gset jsstring;
  wordsTable : gmap jsstring (list (jsstring * value))
}.

(** An instance of [DocFinder]: the database it is attached to and the
    in-memory set [this.noiseWords]. *)
Record DocFinder := mkDocFinder {
  db : Database;
  noiseWords : gset jsstring
}.

Definition set_completions (f : gmap jsstring (list jsstring) → gmap jsstring (list jsstring))
  (st : DocFinder) : DocFinder :=
  let d := db st in
  mkDocFinder
    (mkDatabase (f (completionsTable d)) (contentsTable d) (noiseTable d) (wordsTable d))
    (noiseWords st).
Definition set_contents (f : gmap jsstring jsstring → gmap jsstring jsstring)
  (st : DocFinder) : DocFinder :=
  let d := db st in
  mkDocFinder
    (mkDatabase (completionsTable d) (f (contentsTable d)) (noiseTable d) (wordsTable d))
    (noiseWords st).
Definition set_noise (f : gset jsstring → gset jsstring)
  (st : DocFinder) : DocFinder :=
  let d := db st in
  mkDocFinder
    (mkDatabase (completionsTable d) (contentsTable d) (f (noiseTable d)) (wordsTable d))
    (noiseWords st).
Definition set_words
  (f : gmap jsstring (list (jsstring * value)) → gmap jsstring (list (jsstring * value)))
  (st : DocFinder) : DocFinder :=
  let d := db st in
  mkDocFinder
    (mkDatabase (completionsTable d) (contentsTable d) (noiseTable d) (f (wordsTable d)))
    (noiseWords st).
Definition set_noiseWords (f : gset jsstring → gset jsstring)
  (st : DocFinder) : DocFinder :=
  mkDocFinder (db st) (f (noiseWords st)).

(** What a method can throw: the [Error] object built by [docContent]
    (properties [code] and [message]), a [TypeError] of the language, an
    error of the driver raised before a request is sent, or a write refused
    by the store (the code and the message of these two are not
    distinguished). *)
Inductive exn :=
| Error (code message : jsstring)
| TypeError
| DriverError
| MongoError.

Inductive outcome (A : Type) :=
| Return (a : A)
| Throw (e : exn).
Arguments Return {A} a.
Arguments Throw {A} e.

(** Computations that return or throw without touching the state. *)
#[global] Instance outcome_ret : MRet outcome := @Return.
#[global] Instance outcome_bind : MBind outcome :=
  λ A B k m, match m with Return a => k a | Throw e => Throw e end.
#[global] Instance outcome_fmap : FMap outcome :=
  λ A B f m, match m with Return a => Return (f a) | Throw e => Throw e end.

(** [for (const x of l) ys.push(f(x))] where [f] may throw. *)
Fixpoint map_outcome {A B} (f : A → outcome B) (l : list A) : outcome (list B) :=
  match l with
  | [] => Return []
  | x :: l' => y ← f x; ys ← map_outcome f l'; Return (y :: ys)
  end.

(** [l.reduce(f, a)] where [f] may throw. *)
Fixpoint reduce_outcome {A B} (f : B → A → outcome B) (l : list A) (a : B)
  : outcome B :=
  match l with
  | [] => Return a
  | x :: l' => b ← f a x; reduce_outcome f l' b
  end.

(** An [async] method: from the state before to the outcome and the state
    after; effects made before a throw stay. *)
Definition async (A : Type) : Type := DocFinder → outcome A * DocFinder.

Definition ret {A} (a : A) : async A := λ st, (Return a, st).
Definition throw {A} (e : exn) : async A := λ st, (Throw e, st).
Definition bind {A B} (m : async A) (k : A → async B) : async B :=
  λ st, match m st with
        | (Return a, st') => k a st'
        | (Throw e, st') => (Throw e, st')
        end.
Definition gets {A} (f : DocFinder → A) : async A := λ st, (Return (f st), st).
Definition modify (f : DocFinder → DocFinder) : async unit :=
  λ st, (Return tt, f st).
Definition lift {A} (o : outcome A) : async A := λ st, (o, st).

#[global] Instance async_ret : MRet async := @ret.
#[global] Instance async_bind : MBind async := λ A B k m, bind m k.

(** [for (const x of l) { await body(x); }] *)
Fixpoint for_of {A} (l : list A) (body : A → async unit) : async unit :=
  match l with
  | [] => ret tt
  | x :: l' => body x;; for_of l' body
  end.

(** ** Store operations *)

(** [contentsTable.findOne({_id: name})] *)
Definition contents_findOne (name : jsstring) : async (option jsstring) :=
  gets (λ st, contentsTable (db st) !! name).

(** [contentsTable.replaceOne({_id: name}, {_id: name, contents}, {upsert: true})] *)
Definition contents_replaceOne (name contents : jsstring) : async unit :=
  modify (set_contents (λ t, <[name := contents]> t)).

(** [noiseTable.insertMany(docs)]: an ordered bulk insert; a document whose
    [_id] is already in the collection is refused (duplicate key) and stops
    the insert, the documents before it stay inserted. *)
Definition E11000 : exn := MongoError.
Fixpoint noise_insertMany (ids : list jsstring) : async unit :=
  match ids with
  | [] => ret tt
  | n :: ids' =>
      present ← gets (λ st, bool_decide (n ∈ noiseTable (db st)));
      if (present : bool) then throw E11000
      else modify (set_noise (λ t, {[n]} ∪ t));; noise_insertMany ids'
  end.

(** A value held by a property of the object [index] built by
    [_makeIndex]: an array [[count, offset]], or the function [Object],
    which [index["constructor"]] reads from the prototype of [{}]. *)
Inductive indexValue :=
| WordInfo (count offset : N)
| ObjectFunction.

(** *** The [$set] of a path

    The key of a [$set] is a path: its components, separated by ["."], lead
    through embedded documents (by field name) and arrays (by index); what
    is missing at the end of the path is created as embedded documents. *)

(** [name.split(".")]: the components of a path; [cur] is the component
    being read. *)
Fixpoint split_dot (name : jsstring) (cur : jsstring) : list jsstring :=
  match name with
  | [] => [cur]
  | c :: name' =>
      if bool_decide (c = "."%char) then cur :: split_dot name' []
      else split_dot name' (cur ++ [c])
  end.
Definition path_components (name : jsstring) : list jsstring :=
  split_dot name [].

(** The component [$[]], which stands for every element of an array. *)
Definition all_elements (k : jsstring) : bool := bool_decide (k = str "$[]").

(** A component read as an array index: decimal digits, below 2^32. *)
Definition path_index (k : jsstring) : option N :=
  match k with
  | [] => None
  | _ => match Js.decimal k 0 with
         | Some n => if n <? 4294967296 then Some n else None
         | None => None
         end
  end.

(** What is created for the missing end of a path: embedded documents, also
    for numeric components. *)
Fixpoint create_path (comps : list jsstring) (v : value) : value :=
  match comps with
  | [] => v
  | k :: rest => VDoc [(k, create_path rest v)]
  end.

Definition refuse {A} : outcome A := Throw MongoError.

(** [$set] of [v] at the path [comps] inside the value [x].  An embedded
    document is entered by field name, the field being added at its end
    when it is missing; an array is entered by index, being filled with
    [null] up to an index past its end (by no more than 1500000 elements),
    or at all its elements by [$[]]; a number or [null] cannot be
    entered. *)
Fixpoint set_path (comps : list jsstring) (v : value) (x : value)
  : outcome value :=
  match comps with
  | [] => Return v
  | k :: rest =>
      match x with
      | VDoc fs =>
          if all_elements k then refuse
          else
            match Js.assoc_get fs k with
            | Some child =>
                child' ← set_path rest v child;
                Return (VDoc (Js.assoc_set fs k child'))
            | None =>
                if bool_decide (str "$[]" ∈ rest) then refuse
                else Return (VDoc (Js.assoc_set fs k (create_path rest v)))
            end
      | VArr l =>
          if all_elements k then VArr <$> map_outcome (set_path rest v) l
          else
            match path_index k with
            | None => refuse
            | Some i =>
                match l !! N.to_nat i with
                | Some child =>
                    child' ← set_path rest v child;
                    Return (VArr (<[N.to_nat i := child']> l))
                | None =>
                    if 1500000 <? i - N.of_nat (length l)
                    then refuse
                    else if bool_decide (str "$[]" ∈ rest) then refuse
                    else Return (VArr (l ++ replicate (N.to_nat i - length l) VNull
                                         ++ [create_path rest v]))
                end
            end
      | VNum _ | VNull => refuse
      end
  end.

Definition fields_of (x : value) : list (jsstring * value) :=
  match x with
  | VDoc fs => fs
  | _ => []
  end.

(** The update [{$set: {[name]: v}}] of a [words] document with the fields
    [fields].  The driver refuses a key with a NUL character; the store
    refuses a path with an empty component, with a component that starts
    with ["$"] other than [$[]], or that begins at [_id]. *)
Definition words_set (fields : list (jsstring * value)) (name : jsstring)
  (v : value) : outcome (list (jsstring * value)) :=
  let comps := path_components name in
  if bool_decide ("000"%char ∈ name) then Throw DriverError
  else if bool_decide ([] ∈ comps) then refuse
  else if existsb (λ k, Js.startsWith k (str "$") && negb (all_elements k)) comps
       then refuse
  else if bool_decide (head comps = Some (str "_id")) then refuse
  else fields_of <$> set_path comps v (VDoc fields).

(** A name that is a path of one component and is accepted: a plain field
    name, under which [$set] stores at the top level of the document.  The
    keys [toBSON] and [_bsontype], which the serialiser of the driver reads
    itself, are not counted among them. *)
Definition field_name (name : jsstring) : bool :=
  negb (bool_decide (name = []))
  && negb (bool_decide (name = str "_id"))
  && negb (bool_decide ("."%char ∈ name))
  && negb (bool_decide ("000"%char ∈ name))
  && negb (Js.startsWith name (str "$"))
  && negb (bool_decide (name = str "toBSON"))
  && negb (bool_decide (name = str "_bsontype")).

(** [wordsTable.updateOne({_id: word}, {$set: {[name]: wordInfo}}, {upsert: true})].
    A function is not serialised, which leaves an empty [$set]. *)
Definition words_updateOne_set (word name : jsstring) (wordInfo : indexValue)
  : async unit :=
  if bool_decide ("000"%char ∈ name) then throw DriverError
  else
    match wordInfo with
    | ObjectFunction => throw MongoError
    | WordInfo count offset =>
        doc ← gets (λ st, default [] (wordsTable (db st) !! word));
        match words_set doc name (pair_value (count, offset)) with
        | Return doc' => modify (set_words (λ t, <[word := doc']> t))
        | Throw e => throw e
        end
    end.

(** The own properties of the object that the driver builds for a
    document: it assigns the fields one by one, and the assignment to
    [__proto__] sets the prototype instead of adding a property. *)
Definition own_fields (fields : list (jsstring * value))
  : list (jsstring * value) :=
  List.filter (λ kv, negb (bool_decide (kv.1 = str "__proto__"))) fields.

(** [wordsTable.findOne({_id: term})] *)
Definition words_findOne (term : jsstring)
  : async (option (list (jsstring * value))) :=
  gets (λ st, own_fields <$> wordsTable (db st) !! term).

(** [completionsTable.findOne({_id: c})] *)
Definition completions_findOne (c : jsstring) : async (option (list jsstring)) :=
  gets (λ st, completionsTable (db st) !! c).

(** [completionsTable.replaceOne({_id: c}, {_id: c, words}, {upsert: true})] *)
Definition completions_replaceOne (c : jsstring) (words : list jsstring)
  : async unit :=
  modify (set_completions (λ t, <[c := words]> t)).

(** ** Stored values as JavaScript values

    What [find] does with the value [idx] of a field: [idx[0]], [idx[1]],
    [+] and the [ToNumber] of [lastIndexOf].  For the array [[count,
    offset]] these are two numbers; for other values the conversions of the
    language apply. *)

(** Primitive values. *)
Inductive prim :=
| PUndefined
| PNull
| PNumber (n : N)
| PNaN
| PString (s : jsstring).
Coercion PNumber : N >-> prim.

(** A value of the language: a primitive, or an object (array or plain
    object) built by the driver from a stored array or document. *)
Inductive jsval :=
| JPrim (p : prim)
| JObject (o : value).

Definition of_value (v : value) : jsval :=
  match v with
  | VNum n => JPrim (PNumber n)
  | VNull => JPrim PNull
  | VArr _ | VDoc _ => JObject v
  end.

(** The property keys that the conversions read. *)
Inductive key :=
| KIndex (i : N)
| KLength
| KJoin
| KToString
| KValueOf.

Definition key_name (k : key) : jsstring :=
  match k with
  | KIndex i => Js.Number_toString i
  | KLength => str "length"
  | KJoin => str "join"
  | KToString => str "toString"
  | KValueOf => str "valueOf"
  end.

Inductive builtin :=
| Array_join
| Array_toString
| Object_toString
| Object_valueOf.

(** The result of a property lookup: nothing ([undefined]), a stored value,
    or a method of a built-in prototype. *)
Inductive property :=
| Absent
| Data (v : value)
| Builtin (f : builtin).

Definition Object_prototype (k : key) : property :=
  match k with
  | KToString => Builtin Object_toString
  | KValueOf => Builtin Object_valueOf
  | _ => Absent
  end.

Definition Array_prototype (k : key) : property :=
  match k with
  | KJoin => Builtin Array_join
  | KToString => Builtin Array_toString
  | _ => Object_prototype k
  end.

(** [o[k]]: an own property, else what the prototype chain has.  The
    prototype of an array is [Array.prototype]; the prototype of an object
    is the array or object that the document holds under [__proto__]
    ([null] gives an object without prototype), else [Object.prototype]. *)
Fixpoint Get (o : value) (k : key) {struct o} : property :=
  match o with
  | VNum _ | VNull => Absent
  | VArr l =>
      match k with
      | KIndex i =>
          match l !! N.to_nat i with
          | Some v => Data v
          | None => Array_prototype k
          end
      | KLength => Data (VNum (N.of_nat (length l)))
      | _ => Array_prototype k
      end
  | VDoc fs =>
      match Js.assoc_get (own_fields fs) (key_name k) with
      | Some v => Data v
      | None =>
          (fix proto (fs' : list (jsstring * value)) : property :=
             match fs' with
             | [] => Object_prototype k
             | (n, p) :: rest =>
                 if bool_decide (n = str "__proto__") then
                   match p with
                   | VArr _ | VDoc _ => Get p k
                   | VNull => Absent
                   | VNum _ => Object_prototype k
                   end
                 else proto rest
             end) fs
      end
  end.

(** [Object.prototype.toString.call(o)] *)
Definition Object_prototype_toString (o : value) : jsstring :=
  match o with
  | VArr _ => str "[object Array]"
  | _ => str "[object Object]"
  end.

(** The number of constructors of a value, a bound on the depth of the
    conversions below. *)
Fixpoint size (v : value) : nat :=
  match v with
  | VNum _ | VNull => 1
  | VArr l => S (list_sum (map size l))
  | VDoc fs => S (list_sum (map (λ kv, size kv.2) fs))
  end.

(** [ToPrimitive(o)] for an array or object [o]: [valueOf] never gives a
    primitive here, so the result is what [toString] returns, a string, or
    a [TypeError] when no [toString] can be called.  [Array.prototype
    .toString] calls [join], which reads [length] and the elements through
    [Get] and converts them in turn.  [fuel] bounds the depth of these
    conversions. *)
Fixpoint ToPrimitive_fuel (fuel : nat) (o : value) : outcome jsstring :=
  match fuel with
  | O => Throw TypeError
  | S fuel =>
      match Get o KToString with
      | Builtin Array_toString =>
          match Get o KJoin with
          | Builtin Array_join =>
              len ← match Get o KLength with
                    | Data (VNum n) => Return n
                    | Data ((VArr _ | VDoc _) as x) =>
                        s ← ToPrimitive_fuel fuel x;
                        Return (default 0 (Js.StringToNumber s))
                    | _ => Return 0
                    end;
              parts ← map_outcome
                        (λ i, match Get o (KIndex (N.of_nat i)) with
                              | Data (VNum n) => Return (Js.Number_toString n)
                              | Data ((VArr _ | VDoc _) as x) =>
                                  ToPrimitive_fuel fuel x
                              | _ => Return []
                              end)
                        (seq 0 (N.to_nat len));
              Return (Js.join_comma parts)
          | _ => Return (Object_prototype_toString o)
          end
      | Builtin Object_toString => Return (Object_prototype_toString o)
      | _ => Throw TypeError
      end
  end.

Definition ToPrimitive (x : jsval) : outcome prim :=
  match x with
  | JPrim p => Return p
  | JObject o => PString <$> ToPrimitive_fuel (size o) o
  end.

(** [ToString] and [ToNumber] of a primitive; [None] is [NaN]. *)
Definition ToString (p : prim) : jsstring :=
  match p with
  | PUndefined => str "undefined"
  | PNull => str "null"
  | PNumber n => Js.Number_toString n
  | PNaN => str "NaN"
  | PString s => s
  end.

Definition ToNumber (p : prim) : option N :=
  match p with
  | PUndefined => None
  | PNull => Some 0
  | PNumber n => Some n
  | PNaN => None
  | PString s => Js.StringToNumber s
  end.

(** [acc + x] *)
Definition js_add (acc : prim) (x : jsval) : outcome prim :=
  r ← ToPrimitive x;
  Return match acc, r with
         | PString _, _ | _, PString _ => PString (ToString acc ++ ToString r)
         | _, _ =>
             match ToNumber acc, ToNumber r with
             | Some a, Some b => PNumber (a + b)
             | _, _ => PNaN
             end
         end.

(** [wordInfo[i]] for a stored value [wordInfo]. *)
Definition js_index (wordInfo : value) (i : N) : outcome jsval :=
  match wordInfo with
  | VNull => Throw TypeError
  | _ =>
      Return match Get wordInfo (KIndex i) with
             | Data v => of_value v
             | _ => JPrim PUndefined
             end
  end.

(** The position from which [contents.lastIndexOf('\n', o)] searches:
    [ToNumber(o)], with [NaN] read as the end of the string. *)
Definition search_position (contents : jsstring) (o : jsval) : outcome N :=
  p ← ToPrimitive o;
  Return (default (N.of_nat (length contents)) (ToNumber p)).

(** ** Class [DocFinder] *)

(** [_readNoiseWords]: the [_id]s of all documents of [noise]. *)
Definition _readNoiseWords (d : Database) : gset jsstring := noiseTable d.

(** [create]: attach to the database and load the noise words. *)
Definition create (d : Database) : DocFinder :=
  mkDocFinder d (_readNoiseWords d).

(** A database without documents. *)
Definition empty_db : Database := mkDatabase ∅ ∅ ∅ ∅.

(** [clear] *)
Definition clear : async unit :=
  modify (set_completions (λ _, ∅));;
  modify (set_contents (λ _, ∅));;
  modify (set_noise (λ _, ∅));;
  modify (set_words (λ _, ∅)).

(** The loop of [_wordsLow] over the matches of [WORD_REGEX], for a given
    noise set. *)
Definition wordsLow_of (noise : gset jsstring) (content : jsstring)
  : list (jsstring * N) :=
  List.flat_map
    (λ m, let word := normalize m.1 in
          if negb (bool_decide (word = [])) && negb (bool_decide (word ∈ noise))
          then [(word, m.2)] else [])
    (Js.exec_all content).

(** [_wordsLow] *)
Definition _wordsLow (content : jsstring) : async (list (jsstring * N)) :=
  gets (λ st, wordsLow_of (noiseWords st) content).

(** [words] *)
Definition words (contentText : jsstring) : async (list jsstring) :=
  pairs ← _wordsLow contentText;
  mret pairs.*1.

(** [addNoiseWords] *)
Definition addNoiseWords (noiseText : jsstring) : async unit :=
  noiseWords_ ← words noiseText;
  let noise := Js.Set_from noiseWords_ in
  cached ← gets noiseWords;
  let noise := List.filter (λ n, negb (bool_decide (n ∈ cached))) noise in
  if (0 <? length noise)%nat then
    let a := noise in
    noise_insertMany a;;
    modify (set_noiseWords (λ s, fold_left (λ s n, {[n]} ∪ s) a s))
  else mret tt.

(** [_saveContents] *)
Definition _saveContents (name contentsText : jsstring) : async unit :=
  contents_replaceOne name contentsText.

(** [index[word]] on the object literal [{}]: an own property, else what
    the prototype has under that name; among normalised words only
    ["constructor"] names a property of [Object.prototype]. *)
Definition index_get (index : list (jsstring * indexValue)) (word : jsstring)
  : option indexValue :=
  match Js.assoc_get index word with
  | Some v => Some v
  | None =>
      if bool_decide (word = str "constructor") then Some ObjectFunction
      else None
  end.

(** The body of the [forEach] of [_makeIndex]. *)
Definition makeIndex_step (index : list (jsstring * indexValue))
  (pair : jsstring * N) : list (jsstring * indexValue) :=
  let '(word, offset) := pair in
  let wordInfo := default (WordInfo 0 offset) (index_get index word) in
  let wordInfo :=
    match wordInfo with
    | WordInfo count first => WordInfo (count + 1) first
    | ObjectFunction => ObjectFunction
    end in
  Js.assoc_set index word wordInfo.

(** [_makeIndex] *)
Definition _makeIndex (contentText : jsstring)
  : async (list (jsstring * indexValue)) :=
  words_ ← _wordsLow contentText;
  mret (fold_left makeIndex_step words_ []).

(** [_saveWords] *)
Definition _saveWords (name : jsstring) (wordsIndex : list (jsstring * indexValue))
  : async unit :=
  for_of (Js.Object_entries wordsIndex)
    (λ '(word, wordInfo), words_updateOne_set word name wordInfo).

(** [word[0]]: the first character; the empty list stands for [undefined]. *)
Definition char0 (word : jsstring) : jsstring := take 1 word.

(** The body of the loop of [_makeCompletions]. *)
Definition makeCompletions_step (completions : list (jsstring * list jsstring))
  (word : jsstring) : list (jsstring * list jsstring) :=
  let c := char0 word in
  let completions :=
    match Js.assoc_get completions c with
    | Some _ => completions
    | None => Js.assoc_set completions c []
    end in
  Js.assoc_set completions c (default [] (Js.assoc_get completions c) ++ [word]).

(** [_makeCompletions]: a [Map] from first characters to word lists. *)
Definition _makeCompletions (words : list jsstring)
  : list (jsstring * list jsstring) :=
  fold_left makeCompletions_step words [].

(** [_updateCompletions] *)
Definition _updateCompletions (words : list jsstring) : async unit :=
  let completions := _makeCompletions words in
  for_of completions.*1
    (λ c,
       doc ← completions_findOne c;
       let previous := default [] doc in
       let cWords :=
         Js.Set_from (default [] (Js.assoc_get completions c) ++ previous) in
       completions_replaceOne c cWords).

(** [addContent] *)
Definition addContent (name contentText : jsstring) : async unit :=
  let contentText :=
    if negb (Js.endsWith contentText [LF]) then contentText ++ [LF]
    else contentText in
  _saveContents name contentText;;
  index ← _makeIndex contentText;
  _saveWords name index;;
  _updateCompletions (Js.Object_keys index).

(** [docContent] *)
Definition docContent (name : jsstring) : async jsstring :=
  doc ← contents_findOne name;
  match doc with
  | Some contents => mret contents
  | None =>
      throw (Error (str "NOT_FOUND") (str "doc " ++ name ++ str " not found"))
  end.


(** Class [Result]. *)
Record Result := mkResult {
  name : jsstring;
  score : prim;
  lines : list jsstring
}.

(** [OffsetResult.result]: [new OffsetResult(name, score, offsets).result(contents)],
    for the positions [offsets] from which [lastIndexOf] searches. *)
Definition OffsetResult_result (name : jsstring) (score : prim) (offsets : list N)
  (contents : jsstring) : Result :=
  let starts :=
    Js.Set_from (map (λ o, (Js.lastIndexOf_LF contents o + 1)%Z) offsets) in
  let lines :=
    map (λ i, Js.substring contents i (Js.indexOf_LF contents i + 1)%Z)
      (merge_sort Z.le starts) in
  mkResult name score lines.

(** The body of the inner loop of [_findDocs]. *)
Definition findDocs_entry (docs : list (jsstring * list value))
  (entry : jsstring * value) : list (jsstring * list value) :=
  let '(name, idx) := entry in
  if bool_decide (name = str "_id") then docs
  else Js.assoc_set docs name (default [] (Js.assoc_get docs name) ++ [idx]).

Fixpoint findDocs_loop (terms : list jsstring)
  (docs : list (jsstring * list value))
  : async (list (jsstring * list value)) :=
  match terms with
  | [] => mret docs
  | term :: terms' =>
      termIndex ← words_findOne term;
      findDocs_loop terms'
        match termIndex with
        | Some fields => fold_left findDocs_entry (Js.Object_entries fields) docs
        | None => docs
        end
  end.

(** [_findDocs] *)
Definition _findDocs (terms : list jsstring)
  : async (list (jsstring * list value)) :=
  findDocs_loop terms [].

(** [wordInfos.reduce((acc, wordInfo) => acc + wordInfo[0], 0)] *)
Definition score_of (wordInfos : list value) : outcome prim :=
  reduce_outcome (λ acc wordInfo, x ← js_index wordInfo 0; js_add acc x)
    wordInfos (PNumber 0).

(** [wordInfos.map(wordInfo => wordInfo[1])], each offset being converted
    as [lastIndexOf] does in [result]. *)
Definition offsets_of (wordInfos : list value) (contents : jsstring)
  : outcome (list N) :=
  offsets ← map_outcome (λ wordInfo, js_index wordInfo 1) wordInfos;
  map_outcome (search_position contents) offsets.

(** The loop of [find] over [docs.entries()]. *)
Fixpoint find_loop (docs : list (jsstring * list value))
  : async (list Result) :=
  match docs with
  | [] => mret []
  | (name, wordInfos) :: docs' =>
      doc ← docContent name;
      score ← lift (score_of wordInfos);
      offsets ← lift (offsets_of wordInfos doc);
      results ← find_loop docs';
      mret (OffsetResult_result name score offsets doc :: results)
  end.

(** [String.prototype.localeCompare] depends on the collation of the host;
    it is an interface here. *)
Class Collator := {
  localeCompare : jsstring → jsstring → Z
}.

(** What a collation guarantees: a comparator whose sign flips with its
    arguments and whose "not after" is transitive. *)
Class CollatorLaws `{Collator} : Prop := {
  localeCompare_flip a b :
    Z.sgn (localeCompare b a) = (- Z.sgn (localeCompare a b))%Z;
  localeCompare_trans a b c :
    (localeCompare a b <= 0)%Z → (localeCompare b c <= 0)%Z →
    (localeCompare a c <= 0)%Z
}.

Section Search.
Context `{Collator}.

(** [compareResults]: the difference of the scores unless it is 0 or
    [NaN], else the comparison of the names. *)
Definition compareResults (result1 result2 : Result) : Z :=
  match ToNumber (score result2), ToNumber (score result1) with
  | Some s2, Some s1 =>
      let d := (Z.of_N s2 - Z.of_N s1)%Z in
      if bool_decide (d ≠ 0%Z) then d
      else localeCompare (name result1) (name result2)
  | _, _ => localeCompare (name result1) (name result2)
  end.

(** [a] may stay before [b] in [results.sort(compareResults)]. *)
Definition result_le (a b : Result) : Prop := (compareResults a b <= 0)%Z.
#[global] Instance result_le_dec : RelDecision result_le.
Proof. intros a b. unfold result_le. apply _. Defined.

(** [find] *)
Definition find (text : jsstring) : async (list Result) :=
  ws ← words text;
  let terms := Js.Set_from ws in
  docs ← _findDocs terms;
  results ← find_loop docs;
  mret (merge_sort result_le results).

End Search.

(** [complete] *)
Definition complete (text : jsstring) : async (list jsstring) :=
  if negb (from_option Js.is_alpha false (last text)) then mret []
  else
    let word := default [] (last (normalize <$> Js.split_ws text)) in
    doc ← completions_findOne (char0 word);
    let completions := default [] doc in
    let completions := merge_sort Js.le completions in
    mret (List.filter (λ w, Js.startsWith w word) completions).

(** The collation by code units, an instance of the interface. *)
Definition code_unit_compare (a b : jsstring) : Z :=
  match Js.compare a b with Lt => (-1)%Z | Eq => 0%Z | Gt => 1%Z end.

Definition code_unit_collator : Collator :=
  {| localeCompare := code_unit_compare |}.


(** States an engine can be in: attached to an empty database, then any
    sequence of [addNoiseWords], [addContent] and [clear], whether the call
    returned or threw, and of re-attaching to the database with [create]. *)
Inductive reachable : DocFinder → Prop :=
| reachable_create : reachable (create empty_db)
| reachable_addNoiseWords st noiseText :
    reachable st → reachable (addNoiseWords noiseText st).2
| reachable_addContent st name contentText :
    reachable st → reachable (addContent name contentText st).2
| reachable_clear st :
    reachable st → reachable (clear st).2
| reachable_reopen st :
    reachable st → reachable (create (db st)).

(** The states reached when every document is ingested under a plain field
    name. *)
Inductive plainly_reachable : DocFinder → Prop :=
| plainly_create : plainly_reachable (create empty_db)
| plainly_addNoiseWords st noiseText :
    plainly_reachable st → plainly_reachable (addNoiseWords noiseText st).2
| plainly_addContent st name contentText :
    plainly_reachable st → field_name name = true →
    plainly_reachable (addContent name contentText st).2
| plainly_clear st :
    plainly_reachable st → plainly_reachable (clear st).2
| plainly_reopen st :
    plainly_reachable st → plainly_reachable (create (db st)).

(** * Specification-level notions *)

(** ** Tokens

    A token is a maximal run of non-space characters; it starts at an index
    that holds a non-space character and is either 0 or preceded by a
    space. *)
Fixpoint take_nonspace (s : jsstring) : jsstring :=
  match s with
  | [] => []
  | c :: s' => if Js.is_space c then [] else c :: take_nonspace s'
  end.

Definition token_at (text : jsstring) (i : nat) : jsstring :=
  take_nonspace (drop i text).

Definition token_start (text : jsstring) (i : nat) : Prop :=
  (∃ c, text !! i = Some c ∧ Js.is_space c = false) ∧
  (i = 0%nat ∨ ∃ j p, i = S j ∧ text !! j = Some p ∧ Js.is_space p = true).

(** A normalised word: not empty, letters [a]..[z] only. *)
Definition is_word (w : jsstring) : Prop :=
  w ≠ [] ∧ Forall (λ c, Js.is_az c = true) w.

(** ** Writes to the store

    Every effect of [addContent] is one of three keyed writes; the method is
    described below by the list of writes it performs before it returns or
    throws. *)
Inductive write :=
| WContents (name contents : jsstring)
| WWord (word name : jsstring) (occ : occurrence)
| WCompletion (c : jsstring) (words : list jsstring).

Definition run_write (w : write) : DocFinder → DocFinder :=
  match w with
  | WContents name contents => set_contents (λ t, <[name := contents]> t)
  | WWord word name occ =>
      set_words (λ t,
        match words_set (default [] (t !! word)) name (pair_value occ) with
        | Return doc' => <[word := doc']> t
        | Throw _ => t
        end)
  | WCompletion c words =>
      set_completions (λ t, <[c := Js.Set_from (words ++ default [] (t !! c))]> t)
  end.

Definition run_writes (ws : list write) (st : DocFinder) : DocFinder :=
  fold_left (λ s w, run_write w s) ws st.

(** The collection and the key a write touches. *)
Definition write_key (w : write) : nat * jsstring :=
  match w with
  | WContents name _ => (0%nat, name)
  | WWord word _ _ => (1%nat, word)
  | WCompletion c _ => (2%nat, c)
  end.

(** ** The writes of [addContent] *)

(** The content as stored: with a newline appended unless it ends in one. *)
Definition stored_text (contentText : jsstring) : jsstring :=
  if negb (Js.endsWith contentText [LF]) then contentText ++ [LF]
  else contentText.

(** The index [_makeIndex] returns under a given noise set. *)
Definition make_index (noise : gset jsstring) (contentText : jsstring)
  : list (jsstring * indexValue) :=
  fold_left makeIndex_step (wordsLow_of noise contentText) [].

(** The writes of [_saveWords] up to the first refused one, and the error
    of that one, for the collection [t] that the method starts with (the
    entries of an index have different words, so that each write meets the
    document of its word as it is in [t]). *)
Fixpoint saveWords_writes (t : gmap jsstring (list (jsstring * value)))
  (name : jsstring) (entries : list (jsstring * indexValue))
  : list write * option exn :=
  match entries with
  | [] => ([], None)
  | (word, wordInfo) :: rest =>
      if bool_decide ("000"%char ∈ name) then ([], Some DriverError)
      else
        match wordInfo with
        | ObjectFunction => ([], Some MongoError)
        | WordInfo count offset =>
            match words_set (default [] (t !! word)) name
                    (pair_value (count, offset)) with
            | Return _ =>
                let '(ws, e) := saveWords_writes t name rest in
                (WWord word name (count, offset) :: ws, e)
            | Throw e => ([], Some e)
            end
        end
  end.

Definition completion_writes (words : list jsstring) : list write :=
  let completions := _makeCompletions words in
  map (λ c, WCompletion c (default [] (Js.assoc_get completions c)))
    completions.*1.

Definition addContent_writes (t : gmap jsstring (list (jsstring * value)))
  (noise : gset jsstring) (name contentText : jsstring)
  : list write :=
  let index := make_index noise (stored_text contentText) in
  let '(ws, e) := saveWords_writes t name (Js.Object_entries index) in
  WContents name (stored_text contentText)
    :: ws ++ match e with
             | None => completion_writes (Js.Object_keys index)
             | Some _ => []
             end.

Definition addContent_outcome (t : gmap jsstring (list (jsstring * value)))
  (noise : gset jsstring) (name contentText : jsstring)
  : outcome unit :=
  let index := make_index noise (stored_text contentText) in
  match (saveWords_writes t name (Js.Object_entries index)).2 with
  | None => Return tt
  | Some e => Throw e
  end.

(** ** Noise words, well-formedness and invariants *)

(** The normalised words of a text, noise or not. *)
Definition normalized_words (text : jsstring) : list jsstring :=
  (wordsLow_of ∅ text).*1.

(** Every key of the inverted index, every noise word (stored or cached)
    and every word of a completion entry is a normalised word; a completion
    entry is not empty and its key is the first character of each of its
    words. *)
Definition well_formed (st : DocFinder) : Prop :=
  (∀ w fields, wordsTable (db st) !! w = Some fields → is_word w) ∧
  (∀ w, w ∈ noiseTable (db st) → is_word w) ∧
  (∀ w, w ∈ noiseWords st → is_word w) ∧
  (∀ c ws, completionsTable (db st) !! c = Some ws →
     ws ≠ [] ∧ ∀ w, w ∈ ws → is_word w ∧ char0 w = c).

Definition write_ok (x : write) : Prop :=
  match x with
  | WContents _ _ => True
  | WWord word _ _ => is_word word
  | WCompletion c ws => ws ≠ [] ∧ ∀ w, w ∈ ws → is_word w ∧ char0 w = c
  end.

(** The words of a list that begin with a given character. *)
Definition words_with (c : jsstring) (words : list jsstring) : list jsstring :=
  List.filter (λ w, bool_decide (char0 w = c)) words.

(** What holds in every reachable state besides well-formedness: the noise
    collection has nothing that the cache lacks; a completion entry has no
    duplicates; a document of the inverted index has no two fields of the
    same name and none called [_id]; every content ends with a newline. *)
Record consistent (st : DocFinder) : Prop := {
  cons_well_formed : well_formed st;
  cons_noise : noiseTable (db st) ⊆ noiseWords st;
  cons_completions : ∀ c ws, completionsTable (db st) !! c = Some ws → NoDup ws;
  cons_fields : ∀ w fields, wordsTable (db st) !! w = Some fields →
     NoDup fields.*1 ∧ (str "_id" ∉ fields.*1);
  cons_contents : ∀ d c, contentsTable (db st) !! d = Some c → [LF] `suffix_of` c
}.

(** A regular state: every field of the inverted index holds an array
    [[count, offset]] and is named after a document that has a content.
    These are the states reached with plain field names. *)
Definition regular (st : DocFinder) : Prop :=
  ∀ w fields d v, wordsTable (db st) !! w = Some fields → (d, v) ∈ fields →
    is_Some (as_pair v) ∧ is_Some (contentsTable (db st) !! d).

(** A write that keeps a consistent state consistent. *)
Definition write_valid (x : write) : Prop :=
  write_ok x ∧
  match x with
  | WContents _ contents => [LF] `suffix_of` contents
  | _ => True
  end.

(** A write that keeps a regular state regular. *)
Definition write_plain (st : DocFinder) (x : write) : Prop :=
  match x with
  | WWord _ name _ =>
      field_name name = true ∧ is_Some (contentsTable (db st) !! name)
  | _ => True
  end.

Fixpoint plain_seq (st : DocFinder) (xs : list write) : Prop :=
  match xs with
  | [] => True
  | x :: xs' => write_plain st x ∧ plain_seq (run_write x st) xs'
  end.

(** The writes of [addContent] after the first one: index and completion
    writes for the ingested name. *)
Definition index_write (name : jsstring) (x : write) : Prop :=
  write_ok x ∧
  match x with
  | WContents _ _ => False
  | WWord _ n _ => n = name
  | WCompletion _ _ => True
  end.

(** ** Completion *)

(** The final white-space-delimited token of a text: its longest suffix
    without white space. *)
Definition last_token (text : jsstring) : jsstring :=
  reverse (take_nonspace (reverse text)).

(** ** Search *)

(** The field of a document name in the document of a term: the entry of
    the document in the inverted index of the term. *)
Definition field (st : DocFinder) (term d : jsstring) : option value :=
  match wordsTable (db st) !! term with
  | Some fields => Js.assoc_get fields d
  | None => None
  end.

(** The occurrence stored for a term and a document. *)
Definition stored (st : DocFinder) (term d : jsstring) : option occurrence :=
  field st term d ≫= as_pair.

(** The values that [_findDocs] collects for a document: the fields of its
    name in the documents of the terms, as far as they are properties of
    the object that the driver builds. *)
Definition listed (st : DocFinder) (terms : list jsstring) (d : jsstring)
  : list value :=
  if bool_decide (d = str "__proto__") then []
  else omap (λ term, field st term d) terms.

(** The terms of a query: its distinct non-noise normalised words. *)
Definition query_terms (st : DocFinder) (text : jsstring) : list jsstring :=
  Js.Set_from (wordsLow_of (noiseWords st) text).*1.

(** The stored occurrences, for a document, of the terms that match it. *)
Definition matched (st : DocFinder) (terms : list jsstring) (d : jsstring)
  : list occurrence :=
  omap (λ term, stored st term d) terms.

Definition sum_counts (l : list occurrence) : N := foldr (λ o s, o.1 + s) 0 l.

(** The [Result] built for a document from the occurrences collected for
    it. *)
Definition result_of (st : DocFinder) (entry : jsstring * list occurrence)
  : Result :=
  OffsetResult_result entry.1
    (PNumber (fold_left (λ acc wordInfo, acc + wordInfo.1) entry.2 0))
    (map snd entry.2)
    (default [] (contentsTable (db st) !! entry.1)).

(** Ranking of results with numeric scores: a higher score comes first;
    with equal scores, the name that the collation puts first (or level). *)
Definition ranked `{Collator} (a b : Result) : Prop :=
  ∃ sa sb, score a = PNumber sa ∧ score b = PNumber sb ∧
    (sb < sa ∨ (sa = sb ∧ (localeCompare (name a) (name b) <= 0)%Z)).

(** The ranking example: [d1] has "apple" three times, [d2] has "apple"
    once and "banana" five times. *)
Definition ranking_state : DocFinder :=
  (addContent (str "d2") (str "apple banana banana banana banana banana")
     (addContent (str "d1") (str "apple apple apple") (create empty_db)).2).2.

(** ** Excerpt lines *)

(** [i] is the start of the line of offset [o]: the index just after the
    last newline among the indices up to [o], or 0 when there is none.  (A
    first-occurrence offset holds a non-space character, so that newline
    precedes the offset.) *)
Definition line_start (contents : jsstring) (o i : nat) : Prop :=
  (i = 0%nat ∨ ∃ j, i = S j ∧ contents !! j = Some LF) ∧
  (i ≤ S o)%nat ∧
  (∀ k, (i ≤ k ≤ o)%nat → contents !! k ≠ Some LF).

(** [line] is the line that starts at [i]: the characters from [i] up to
    and including the next newline. *)
Definition line_at (contents : jsstring) (i : nat) (line : jsstring) : Prop :=
  ∃ body rest,
    drop i contents = body ++ LF :: rest ∧ (LF ∉ body) ∧ line = body ++ [LF].

(** The state of the backward search of [lastIndexOf] after the prefix [c]
    of the string. *)
Definition found_ok (c : jsstring) (from : nat) (found : Z) : Prop :=
  (found = (-1)%Z ∧ ∀ j, (j ≤ from)%nat → c !! j ≠ Some LF) ∨
  (∃ j, found = Z.of_nat j ∧ (j ≤ from)%nat ∧ c !! j = Some LF ∧
        ∀ j', (j < j' ≤ from)%nat → c !! j' ≠ Some LF).

(** The start computed by [result]: [contents.lastIndexOf('\n', o) + 1]. *)
Definition start_of (contents : jsstring) (o : N) : Z :=
  (Js.lastIndexOf_LF contents o + 1)%Z.

(** The excerpt example: one document with two lines. *)
Definition excerpt_text : jsstring :=
  str "alpha beta" ++ [LF] ++ str "gamma alpha" ++ [LF].

Definition excerpt_state : DocFinder :=
  (addContent (str "doc") excerpt_text (create empty_db)).2.

(** ** The index of a content *)

(** The pairs of a word in the output of [_wordsLow]. *)
Definition pairs_of (w : jsstring) (ws : list (jsstring * N)) : list (jsstring * N) :=
  List.filter (λ p, bool_decide (p.1 = w)) ws.

(** Count and first offset of a word in the output of [_wordsLow]. *)
Definition occurrence_of (w : jsstring) (ws : list (jsstring * N))
  : option occurrence :=
  match pairs_of w ws with
  | [] => None
  | p :: ps => Some (N.of_nat (length (p :: ps)), p.2)
  end.

(** The re-ingestion example: document [d], first with content "foo", then
    with content "bar". *)
Definition reingest_state : DocFinder :=
  (addContent (str "d") (str "bar")
     (addContent (str "d") (str "foo") (create empty_db)).2).2.

(** ** Footprint of the writes of [addContent] *)

(** A write of the ingestion of [name] under the words [ws]: the content of
    [name], an index field [name] of a word of [ws], or completion words
    taken from [ws]. *)
Definition write_of (name : jsstring) (ws : list jsstring) (x : write) : Prop :=
  match x with
  | WContents n _ => n = name
  | WWord word n _ => n = name ∧ word ∈ ws
  | WCompletion c l => ∀ w, w ∈ l → w ∈ ws ∧ char0 w = c
  end.

(** ** Examples of names that are paths *)

(** A document named ["a.txt"] ingested into an empty database. *)
Definition dotted_state : DocFinder :=
  (addContent (str "a.txt") (str "foo") (create empty_db)).2.

(** The same after a document named ["a"]. *)
Definition dotted_state_a : DocFinder :=
  (addContent (str "a.txt") (str "foo")
     (addContent (str "a") (str "x") (create empty_db)).2).2.


(** Three documents whose names make, in the document of the word "foo",
    an object under the field ["a"] whose property ["0"] is an object with
    arrays for [toString] and [valueOf]. *)
Definition unprintable_state : DocFinder :=
  (addContent (str "a.0.valueOf") (str "foo")
     (addContent (str "a.0.toString") (str "foo")
        (addContent (str "a") (str "x") (create empty_db)).2).2).2.

(** An outcome that is a return or a [TypeError]. *)
Definition type_error_only {A} (o : outcome A) : Prop :=
  match o with
  | Return _ => True
  | Throw e => e = TypeError
  end.

(** * Proofs *)

(** ** The tokenizer *)

Lemma token_start_cons_space c s n :
  Js.is_space c = true →
  token_start (c :: s) n ↔ ∃ n', n = S n' ∧ token_start s n'.
Proof.
  intros Hc. unfold token_start. split.
  - intros [(x & Hx & Hsx) Hprev]. destruct n as [|n'].
    + simpl in Hx. congruence.
    + exists n'. split; [done|]. split; [eauto|].
      destruct Hprev as [|(j & p & [= ->] & Hp & Hsp)]; [done|].
      destruct j as [|j']; [by left|right]. eauto.
  - intros (n' & -> & (x & Hx) & Hprev). split; [eauto|]. right.
    destruct Hprev as [->|(j & p & -> & Hp & Hsp)].
    + exists 0%nat, c. eauto.
    + exists (S j), p. eauto.
Qed.

Lemma token_start_cons_nonspace c s n :
  Js.is_space c = false →
  token_start (c :: s) n ↔
  n = 0%nat ∨ ∃ n', n = S n' ∧ (0 < n')%nat ∧ token_start s n'.
Proof.
  intros Hc. unfold token_start. split.
  - intros [(x & Hx & Hsx) Hprev]. destruct n as [|n']; [by left|right].
    exists n'. split; [done|].
    destruct Hprev as [|(j & p & [= ->] & Hp & Hsp)]; [done|].
    destruct j as [|j'].
    + simpl in Hp. congruence.
    + split; [lia|]. split; [eauto|]. right. eauto.
  - intros [->|(n' & -> & Hpos & (x & Hx) & Hprev)].
    + split; [|by left]. simpl. eauto.
    + split; [eauto|]. right.
      destruct Hprev as [->|(j & p & -> & Hp & Hsp)]; [lia|].
      exists (S j), p. eauto.
Qed.

Lemma exec_go_spec s :
  ∀ k,
    (∀ t j, In (t, j) (Js.exec_go s k None) ↔
       ∃ n, j = k + N.of_nat n ∧ token_start s n ∧ t = token_at s n) ∧
    (∀ tok i t j, In (t, j) (Js.exec_go s k (Some (tok, i))) ↔
       (t = tok ++ take_nonspace s ∧ j = i) ∨
       ∃ n, (0 < n)%nat ∧ j = k + N.of_nat n ∧ token_start s n ∧ t = token_at s n).
Proof.
  induction s as [|c s IH]; intros k.
  - split.
    + intros t j. simpl. split; [done|].
      intros (n & _ & [(x & Hx & _) _] & _). by rewrite lookup_nil in Hx.
    + intros tok i t j. simpl. rewrite app_nil_r. split.
      * intros [[= <- <-]|[]]. by left.
      * intros [[-> ->]|(n & _ & _ & [(x & Hx & _) _] & _)]; [by left|].
        by rewrite lookup_nil in Hx.
  - destruct (IH (k + 1)) as [IHn IHs]. split.
    + intros t j. simpl. destruct (Js.is_space c) eqn:Hc.
      * rewrite IHn. split.
        -- intros (n & -> & Hst & ->). exists (S n).
           split; [lia|]. split; [|done].
           apply token_start_cons_space; eauto.
        -- intros (n & -> & Hst & ->).
           apply token_start_cons_space in Hst; [|done].
           destruct Hst as (n' & -> & Hst).
           exists n'. split; [lia|done].
      * rewrite IHs. split.
        -- intros [[-> ->]|(n & Hpos & -> & Hst & ->)].
           ++ exists 0%nat. split; [lia|]. split.
              ** apply token_start_cons_nonspace; auto.
              ** unfold token_at. simpl. by rewrite Hc.
           ++ exists (S n). split; [lia|]. split; [|done].
              apply token_start_cons_nonspace; [done|]. right. eauto.
        -- intros (n & -> & Hst & ->).
           apply token_start_cons_nonspace in Hst; [|done].
           destruct Hst as [->|(n' & -> & Hpos & Hst)].
           ++ left. unfold token_at. simpl. rewrite Hc. split; [done|lia].
           ++ right. exists n'. split; [done|]. split; [lia|done].
    + intros tok i t j. simpl. destruct (Js.is_space c) eqn:Hc.
      * simpl. rewrite IHn, app_nil_r. split.
        -- intros [[= <- <-]|(n & -> & Hst & ->)]; [by left|right].
           exists (S n). split; [lia|]. split; [lia|]. split; [|done].
           apply token_start_cons_space; eauto.
        -- intros [[-> ->]|(n & Hpos & -> & Hst & ->)]; [by left|right].
           apply token_start_cons_space in Hst; [|done].
           destruct Hst as (n' & -> & Hst).
           exists n'. split; [lia|done].
      * rewrite IHs. rewrite <- app_assoc. simpl. split.
        -- intros [[-> ->]|(n & Hpos & -> & Hst & ->)]; [by left|right].
           exists (S n). split; [lia|]. split; [lia|]. split; [|done].
           apply token_start_cons_nonspace; [done|]. right. eauto.
        -- intros [[-> ->]|(n & Hpos & -> & Hst & ->)]; [by left|right].
           apply token_start_cons_nonspace in Hst; [|done].
           destruct Hst as [->|(n' & -> & Hpos' & Hst)]; [lia|].
           exists n'. split; [done|]. split; [lia|done].
Qed.

Lemma exec_all_spec content t j :
  In (t, j) (Js.exec_all content) ↔
  token_start content (N.to_nat j) ∧ t = token_at content (N.to_nat j).
Proof.
  unfold Js.exec_all. destruct (exec_go_spec content 0) as [-> _]. split.
  - intros (n & -> & Hst & ->). by rewrite N.add_0_l, Nat2N.id.
  - intros [Hst ->]. exists (N.to_nat j). by rewrite N.add_0_l, N2Nat.id.
Qed.

Lemma exec_go_sorted s :
  ∀ k run,
    (∀ tok i, run = Some (tok, i) → i < k) →
    StronglySorted N.lt (Js.exec_go s k run).*2 ∧
    Forall (λ j, match run with Some (_, i) => i <= j | None => k <= j end)
      (Js.exec_go s k run).*2.
Proof.
  induction s as [|c s IH]; intros k run Hrun.
  - destruct run as [[tok i]|]; simpl; repeat constructor. lia.
  - simpl. destruct (Js.is_space c).
    + destruct (IH (k + 1) None) as [Hs Hf]; [done|].
      destruct run as [[tok i]|]; simpl.
      * specialize (Hrun tok i eq_refl). split.
        -- constructor; [done|]. eapply Forall_impl; [exact Hf|]. simpl. lia.
        -- constructor; [lia|]. eapply Forall_impl; [exact Hf|]. simpl. lia.
      * split; [done|]. eapply Forall_impl; [exact Hf|]. simpl. lia.
    + destruct run as [[tok i]|].
      * specialize (Hrun tok i eq_refl).
        destruct (IH (k + 1) (Some (tok ++ [c], i))) as [Hs Hf]; [|done].
        intros ?? [= <- <-]. lia.
      * destruct (IH (k + 1) (Some ([c], k))) as [Hs Hf].
        { intros ?? [= <- <-]. lia. }
        split; [done|]. eapply Forall_impl; [exact Hf|]. simpl. lia.
Qed.

Lemma wordsLow_of_In noise content w i :
  In (w, i) (wordsLow_of noise content) ↔
  token_start content (N.to_nat i) ∧
  w = normalize (token_at content (N.to_nat i)) ∧ w ≠ [] ∧ w ∉ noise.
Proof.
  unfold wordsLow_of. rewrite in_flat_map. split.
  - intros ([t j] & Hin & Hw). simpl in Hw.
    apply exec_all_spec in Hin as [Hst ->].
    repeat case_bool_decide; simpl in Hw; try done.
    destruct Hw as [[= <- <-]|[]]. done.
  - intros (Hst & -> & Hne & Hnoise).
    exists (token_at content (N.to_nat i), i). split.
    + by apply exec_all_spec.
    + simpl. rewrite !bool_decide_eq_false_2 by done. simpl. by left.
Qed.

Lemma flat_map_option_sorted {A} (f : A * N → list (jsstring * N)) l :
  (∀ m x, In x (f m) → x.2 = m.2) →
  (∀ m, (length (f m) <= 1)%nat) →
  StronglySorted N.lt l.*2 →
  StronglySorted N.lt (List.flat_map f l).*2.
Proof.
  intros Hsnd Hlen. induction l as [|m l IH]; simpl; [constructor|].
  intros Hs. apply StronglySorted_cons in Hs as [Hall Hs].
  specialize (IH Hs).
  assert (Hrest : Forall (N.lt m.2) (List.flat_map f l).*2).
  { apply Forall_forall. intros j Hj.
    apply list_elem_of_fmap in Hj as (x & -> & Hx).
    apply list_elem_of_In, in_flat_map in Hx as (m' & Hm' & Hx).
    rewrite (Hsnd _ _ Hx). rewrite Forall_forall in Hall. apply Hall.
    apply list_elem_of_fmap. exists m'. split; [done|]. by apply list_elem_of_In. }
  specialize (Hlen m). specialize (Hsnd m).
  destruct (f m) as [|x [|y r]]; simpl in *; [done| |lia].
  constructor; [done|]. rewrite (Hsnd x) by auto. done.
Qed.

Lemma wordsLow_of_sorted noise content :
  StronglySorted N.lt (wordsLow_of noise content).*2.
Proof.
  unfold wordsLow_of. apply flat_map_option_sorted.
  - intros m x. simpl. case_match; simpl; [|done]. by intros [<-|[]].
  - intros m. case_match; simpl; lia.
  - unfold Js.exec_all. by apply exec_go_sorted.
Qed.

(** ** Normalisation *)

Lemma startsWith_prefix s p : Js.startsWith s p = true ↔ p `prefix_of` s.
Proof.
  revert s. induction p as [|b p IH]; intros s; simpl.
  - split; [intros _; apply prefix_nil|done].
  - destruct s as [|a s].
    + split; [done|]. intros Hp. by apply prefix_nil_inv in Hp.
    + case_decide as Hab.
      * subst. rewrite IH. split; [apply prefix_cons|apply prefix_cons_inv_2].
      * split; [done|]. intros Hp. apply prefix_cons_inv_1 in Hp. congruence.
Qed.

Lemma endsWith_suffix s p : Js.endsWith s p = true ↔ p `suffix_of` s.
Proof.
  unfold Js.endsWith. rewrite startsWith_prefix. symmetry.
  apply suffix_prefix_reverse.
Qed.

Lemma stem_possessive u : stem (u ++ str "'s") = u.
Proof.
  unfold stem.
  assert (Js.endsWith (u ++ str "'s") (str "'s") = true) as ->.
  { apply endsWith_suffix. by apply suffix_app_r. }
  rewrite length_app. simpl. replace (length u + 2 - 2)%nat with (length u) by lia.
  by rewrite take_app_length.
Qed.

Lemma stem_other word : ¬ (str "'s" `suffix_of` word) → stem word = word.
Proof.
  intros Hn. unfold stem. destruct (Js.endsWith word (str "'s")) eqn:He; [|done].
  by apply endsWith_suffix in He.
Qed.

Lemma normalize_az token : Forall (λ c, Js.is_az c = true) (normalize token).
Proof.
  unfold normalize. apply Forall_forall. intros c Hc.
  apply list_elem_of_In, filter_In in Hc. tauto.
Qed.

Lemma wordsLow_of_word noise content w i :
  In (w, i) (wordsLow_of noise content) → is_word w ∧ w ∉ noise.
Proof.
  intros (_ & -> & Hne & Hnoise)%wordsLow_of_In.
  split; [|done]. split; [done|apply normalize_az].
Qed.

(** C7. [normalize] lowercases the token, strips a trailing ['s] and only
    then removes every character outside [a-z] (so the suffix is stripped
    before the apostrophe would be removed); [_wordsLow] yields exactly the
    pairs (normalised word, start index of the raw token) of the tokens whose
    normalised word is non-empty and not a noise word, in document order
    (strictly increasing start indices). *)
Theorem normalize_and_wordsLow_spec :
  (∀ token u, Js.toLowerCase token = u ++ str "'s" →
     normalize token = List.filter Js.is_az u) ∧
  (∀ token, ¬ (str "'s" `suffix_of` Js.toLowerCase token) →
     normalize token = List.filter Js.is_az (Js.toLowerCase token)) ∧
  (∀ token, Forall (λ c, Js.is_az c = true) (normalize token)) ∧
  (∀ noise content w i,
     In (w, i) (wordsLow_of noise content) ↔
     token_start content (N.to_nat i) ∧
     w = normalize (token_at content (N.to_nat i)) ∧ w ≠ [] ∧ w ∉ noise) ∧
  (∀ noise content, StronglySorted N.lt (wordsLow_of noise content).*2) ∧
  (∀ content st,
     _wordsLow content st = (Return (wordsLow_of (noiseWords st) content), st)).
Proof.
  split; [|split; [|split; [|split; [|split]]]].
  - intros token u Hu. unfold normalize. by rewrite Hu, stem_possessive.
  - intros token Hn. unfold normalize. by rewrite stem_other.
  - apply normalize_az.
  - apply wordsLow_of_In.
  - apply wordsLow_of_sorted.
  - done.
Qed.

Lemma normalize_and_wordsLow_spec_witness :
  normalize (str "It's") = str "it" ∧
  normalize (str "Bob's!") = str "bobs" ∧
  In (str "bobs", 4) (wordsLow_of {[str "the"]} (str "The Bob's! it's")).
Proof.
  destruct normalize_and_wordsLow_spec as (Hposs & Hother & _ & Hin & _).
  split; [|split].
  - apply (Hposs (str "It's") (str "it")). reflexivity.
  - rewrite (Hother (str "Bob's!")); [reflexivity|].
    intros Hs. apply endsWith_suffix in Hs. vm_compute in Hs. discriminate.
  - apply Hin. split; [|split; [|split]].
    + split.
      * exists "B"%char. split; reflexivity.
      * right. exists 3%nat, " "%char. repeat split.
    + reflexivity.
    + discriminate.
    + intros Hn. apply elem_of_singleton in Hn. discriminate.
Defined.

Lemma bind_unfold {A B} (m : async A) (k : A → async B) st :
  (m ≫= k) st =
  match m st with
  | (Return a, st') => k a st'
  | (Throw e, st') => (Throw e, st')
  end.
Proof. reflexivity. Qed.

(** *** Keyed containers *)

Lemma assoc_set_keys {V} (o : list (jsstring * V)) k v :
  (Js.assoc_set o k v).*1 = if decide (k ∈ o.*1) then o.*1 else o.*1 ++ [k].
Proof.
  induction o as [|[k' w] o IH]; csimpl.
  - done.
  - destruct (decide (k' = k)) as [->|Hne]; csimpl.
    + by rewrite decide_True by apply list_elem_of_here.
    + rewrite IH. destruct (decide (k ∈ o.*1)) as [Hin|Hnin].
      * by rewrite decide_True by by apply list_elem_of_further.
      * rewrite decide_False; [done|].
        intros [?|?]%elem_of_cons; congruence.
Qed.

Lemma assoc_set_NoDup {V} (o : list (jsstring * V)) k v :
  NoDup o.*1 → NoDup (Js.assoc_set o k v).*1.
Proof.
  intros Hnd. rewrite assoc_set_keys. case_decide; [done|].
  apply NoDup_app. split; [done|]. split; [|apply NoDup_singleton].
  intros x Hx ->%list_elem_of_singleton. done.
Qed.

Lemma assoc_get_set {V} (o : list (jsstring * V)) k v k' :
  Js.assoc_get (Js.assoc_set o k v) k' =
  if decide (k = k') then Some v else Js.assoc_get o k'.
Proof.
  induction o as [|[k0 w] o IH]; simpl.
  - by destruct (decide (k = k')).
  - destruct (decide (k0 = k)) as [->|Hne]; simpl.
    + by destruct (decide (k = k')).
    + destruct (decide (k0 = k')) as [->|Hne'].
      * by rewrite decide_False by congruence.
      * apply IH.
Qed.

Lemma assoc_get_Some_In {V} (o : list (jsstring * V)) k v :
  Js.assoc_get o k = Some v → (k, v) ∈ o.
Proof.
  induction o as [|[k0 w] o IH]; simpl; [done|].
  case_decide; [intros [= ->]; subst; left|intros ?; right; auto].
Qed.

Lemma assoc_get_In {V} (o : list (jsstring * V)) k v :
  NoDup o.*1 → (k, v) ∈ o ↔ Js.assoc_get o k = Some v.
Proof.
  intros Hnd. split; [|apply assoc_get_Some_In].
  induction o as [|[k0 w] o IH]; simpl; [by intros ?%elem_of_nil|].
  apply NoDup_cons in Hnd as [Hk0 Hnd].
  intros [[= <- <-]|Hin]%elem_of_cons.
  - by rewrite decide_True.
  - rewrite decide_False; [auto|]. intros ->. apply Hk0.
    apply list_elem_of_fmap. by exists (k, v).
Qed.

Lemma assoc_get_None {V} (o : list (jsstring * V)) k :
  Js.assoc_get o k = None ↔ k ∉ o.*1.
Proof.
  induction o as [|[k0 w] o IH]; simpl.
  - split; [intros _; apply not_elem_of_nil|done].
  - case_decide as Hk.
    + subst. split; [done|]. intros []. left.
    + rewrite IH, not_elem_of_cons. intuition congruence.
Qed.

Lemma assoc_set_idem {V} (o : list (jsstring * V)) k v :
  Js.assoc_set (Js.assoc_set o k v) k v = Js.assoc_set o k v.
Proof.
  induction o as [|[k0 w] o IH]; simpl.
  - by rewrite decide_True.
  - destruct (decide (k0 = k)) as [->|Hne]; simpl.
    + by rewrite decide_True.
    + rewrite decide_False by done. by rewrite IH.
Qed.

Lemma filter_split_perm {A} (p : A → bool) (l : list A) :
  List.filter p l ++ List.filter (λ x, negb (p x)) l ≡ₚ l.
Proof.
  induction l as [|x l IH]; simpl; [done|].
  destruct (p x); simpl.
  - by rewrite IH.
  - by rewrite <- Permutation_middle, IH.
Qed.

Lemma Object_entries_perm {V} (o : list (jsstring * V)) :
  Js.Object_entries o ≡ₚ o.
Proof.
  unfold Js.Object_entries. rewrite merge_sort_Permutation.
  apply filter_split_perm.
Qed.

Lemma Object_entries_NoDup {V} (o : list (jsstring * V)) :
  NoDup o.*1 → NoDup (Js.Object_entries o).*1.
Proof. intros Hnd. by rewrite Object_entries_perm. Qed.

Lemma Object_entries_elem_of {V} (o : list (jsstring * V)) kv :
  kv ∈ Js.Object_entries o ↔ kv ∈ o.
Proof. by rewrite Object_entries_perm. Qed.


(** *** The [$set] of a path *)

Lemma split_dot_plain name cur :
  "."%char ∉ name → split_dot name cur = [cur ++ name].
Proof.
  revert cur. induction name as [|c name IH]; intros cur Hdot; cbn.
  - by rewrite app_nil_r.
  - apply not_elem_of_cons in Hdot as [Hc Hdot].
    rewrite bool_decide_eq_false_2 by done.
    rewrite IH by done. by rewrite <- app_assoc.
Qed.

Lemma split_dot_cons name cur : ∃ k rest, split_dot name cur = k :: rest.
Proof.
  revert cur. induction name as [|c name IH]; intros cur; cbn; [eauto|].
  case_bool_decide; eauto.
Qed.

Lemma field_name_spec name :
  field_name name = true ↔
  name ≠ [] ∧ name ≠ str "_id" ∧ ("."%char ∉ name) ∧ ("000"%char ∉ name) ∧
  Js.startsWith name (str "$") = false ∧
  name ≠ str "toBSON" ∧ name ≠ str "_bsontype".
Proof.
  unfold field_name. rewrite !andb_true_iff, !negb_true_iff.
  rewrite !bool_decide_eq_false. tauto.
Qed.

Lemma field_name_not_id name : field_name name = true → name ≠ str "_id".
Proof. rewrite field_name_spec. tauto. Qed.

(** Under a plain field name [$set] stores at the top level of the
    document and is never refused. *)
Lemma words_set_plain fields name v :
  field_name name = true →
  words_set fields name v = Return (Js.assoc_set fields name v).
Proof.
  rewrite field_name_spec. intros (Hne & Hid & Hdot & Hnul & Hdollar & _).
  unfold words_set, path_components. rewrite (split_dot_plain _ _ Hdot).
  cbn [app]. rewrite (bool_decide_eq_false_2 _ Hnul).
  rewrite bool_decide_eq_false_2
    by (intros Hin; apply list_elem_of_singleton in Hin; done).
  cbn [existsb]. rewrite Hdollar. cbn [andb orb].
  rewrite bool_decide_eq_false_2 by (cbn [head]; congruence).
  cbn [set_path].
  assert (all_elements name = false) as ->.
  { apply bool_decide_eq_false. intros ->. discriminate. }
  destruct (Js.assoc_get fields name); cbn; [done|].
  by rewrite bool_decide_eq_false_2 by apply not_elem_of_nil.
Qed.

(** An accepted [$set] changes or adds one field at the top level, that of
    the first component of the path. *)
Lemma set_path_doc k rest v fs x :
  set_path (k :: rest) v (VDoc fs) = Return x →
  ∃ c, x = VDoc (Js.assoc_set fs k c).
Proof.
  cbn [set_path]. destruct (all_elements k); [done|].
  destruct (Js.assoc_get fs k) as [child|].
  - destruct (set_path rest v child) as [c'|e]; cbn; [|done].
    intros [= <-]. eauto.
  - case_bool_decide; [done|]. intros [= <-]. eauto.
Qed.

Lemma words_set_top fields name v fields' :
  words_set fields name v = Return fields' →
  ∃ k c, k ≠ str "_id" ∧ fields' = Js.assoc_set fields k c.
Proof.
  unfold words_set, path_components.
  destruct (split_dot_cons name []) as (k & rest & ->).
  repeat (case_bool_decide || case_match); try done.
  all: destruct (set_path (k :: rest) v (VDoc fields)) as [x|e] eqn:Hset;
    cbn; [|done]; intros [= <-];
    apply set_path_doc in Hset as [c ->]; exists k, c;
    split; [cbn in *; congruence|done].
Qed.

Lemma words_set_keys fields name v fields' :
  words_set fields name v = Return fields' →
  NoDup fields.*1 ∧ str "_id" ∉ fields.*1 →
  NoDup fields'.*1 ∧ str "_id" ∉ fields'.*1.
Proof.
  intros (k & c & Hk & ->)%words_set_top [Hnd Hid]. split.
  - by apply assoc_set_NoDup.
  - rewrite assoc_set_keys. case_decide; [done|].
    rewrite elem_of_app, list_elem_of_singleton. intros [?|?]; congruence.
Qed.

Lemma set_path_create rest v :
  str "$[]" ∉ rest →
  set_path rest v (create_path rest v) = Return (create_path rest v).
Proof.
  induction rest as [|k rest IH]; intros Hno; [done|].
  apply not_elem_of_cons in Hno as [Hk Hno].
  cbn [create_path set_path].
  assert (all_elements k = false) as ->.
  { apply bool_decide_eq_false. congruence. }
  cbn [Js.assoc_get]. rewrite decide_True by done.
  rewrite (IH Hno). cbn. by rewrite decide_True.
Qed.

Lemma map_outcome_idem {A} (f : A → outcome A) l l' :
  (∀ a b, f a = Return b → f b = Return b) →
  map_outcome f l = Return l' → map_outcome f l' = Return l'.
Proof.
  intros Hf. revert l'. induction l as [|a l IH]; intros l'; cbn.
  - by intros [= <-].
  - destruct (f a) as [b|e] eqn:Hfa; cbn; [|done].
    destruct (map_outcome f l) as [bs|e]; cbn; [|done].
    intros [= <-]. cbn. rewrite (Hf _ _ Hfa). cbn.
    by rewrite (IH bs eq_refl).
Qed.

(** A [$set] that was accepted is accepted again and changes nothing. *)
Lemma set_path_idem comps v x x' :
  set_path comps v x = Return x' → set_path comps v x' = Return x'.
Proof.
  revert x x'. induction comps as [|k rest IH]; intros x x' Hx; [done|].
  cbn [set_path] in Hx. destruct x as [n| |l|fs]; [done|done| |].
  - destruct (all_elements k) eqn:Hall.
    + destruct (map_outcome (set_path rest v) l) as [l'|e] eqn:Hmap; [|done].
      injection Hx as <-. cbn [set_path]. rewrite Hall.
      by rewrite (map_outcome_idem _ _ _ (IH) Hmap).
    + destruct (path_index k) as [i|] eqn:Hidx; [|done].
      destruct (l !! N.to_nat i) as [child|] eqn:Hl.
      * destruct (set_path rest v child) as [c'|e] eqn:Hset; [|done].
        injection Hx as <-. cbn [set_path]. rewrite Hall, Hidx.
        rewrite list_lookup_insert_eq by (by eapply lookup_lt_Some).
        rewrite (IH _ _ Hset). cbn. by rewrite list_insert_insert_eq.
      * case_match; [done|]. case_bool_decide as Hno; [done|].
        injection Hx as <-. cbn [set_path]. rewrite Hall, Hidx.
        apply lookup_ge_None in Hl.
        assert (Hat : (l ++ replicate (N.to_nat i - length l) VNull
                         ++ [create_path rest v]) !! N.to_nat i
                      = Some (create_path rest v)).
        { rewrite lookup_app_r by done.
          rewrite lookup_app_r by (rewrite length_replicate; lia).
          rewrite length_replicate. by rewrite Nat.sub_diag. }
        rewrite Hat. rewrite (set_path_create _ _ Hno). cbn.
        by rewrite list_insert_id.
  - destruct (all_elements k) eqn:Hall; [done|].
    destruct (Js.assoc_get fs k) as [child|] eqn:Hget.
    + destruct (set_path rest v child) as [c'|e] eqn:Hset; [|done].
      injection Hx as <-. cbn [set_path]. rewrite Hall.
      rewrite assoc_get_set, decide_True by done.
      rewrite (IH _ _ Hset). cbn. by rewrite assoc_set_idem.
    + case_bool_decide as Hno; [done|]. injection Hx as <-.
      cbn [set_path]. rewrite Hall.
      rewrite assoc_get_set, decide_True by done.
      rewrite (set_path_create _ _ Hno). cbn. by rewrite assoc_set_idem.
Qed.

Lemma words_set_idem fields name v fields' :
  words_set fields name v = Return fields' →
  words_set fields' name v = Return fields'.
Proof.
  unfold words_set, path_components.
  destruct (split_dot_cons name []) as (k & rest & ->).
  destruct (bool_decide ("000"%char ∈ name)); [done|].
  destruct (bool_decide ([] ∈ k :: rest)); [done|].
  destruct (existsb _ (k :: rest)); [done|].
  destruct (bool_decide (head (k :: rest) = Some (str "_id"))); [done|].
  destruct (set_path (k :: rest) v (VDoc fields)) as [x|e] eqn:Hset; [|done].
  intros Hx. pose proof (set_path_idem _ _ _ _ Hset) as Hidem.
  apply set_path_doc in Hset as [c ->]. injection Hx as <-.
  by rewrite Hidem.
Qed.


(** *** [addContent] as a list of writes *)

Lemma run_writes_app ws1 ws2 st :
  run_writes (ws1 ++ ws2) st = run_writes ws2 (run_writes ws1 st).
Proof. apply fold_left_app. Qed.

Lemma run_writes_cons x xs st :
  run_writes (x :: xs) st = run_writes xs (run_write x st).
Proof. done. Qed.

(** A write of a word leaves the documents of the other words as they
    are. *)
Lemma run_write_word_other word name occ st w :
  w ≠ word →
  wordsTable (db (run_write (WWord word name occ) st)) !! w =
  wordsTable (db st) !! w.
Proof.
  intros Hne. cbn. destruct (words_set _ _ _); [|done].
  by rewrite lookup_insert_ne.
Qed.

Lemma words_updateOne_set_run word name wordInfo st :
  words_updateOne_set word name wordInfo st =
  if bool_decide ("000"%char ∈ name) then (Throw DriverError, st)
  else
    match wordInfo with
    | ObjectFunction => (Throw MongoError, st)
    | WordInfo count offset =>
        match words_set (default [] (wordsTable (db st) !! word)) name
                (pair_value (count, offset)) with
        | Return _ => (Return tt, run_write (WWord word name (count, offset)) st)
        | Throw e => (Throw e, st)
        end
    end.
Proof.
  unfold words_updateOne_set. case_bool_decide; [done|].
  destruct wordInfo as [count offset|]; [|done].
  rewrite bind_unfold. cbn [gets run_write].
  destruct (words_set _ name _) as [doc'|e] eqn:Hset; [|done].
  unfold modify, set_words. cbn. by rewrite Hset.
Qed.

Lemma saveWords_writes_eq name entries t st :
  NoDup entries.*1 →
  (∀ w, w ∈ entries.*1 → wordsTable (db st) !! w = t !! w) →
  for_of entries (λ '(word, wordInfo), words_updateOne_set word name wordInfo) st =
  (match (saveWords_writes t name entries).2 with
   | None => Return tt
   | Some e => Throw e
   end,
   run_writes (saveWords_writes t name entries).1 st).
Proof.
  revert st. induction entries as [|[word wordInfo] rest IH]; intros st Hnd Hagree;
    [done|].
  rewrite fmap_cons, NoDup_cons in Hnd. destruct Hnd as [Hword Hnd].
  cbn [for_of saveWords_writes]. rewrite bind_unfold, words_updateOne_set_run.
  destruct (bool_decide ("000"%char ∈ name)); [done|].
  destruct wordInfo as [count offset|]; [|done].
  rewrite (Hagree word) by left.
  destruct (words_set (default [] (t !! word)) name (pair_value (count, offset)))
    as [doc'|e] eqn:Hset; [|done].
  rewrite IH; [|done|].
  - destruct (saveWords_writes t name rest) as [ws e]. cbn [fst snd].
    by rewrite run_writes_cons.
  - intros w Hw. rewrite run_write_word_other.
    + apply Hagree. by right.
    + intros ->. done.
Qed.

Lemma updateCompletions_eq words st :
  _updateCompletions words st = (Return tt, run_writes (completion_writes words) st).
Proof.
  unfold _updateCompletions, completion_writes.
  generalize (_makeCompletions words). intros completions.
  generalize (completions.*1). intros keys. revert st.
  induction keys as [|c keys IH]; intros st; [done|].
  simpl. rewrite !bind_unfold. simpl. by rewrite IH.
Qed.

Lemma makeIndex_step_NoDup index pair :
  NoDup index.*1 → NoDup (makeIndex_step index pair).*1.
Proof. destruct pair as [word offset]. apply assoc_set_NoDup. Qed.

Lemma make_index_NoDup noise contentText :
  NoDup (make_index noise contentText).*1.
Proof.
  unfold make_index. generalize (wordsLow_of noise contentText). intros l.
  assert (Hnil : NoDup ([] : list (jsstring * indexValue)).*1) by constructor.
  revert Hnil. generalize ([] : list (jsstring * indexValue)).
  induction l as [|p l IH]; intros index Hnd; [done|].
  cbn. apply IH. by apply makeIndex_step_NoDup.
Qed.

Lemma addContent_eq name contentText st :
  addContent name contentText st =
  (addContent_outcome (wordsTable (db st)) (noiseWords st) name contentText,
   run_writes (addContent_writes (wordsTable (db st)) (noiseWords st) name contentText) st).
Proof.
  unfold addContent, addContent_outcome, addContent_writes.
  fold (stored_text contentText).
  rewrite bind_unfold. simpl.
  rewrite bind_unfold. simpl. fold (make_index (noiseWords st) (stored_text contentText)).
  rewrite bind_unfold. unfold _saveWords.
  rewrite (saveWords_writes_eq _ _ (wordsTable (db st)));
    [|apply Object_entries_NoDup, make_index_NoDup|done].
  destruct (saveWords_writes _ name _) as [ws [e|]] eqn:Hws; simpl.
  - by rewrite app_nil_r.
  - rewrite updateCompletions_eq. by rewrite run_writes_app.
Qed.

Lemma run_write_noiseWords w st :
  noiseWords (run_write w st) = noiseWords st ∧
  noiseTable (db (run_write w st)) = noiseTable (db st).
Proof. by destruct w. Qed.

Lemma run_writes_noiseWords ws st :
  noiseWords (run_writes ws st) = noiseWords st ∧
  noiseTable (db (run_writes ws st)) = noiseTable (db st).
Proof.
  revert st. induction ws as [|w ws IH]; intros st; [done|].
  simpl. destruct (IH (run_write w st)) as [-> ->]. apply run_write_noiseWords.
Qed.

Lemma Set_add_elem_of {A} `{EqDecision A} (s : list A) x y :
  y ∈ Js.Set_add s x ↔ y ∈ s ∨ y = x.
Proof.
  unfold Js.Set_add. case_decide.
  - split; [auto|]. intros [?| ->]; done.
  - rewrite elem_of_app, list_elem_of_singleton. done.
Qed.

Lemma Set_add_NoDup {A} `{EqDecision A} (s : list A) x :
  NoDup s → NoDup (Js.Set_add s x).
Proof.
  intros Hnd. unfold Js.Set_add. case_decide; [done|].
  apply NoDup_app. split; [done|]. split; [|apply NoDup_singleton].
  intros y Hy ->%list_elem_of_singleton. done.
Qed.

Lemma fold_Set_add_spec {A} `{EqDecision A} (l s : list A) :
  NoDup s →
  NoDup (fold_left Js.Set_add l s) ∧
  ∀ y, y ∈ fold_left Js.Set_add l s ↔ y ∈ s ∨ y ∈ l.
Proof.
  revert s. induction l as [|x l IH]; intros s Hnd; simpl.
  - split; [done|]. intros y. rewrite elem_of_nil. tauto.
  - destruct (IH (Js.Set_add s x)) as [Hnd' Hin]; [by apply Set_add_NoDup|].
    split; [done|]. intros y. rewrite Hin, Set_add_elem_of, elem_of_cons. tauto.
Qed.

Lemma Set_from_NoDup {A} `{EqDecision A} (l : list A) : NoDup (Js.Set_from l).
Proof. apply fold_Set_add_spec. constructor. Qed.

Lemma Set_from_elem_of {A} `{EqDecision A} (l : list A) y :
  y ∈ Js.Set_from l ↔ y ∈ l.
Proof.
  unfold Js.Set_from.
  destruct (fold_Set_add_spec l []) as [_ ->]; [constructor|].
  rewrite elem_of_nil. tauto.
Qed.

Lemma fold_Set_add_absorb {A} `{EqDecision A} (l s : list A) :
  (∀ x, x ∈ l → x ∈ s) → fold_left Js.Set_add l s = s.
Proof.
  revert s. induction l as [|x l IH]; intros s Hsub; [done|].
  simpl. unfold Js.Set_add at 2. rewrite decide_True.
  - apply IH. intros y Hy. apply Hsub. by right.
  - apply Hsub. left.
Qed.

Lemma fold_Set_add_NoDup_id {A} `{EqDecision A} (l s : list A) :
  NoDup (s ++ l) → fold_left Js.Set_add l s = s ++ l.
Proof.
  revert s. induction l as [|x l IH]; intros s Hnd; simpl.
  - by rewrite app_nil_r.
  - unfold Js.Set_add at 2. rewrite decide_False.
    + rewrite IH; rewrite <- app_assoc; done.
    + apply NoDup_app in Hnd as (_ & Hdisj & _). intros Hx.
      apply (Hdisj x Hx). left.
Qed.

(** [new Set(l.concat(new Set(l.concat(p))))] has the elements, in the
    order, of [new Set(l.concat(p))]. *)
Lemma Set_from_app_idem {A} `{EqDecision A} (l p : list A) :
  Js.Set_from (l ++ Js.Set_from (l ++ p)) = Js.Set_from (l ++ p).
Proof.
  unfold Js.Set_from at 1. rewrite fold_left_app.
  fold (Js.Set_from l).
  assert (Hsplit : ∃ r, Js.Set_from (l ++ p) = Js.Set_from l ++ r) .
  { unfold Js.Set_from. rewrite fold_left_app. generalize (fold_left Js.Set_add l []).
    induction p as [|x p IH]; intros s; simpl.
    - exists []. by rewrite app_nil_r.
    - destruct (IH (Js.Set_add s x)) as [r ->]. unfold Js.Set_add.
      case_decide; [by exists r|]. exists (x :: r). by rewrite <- app_assoc. }
  destruct Hsplit as [r Hr]. rewrite Hr.
  rewrite fold_left_app.
  rewrite (fold_Set_add_absorb (Js.Set_from l) (Js.Set_from l)) by done.
  apply fold_Set_add_NoDup_id. rewrite <- Hr. apply Set_from_NoDup.
Qed.

(** *** Writes are idempotent and commute on different keys *)

Lemma run_write_idem w st : run_write w (run_write w st) = run_write w st.
Proof.
  destruct st as [[cm ct nt wt] nw]. destruct w as [n c|wd n o|c ws];
    unfold run_write, set_contents, set_words, set_completions; cbn;
    do 2 f_equal.
  - apply insert_insert_eq.
  - destruct (words_set (default [] (wt !! wd)) n (pair_value o))
      as [doc'|e] eqn:Hset.
    + rewrite lookup_insert_eq. cbn. rewrite (words_set_idem _ _ _ _ Hset).
      apply insert_insert_eq.
    + by rewrite Hset.
  - rewrite lookup_insert_eq. cbn. rewrite Set_from_app_idem.
    apply insert_insert_eq.
Qed.

Lemma run_write_comm a b st :
  write_key a ≠ write_key b →
  run_write a (run_write b st) = run_write b (run_write a st).
Proof.
  destruct st as [[cm ct nt wt] nw].
  destruct a as [n1 c1|w1 n1 o1|k1 l1], b as [n2 c2|w2 n2 o2|k2 l2];
    cbn; intros Hne; try reflexivity;
    unfold set_contents, set_words, set_completions; cbn; do 2 f_equal.
  - apply insert_insert_ne. congruence.
  - assert (Hw : w1 ≠ w2) by congruence.
    destruct (words_set (default [] (wt !! w2)) n2 (pair_value o2)) as [d2|e2] eqn:H2;
      destruct (words_set (default [] (wt !! w1)) n1 (pair_value o1)) as [d1|e1] eqn:H1.
    all: rewrite ?lookup_insert_ne by congruence; rewrite ?H1, ?H2;
      rewrite ?lookup_insert_ne by congruence; rewrite ?H1, ?H2; try done.
    apply insert_insert_ne. congruence.
  - rewrite !lookup_insert_ne by congruence.
    apply insert_insert_ne. congruence.
Qed.

Lemma run_writes_comm a ws st :
  write_key a ∉ write_key <$> ws →
  run_write a (run_writes ws st) = run_writes ws (run_write a st).
Proof.
  revert st. induction ws as [|b ws IH]; intros st Hnin; [done|].
  rewrite fmap_cons, not_elem_of_cons in Hnin. destruct Hnin as [Hab Hnin].
  cbn. rewrite IH by done. f_equal. by apply run_write_comm.
Qed.

Lemma run_writes_idem ws st :
  NoDup (write_key <$> ws) →
  run_writes ws (run_writes ws st) = run_writes ws st.
Proof.
  revert st. induction ws as [|a ws IH]; intros st Hnd; [done|].
  rewrite fmap_cons, NoDup_cons in Hnd. destruct Hnd as [Ha Hnd].
  cbn. fold (run_writes ws (run_write a st)).
  rewrite run_writes_comm by done.
  fold (run_writes ws (run_write a (run_write a st))).
  rewrite run_write_idem. by apply IH.
Qed.

Lemma saveWords_writes_keys t name entries :
  NoDup entries.*1 →
  NoDup (write_key <$> (saveWords_writes t name entries).1) ∧
  ∀ k, k ∈ write_key <$> (saveWords_writes t name entries).1 →
       ∃ word, k = (1%nat, word) ∧ word ∈ entries.*1.
Proof.
  induction entries as [|[word wordInfo] rest IH]; intros Hnd.
  - split; [constructor|]. by intros k ?%elem_of_nil.
  - rewrite fmap_cons, NoDup_cons in Hnd. destruct Hnd as [Hw Hnd].
    destruct (IH Hnd) as [IHnd IHk]. cbn [saveWords_writes].
    assert (Hnil : NoDup (write_key <$> ([] : list write)) ∧
              ∀ k, k ∈ write_key <$> ([] : list write) →
                   ∃ word0, k = (1%nat, word0) ∧ word0 ∈ ((word, wordInfo) :: rest).*1).
    { split; [constructor|]. by intros k ?%elem_of_nil. }
    destruct (bool_decide ("000"%char ∈ name)); [done|].
    destruct wordInfo as [count offset|]; [|done].
    destruct (words_set _ name _); [|done].
    destruct (saveWords_writes t name rest) as [ws e]. cbn in *. split.
    + apply NoDup_cons. split; [|done]. intros Hin.
      destruct (IHk _ Hin) as (w' & [= <-] & Hin'). done.
    + intros k [->|Hk]%elem_of_cons.
      * exists word. split; [done|left].
      * destruct (IHk _ Hk) as (w' & -> & Hin'). exists w'. split; [done|by right].
Qed.

Lemma makeCompletions_NoDup words : NoDup (_makeCompletions words).*1.
Proof.
  unfold _makeCompletions.
  assert (Hnil : NoDup ([] : list (jsstring * list jsstring)).*1) by constructor.
  revert Hnil. generalize ([] : list (jsstring * list jsstring)).
  induction words as [|w words IH]; intros m Hnd; [done|].
  cbn. apply IH. unfold makeCompletions_step. apply assoc_set_NoDup.
  case_match; [done|]. by apply assoc_set_NoDup.
Qed.

Lemma completion_writes_keys words :
  write_key <$> completion_writes words =
  (λ c, (2%nat, c)) <$> (_makeCompletions words).*1.
Proof.
  unfold completion_writes. cbn. rewrite <- list_fmap_compose.
  by apply list_fmap_ext.
Qed.

Lemma addContent_writes_NoDup t noise name contentText :
  NoDup (write_key <$> addContent_writes t noise name contentText).
Proof.
  unfold addContent_writes.
  pose proof (saveWords_writes_keys t name
    (Js.Object_entries (make_index noise (stored_text contentText)))
    (Object_entries_NoDup _ (make_index_NoDup _ _))) as [Hnd Hk].
  destruct (saveWords_writes t name _) as [ws e]. cbn in Hnd, Hk.
  rewrite fmap_cons, fmap_app. apply NoDup_cons. split.
  - intros [Hin|Hin]%elem_of_app.
    + by destruct (Hk _ Hin) as (w & [=] & _).
    + destruct e; [by apply elem_of_nil in Hin|].
      rewrite completion_writes_keys in Hin.
      by apply list_elem_of_fmap in Hin as (c & [=] & _).
  - apply NoDup_app. split; [done|]. split.
    + intros k Hin Hin'. destruct (Hk _ Hin) as (w & -> & _).
      destruct e; [by apply elem_of_nil in Hin'|].
      rewrite completion_writes_keys in Hin'.
      by apply list_elem_of_fmap in Hin' as (c & [=] & _).
    + destruct e; [constructor|]. rewrite completion_writes_keys.
      apply NoDup_fmap; [by intros ?? [=]|]. apply makeCompletions_NoDup.
Qed.

(** The documents of words that no write of a list touches. *)
Lemma run_writes_word_other xs st w :
  (1%nat, w) ∉ write_key <$> xs →
  wordsTable (db (run_writes xs st)) !! w = wordsTable (db st) !! w.
Proof.
  revert st. induction xs as [|x xs IH]; intros st Hnin; [done|].
  rewrite fmap_cons, not_elem_of_cons in Hnin. destruct Hnin as [Hx Hnin].
  rewrite run_writes_cons, IH by done.
  destruct x as [n c|word n o|c l]; [done| |done].
  apply run_write_word_other. cbn in Hx. congruence.
Qed.

(** After its writes, [_saveWords] makes the same writes and ends in the
    same way: a write that was accepted is accepted again, and the refused
    one meets the same document. *)
Lemma saveWords_writes_stable t name entries t' st :
  NoDup entries.*1 →
  wordsTable (db st) = t →
  (∀ w, w ∈ entries.*1 →
     t' !! w = wordsTable (db (run_writes (saveWords_writes t name entries).1 st)) !! w) →
  saveWords_writes t' name entries = saveWords_writes t name entries.
Proof.
  revert st t. induction entries as [|[word wordInfo] rest IH];
    intros st t Hnd Ht Hagree; [done|].
  rewrite fmap_cons, NoDup_cons in Hnd. destruct Hnd as [Hword Hnd].
  pose proof (saveWords_writes_keys t name rest Hnd) as [_ Hkeys].
  cbn [saveWords_writes] in *.
  destruct (bool_decide ("000"%char ∈ name)); [done|].
  destruct wordInfo as [count offset|]; [|done].
  destruct (words_set (default [] (t !! word)) name (pair_value (count, offset)))
    as [doc'|e] eqn:Hset.
  - destruct (saveWords_writes t name rest) as [ws e] eqn:Hrest.
    cbn [fst snd] in *. rewrite run_writes_cons in Hagree.
    assert (Hhead : t' !! word = Some doc').
    { rewrite (Hagree word) by left.
      rewrite run_writes_word_other.
      - cbn. rewrite Ht, Hset. by rewrite lookup_insert_eq.
      - intros Hin. destruct (Hkeys _ Hin) as (w' & [= <-] & Hin'). done. }
    rewrite Hhead. cbn [default from_option id].
    rewrite (words_set_idem _ _ _ _ Hset).
    assert (Htail : saveWords_writes t' name rest = (ws, e)).
    { assert (Hsame : saveWords_writes
                (wordsTable (db (run_write (WWord word name (count, offset)) st)))
                name rest = saveWords_writes t name rest).
      { clear -Hword Ht. induction rest as [|[w wi] rest IHr]; [done|].
        rewrite fmap_cons, not_elem_of_cons in Hword. destruct Hword as [Hw Hword].
        cbn [saveWords_writes]. rewrite run_write_word_other by done.
        rewrite Ht. rewrite (IHr Hword). done. }
      rewrite <- Hrest, <- Hsame.
      apply (IH (run_write (WWord word name (count, offset)) st)); [done|done|].
      rewrite Hsame, Hrest. intros w Hw. apply Hagree. by right. }
    by rewrite Htail.
  - cbn [fst] in Hagree. rewrite (Hagree word) by left.
    cbn [run_writes fold_left]. by rewrite Ht, Hset.
Qed.

(** C2. Calling [addContent(name, text)] a second time with the same
    arguments ends as the first call did and leaves every collection
    (inverted index, completions, contents) and the noise cache exactly as
    the first call left them. *)
Theorem addContent_idempotent (st : DocFinder) (name contentText : jsstring) :
  addContent name contentText (addContent name contentText st).2 =
  addContent name contentText st.
Proof.
  rewrite (addContent_eq _ _ st). cbn [snd]. rewrite addContent_eq.
  destruct (run_writes_noiseWords
    (addContent_writes (wordsTable (db st)) (noiseWords st) name contentText) st)
    as [-> _].
  set (t := wordsTable (db st)). set (noise := noiseWords st).
  set (entries := Js.Object_entries (make_index noise (stored_text contentText))).
  assert (Hnd : NoDup entries.*1)
    by apply Object_entries_NoDup, make_index_NoDup.
  assert (Hstable :
    saveWords_writes
      (wordsTable (db (run_writes (addContent_writes t noise name contentText) st)))
      name entries = saveWords_writes t name entries).
  { apply (saveWords_writes_stable t name entries _
             (run_write (WContents name (stored_text contentText)) st));
      [done|done|].
    intros w Hw. unfold addContent_writes. fold entries.
    destruct (saveWords_writes t name entries) as [ws e]. cbn [fst].
    rewrite run_writes_cons, run_writes_app.
    apply run_writes_word_other.
    destruct e; [apply not_elem_of_nil|].
    rewrite completion_writes_keys.
    by intros (c & [=] & _)%list_elem_of_fmap. }
  assert (Hwrites :
    addContent_writes
      (wordsTable (db (run_writes (addContent_writes t noise name contentText) st)))
      noise name contentText = addContent_writes t noise name contentText).
  { unfold addContent_writes at 1 3. fold entries. by rewrite Hstable. }
  unfold addContent_outcome at 1. fold entries. rewrite Hstable.
  fold (addContent_outcome t noise name contentText). f_equal.
  rewrite Hwrites. apply run_writes_idem, addContent_writes_NoDup.
Qed.

(** ** Content retrieval *)

Lemma stored_text_suffix contentText :
  stored_text contentText =
  if bool_decide ([LF] `suffix_of` contentText) then contentText
  else contentText ++ [LF].
Proof.
  unfold stored_text. destruct (Js.endsWith contentText [LF]) eqn:He; cbn.
  - apply endsWith_suffix in He. by rewrite bool_decide_eq_true_2.
  - rewrite bool_decide_eq_false_2; [done|].
    intros Hs. apply endsWith_suffix in Hs. congruence.
Qed.

Lemma addContent_contents st name contentText :
  contentsTable (db (addContent name contentText st).2) !! name =
  Some (stored_text contentText).
Proof.
  rewrite addContent_eq. cbn [snd].
  pose proof (addContent_writes_NoDup (wordsTable (db st)) (noiseWords st)
                name contentText) as Hnd.
  unfold addContent_writes in *.
  destruct (saveWords_writes _ name _) as [ws e].
  rewrite fmap_cons, NoDup_cons in Hnd. destruct Hnd as [Hnin _].
  cbn [run_writes fold_left].
  match goal with |- context [fold_left _ ?l _] => fold (run_writes l) end.
  rewrite <- run_writes_comm by done.
  destruct (run_writes _ st) as [[cm ct nt wt] nw]. cbn.
  apply lookup_insert_eq.
Qed.

Lemma docContent_absent st name :
  contentsTable (db st) !! name = None →
  docContent name st =
  (Throw (Error (str "NOT_FOUND") (str "doc " ++ name ++ str " not found")), st).
Proof.
  intros Hnone. unfold docContent, contents_findOne.
  rewrite bind_unfold. cbn. by rewrite Hnone.
Qed.

Lemma docContent_present st name contents :
  contentsTable (db st) !! name = Some contents →
  docContent name st = (Return contents, st).
Proof.
  intros Hsome. unfold docContent, contents_findOne.
  rewrite bind_unfold. cbn. by rewrite Hsome.
Qed.

(** C9. [docContent(name)] for a name without a document in [contents]
    throws an error with code [NOT_FOUND] whose message, ["doc <name> not
    found"], carries the name; for a name with a document it returns the
    stored content; in both cases the state is left as it was. *)
Theorem docContent_spec (st : DocFinder) (name : jsstring) :
  (contentsTable (db st) !! name = None →
     docContent name st =
     (Throw (Error (str "NOT_FOUND") (str "doc " ++ name ++ str " not found")), st)) ∧
  (∀ contents, contentsTable (db st) !! name = Some contents →
     docContent name st = (Return contents, st)).
Proof. split; [apply docContent_absent|apply docContent_present]. Qed.

Lemma docContent_spec_witness :
  docContent (str "nope") (create empty_db) =
  (Throw (Error (str "NOT_FOUND") (str "doc nope not found")), create empty_db) ∧
  docContent (str "a") (addContent (str "a") (str "x") (create empty_db)).2 =
  (Return [ "x"%char; LF ], (addContent (str "a") (str "x") (create empty_db)).2).
Proof.
  split.
  - apply (docContent_spec (create empty_db) (str "nope")). reflexivity.
  - apply (docContent_spec (addContent (str "a") (str "x") (create empty_db)).2 (str "a")).
    vm_compute. reflexivity.
Defined.

(** C5. After [addContent(name, text)], [docContent(name)] returns [text]
    itself when [text] ends with a newline and [text] followed by one
    newline otherwise. *)
Theorem docContent_after_addContent (st : DocFinder) (name contentText : jsstring) :
  let st' := (addContent name contentText st).2 in
  docContent name st' =
  (Return (if bool_decide ([LF] `suffix_of` contentText) then contentText
           else contentText ++ [LF]), st').
Proof.
  intros st'. rewrite <- stored_text_suffix.
  apply docContent_present, addContent_contents.
Qed.

(** ** Noise words *)

Lemma wordsLow_of_noise noise text w i :
  In (w, i) (wordsLow_of noise text) ↔ In (w, i) (wordsLow_of ∅ text) ∧ w ∉ noise.
Proof.
  rewrite !wordsLow_of_In. split.
  - intros (Hst & Hw & Hne & Hn).
    split; [|done]. split; [done|]. split; [done|]. split; [done|].
    apply not_elem_of_empty.
  - intros [(Hst & Hw & Hne & _) Hn]. done.
Qed.

Lemma elem_of_words noise text w :
  w ∈ (wordsLow_of noise text).*1 ↔ w ∈ normalized_words text ∧ w ∉ noise.
Proof.
  unfold normalized_words. rewrite !list_elem_of_fmap. split.
  - intros ([w' i] & -> & Hin). apply list_elem_of_In, wordsLow_of_noise in Hin as [Hin Hn].
    split; [|done]. exists (w', i). split; [done|]. by apply list_elem_of_In.
  - intros [([w' i] & -> & Hin) Hn]. exists (w', i). split; [done|].
    apply list_elem_of_In, wordsLow_of_noise. split; [|done]. by apply list_elem_of_In.
Qed.

Lemma fold_union_list (a : list jsstring) (s : gset jsstring) :
  fold_left (λ s n, {[n]} ∪ s) a s = list_to_set a ∪ s.
Proof.
  revert s. induction a as [|n a IH]; intros s; cbn.
  - by rewrite (left_id_L ∅ (∪)).
  - rewrite IH. set_solver.
Qed.

Lemma noise_insertMany_fresh (a : list jsstring) st :
  NoDup a → (∀ n, n ∈ a → n ∉ noiseTable (db st)) →
  noise_insertMany a st = (Return tt, set_noise (λ t, list_to_set a ∪ t) st).
Proof.
  revert st. induction a as [|n a IH]; intros st Hnd Hfresh.
  - cbn. destruct st as [[cm ct nt wt] nw]. unfold ret, set_noise. cbn.
    by rewrite (left_id_L ∅ (∪)).
  - apply NoDup_cons in Hnd as [Hn Hnd]. cbn [noise_insertMany].
    rewrite bind_unfold. cbn [gets].
    rewrite bool_decide_eq_false_2 by (apply Hfresh; left).
    rewrite bind_unfold. unfold modify at 1. rewrite IH; [|done|].
    + destruct st as [[cm ct nt wt] nw]. unfold set_noise. cbn.
      do 3 f_equal. set_solver.
    + intros m Hm. destruct st as [[cm ct nt wt] nw]. cbn.
      specialize (Hfresh m (list_elem_of_further _ _ _ Hm)). cbn in Hfresh.
      set_solver.
Qed.

Lemma filter_all {A} (p : A → bool) (l : list A) :
  (∀ x, x ∈ l → p x = true) → List.filter p l = l.
Proof.
  induction l as [|x l IH]; intros Hall; [done|].
  cbn. rewrite Hall by left. f_equal. apply IH. intros y Hy. apply Hall. by right.
Qed.

(** The state [addNoiseWords] ends in when the noise collection holds
    nothing that the cache lacks. *)
Lemma addNoiseWords_eq st noiseText :
  noiseTable (db st) ⊆ noiseWords st →
  let new : gset jsstring :=
    list_to_set (wordsLow_of (noiseWords st) noiseText).*1 in
  addNoiseWords noiseText st =
  (Return tt, set_noiseWords (λ s, new ∪ s) (set_noise (λ t, new ∪ t) st)).
Proof.
  intros Hsub new. unfold addNoiseWords, words, _wordsLow.
  rewrite !bind_unfold. cbn [gets mret async_ret ret].
  rewrite bind_unfold. cbn [gets].
  set (ws := (wordsLow_of (noiseWords st) noiseText).*1) in *.
  assert (Hws : ∀ n, n ∈ Js.Set_from ws → n ∉ noiseWords st).
  { intros n Hn. rewrite Set_from_elem_of in Hn.
    by apply elem_of_words in Hn as [_ ?]. }
  rewrite filter_all.
  2:{ intros n Hn. apply negb_true_iff, bool_decide_eq_false_2. by apply Hws. }
  assert (Hnew : new = list_to_set (Js.Set_from ws)).
  { apply set_eq. intros n. unfold new.
    by rewrite !elem_of_list_to_set, Set_from_elem_of. }
  destruct (0 <? length (Js.Set_from ws))%nat eqn:Hlen.
  - rewrite bind_unfold, noise_insertMany_fresh.
    + unfold modify, set_noiseWords. cbn [noiseWords db set_noise].
      rewrite fold_union_list, <- Hnew. done.
    + apply Set_from_NoDup.
    + intros n Hn Hin. apply (Hws n Hn). by apply Hsub.
  - apply Nat.ltb_ge in Hlen.
    destruct (Js.Set_from ws) as [|x l]; [|cbn in Hlen; lia].
    rewrite Hnew. cbn. destruct st as [[cm ct nt wt] nw].
    unfold set_noiseWords, set_noise. cbn.
    by rewrite !(left_id_L ∅ (∪)).
Qed.

Lemma create_synced d : noiseTable (db (create d)) = noiseWords (create d).
Proof. reflexivity. Qed.

Lemma addContent_synced st name contentText :
  noiseTable (db st) = noiseWords st →
  noiseTable (db (addContent name contentText st).2) =
  noiseWords (addContent name contentText st).2.
Proof.
  intros Hs. rewrite addContent_eq. cbn [snd].
  by destruct (run_writes_noiseWords
    (addContent_writes (wordsTable (db st)) (noiseWords st) name contentText) st) as [-> ->].
Qed.

Lemma normalized_words_tokens text w :
  w ∈ normalized_words text ↔
  ∃ i, token_start text i ∧ w = normalize (token_at text i) ∧ w ≠ [].
Proof.
  unfold normalized_words. rewrite list_elem_of_fmap. split.
  - intros ([w' i] & -> & Hin).
    apply list_elem_of_In, wordsLow_of_In in Hin as (Hs & Hw & Hne & _). eauto.
  - intros (i & Hs & Hw & Hne). exists (w, N.of_nat i). split; [done|].
    apply list_elem_of_In, wordsLow_of_In. rewrite Nat2N.id.
    split; [done|]. split; [done|]. split; [done|]. apply not_elem_of_empty.
Qed.

(** C8, counterexample.  The noise word "the" is added, the database is
    cleared, and "the" is added again.  The last call
    returns, "the" is a normalised word of its text, and the noise
    collection does not hold it: the cache, which [clear] leaves as it is,
    filters the word before the insertion. *)
Lemma addNoiseWords_after_clear :
  let st := (clear (addNoiseWords (str "the") (create empty_db)).2).2 in
  (addNoiseWords (str "the") st).1 = Return tt ∧
  token_start (str "the") 0 ∧
  normalize (token_at (str "the") 0) = str "the" ∧
  str "the" ∈ noiseWords (addNoiseWords (str "the") st).2 ∧
  str "the" ∉ noiseTable (db (addNoiseWords (str "the") st).2).
Proof.
  intros st. split; [vm_compute; reflexivity|]. split; [|split; [|split]].
  - split; [|by left]. exists "t"%char. split; reflexivity.
  - vm_compute. reflexivity.
  - assert (noiseWords (addNoiseWords (str "the") st).2 = {[str "the"]}) as ->
      by (vm_compute; reflexivity).
    by apply elem_of_singleton.
  - assert (noiseTable (db (addNoiseWords (str "the") st).2) = ∅) as ->
      by (vm_compute; reflexivity).
    apply not_elem_of_empty.
Qed.

(** C8, amended.  In a state where the [noise] collection holds nothing
    that the cache [this.noiseWords] lacks (every reachable state is one),
    [addNoiseWords(text)] returns; the cache then holds what it held and
    the normalised words of [text], that is the non-empty normal forms of
    its tokens; the collection holds what it held and those of these words
    that the cache lacked.  So when cache and collection were equal (as
    [create] leaves them, and until [clear]) they stay equal and every
    normalised word of [text] is in both.  Calling the method again with
    the same text returns and changes nothing, neither the collection nor
    the cache. *)
Theorem addNoiseWords_idempotent (st : DocFinder) (noiseText : jsstring) :
  noiseTable (db st) ⊆ noiseWords st →
  let st1 := (addNoiseWords noiseText st).2 in
  (addNoiseWords noiseText st).1 = Return tt ∧
  (∀ w, w ∈ noiseWords st1 ↔
        w ∈ noiseWords st ∨
        ∃ i, token_start noiseText i ∧
             w = normalize (token_at noiseText i) ∧ w ≠ []) ∧
  (∀ w, w ∈ noiseTable (db st1) ↔
        w ∈ noiseTable (db st) ∨
        ((w ∉ noiseWords st) ∧
         ∃ i, token_start noiseText i ∧
              w = normalize (token_at noiseText i) ∧ w ≠ [])) ∧
  (noiseTable (db st) = noiseWords st → noiseTable (db st1) = noiseWords st1) ∧
  addNoiseWords noiseText st1 = (Return tt, st1).
Proof.
  intros Hsub st1. unfold st1.
  rewrite (addNoiseWords_eq st noiseText) by done.
  cbn [fst snd].
  set (new := list_to_set (wordsLow_of (noiseWords st) noiseText).*1 : gset jsstring).
  set (st' := set_noiseWords (λ s, new ∪ s) (set_noise (λ t, new ∪ t) st)).
  assert (Hnew : ∀ w, w ∈ new ↔ w ∈ normalized_words noiseText ∧ w ∉ noiseWords st).
  { intros w. unfold new. by rewrite elem_of_list_to_set, elem_of_words. }
  assert (Hcache : noiseWords st' = new ∪ noiseWords st).
  { unfold st'. by destruct st as [[cm ct nt wt] nw]. }
  assert (Htable : noiseTable (db st') = new ∪ noiseTable (db st)).
  { unfold st'. by destruct st as [[cm ct nt wt] nw]. }
  assert (Hmem : ∀ w, w ∈ noiseWords st' ↔
            w ∈ noiseWords st ∨ w ∈ normalized_words noiseText).
  { intros w. rewrite Hcache, elem_of_union, Hnew.
    destruct (decide (w ∈ noiseWords st)); naive_solver. }
  assert (Hsub' : noiseTable (db st') ⊆ noiseWords st').
  { rewrite Hcache, Htable. set_solver. }
  split; [done|]. split; [|split; [|split]].
  - intros w. by rewrite Hmem, normalized_words_tokens.
  - intros w. rewrite Htable, elem_of_union, Hnew, normalized_words_tokens.
    naive_solver.
  - intros Hsync. by rewrite Hcache, Htable, Hsync.
  - rewrite (addNoiseWords_eq st' noiseText) by done.
    assert ((wordsLow_of (noiseWords st') noiseText).*1 = []) as ->.
    { destruct (wordsLow_of (noiseWords st') noiseText).*1 as [|w l] eqn:Hl; [done|].
      assert (Hw : w ∈ (wordsLow_of (noiseWords st') noiseText).*1)
        by (rewrite Hl; left).
      apply elem_of_words in Hw as [Hw Hn]. destruct Hn. apply Hmem. by right. }
    destruct st' as [[cm ct nt wt] nw]. unfold set_noiseWords, set_noise. cbn.
    by rewrite !(left_id_L ∅ (∪)).
Qed.

Lemma addNoiseWords_idempotent_witness :
  let st1 := (addNoiseWords (str "The cat's of") (create empty_db)).2 in
  (addNoiseWords (str "The cat's of") (create empty_db)).1 = Return tt ∧
  str "cat" ∈ noiseWords st1 ∧
  str "cat" ∈ noiseTable (db st1) ∧
  noiseTable (db st1) = noiseWords st1 ∧
  addNoiseWords (str "The cat's of") st1 = (Return tt, st1).
Proof.
  intros st1.
  destruct (addNoiseWords_idempotent (create empty_db) (str "The cat's of"))
    as (Hret & Hcache & Htable & Hsync & Hagain).
  { done. }
  fold st1 in Hcache, Htable, Hsync, Hagain.
  assert (Htok : ∃ i, token_start (str "The cat's of") i ∧
            str "cat" = normalize (token_at (str "The cat's of") i) ∧ str "cat" ≠ []).
  { exists 4%nat. split; [|split].
    - split; [exists "c"%char; split; reflexivity|].
      right. exists 3%nat, " "%char. repeat split; reflexivity.
    - vm_compute. reflexivity.
    - discriminate. }
  split; [exact Hret|]. split; [|split; [|split; [|exact Hagain]]].
  - apply Hcache. by right.
  - apply Htable. right. split; [|exact Htok].
    change (noiseWords (create empty_db)) with (∅ : gset jsstring).
    apply not_elem_of_empty.
  - by apply Hsync.
Defined.

(** ** Well-formedness of the stored words *)

Lemma run_write_well_formed x st :
  write_ok x → well_formed st → well_formed (run_write x st).
Proof.
  destruct st as [[cm ct nt wt] nw]. intros Hx (Hw & Hn & Hc & Hm).
  destruct x as [n c|word n o|c ws]; cbn in *.
  - done.
  - split; [|done]. intros w fields Hl. cbn in Hl.
    destruct (words_set _ n _) in Hl; [|eauto].
    destruct (decide (word = w)) as [->|Hne]; [done|].
    rewrite lookup_insert_ne in Hl by done. eauto.
  - do 3 (split; [done|]). intros c' ws' Hl. cbn in Hl.
    destruct (decide (c = c')) as [->|Hne].
    + rewrite lookup_insert_eq in Hl. injection Hl as <-.
      destruct Hx as [Hne Hall]. split.
      * destruct ws as [|w ws]; [done|]. intros Hnil.
        assert (Hin : w ∈ Js.Set_from ((w :: ws) ++ default [] (cm !! c'))).
        { apply Set_from_elem_of. left. }
        rewrite Hnil in Hin. by apply elem_of_nil in Hin.
      * intros w Hin. rewrite Set_from_elem_of in Hin.
        apply elem_of_app in Hin as [Hin|Hin]; [by apply Hall|].
        destruct (cm !! c') as [prev|] eqn:Hprev; [|by apply elem_of_nil in Hin].
        by apply (Hm _ _ Hprev).
    + rewrite lookup_insert_ne in Hl by done. eauto.
Qed.

Lemma run_writes_well_formed xs st :
  Forall write_ok xs → well_formed st → well_formed (run_writes xs st).
Proof.
  revert st. induction xs as [|x xs IH]; intros st Hxs Hwf; [done|].
  apply Forall_cons in Hxs as [Hx Hxs]. cbn. apply IH; [done|].
  by apply run_write_well_formed.
Qed.

Lemma saveWords_writes_elem_of t name entries x :
  x ∈ (saveWords_writes t name entries).1 →
  ∃ word count offset,
    x = WWord word name (count, offset) ∧ (word, WordInfo count offset) ∈ entries.
Proof.
  induction entries as [|[word [count offset|]] rest IH]; cbn [saveWords_writes].
  - by intros ?%elem_of_nil.
  - destruct (bool_decide ("000"%char ∈ name)); [by intros ?%elem_of_nil|].
    destruct (words_set _ name _); [|by intros ?%elem_of_nil].
    destruct (saveWords_writes t name rest) as [ws e]. cbn in *.
    intros [->|Hin]%elem_of_cons.
    + exists word, count, offset. split; [done|left].
    + destruct (IH Hin) as (w & c & o & -> & Hin'). exists w, c, o.
      split; [done|by right].
  - destruct (bool_decide ("000"%char ∈ name)); by intros ?%elem_of_nil.
Qed.

Lemma makeIndex_step_keys index pair k :
  k ∈ (makeIndex_step index pair).*1 ↔ k ∈ index.*1 ∨ k = pair.1.
Proof.
  destruct pair as [word offset]. unfold makeIndex_step.
  rewrite assoc_set_keys. case_decide as Hin.
  - split; [auto|]. intros [?| ->]; done.
  - rewrite elem_of_app, list_elem_of_singleton. done.
Qed.

Lemma fold_makeIndex_keys pairs index k :
  k ∈ (fold_left makeIndex_step pairs index).*1 ↔ k ∈ index.*1 ∨ k ∈ pairs.*1.
Proof.
  revert index. induction pairs as [|p pairs IH]; intros index; cbn [fold_left].
  - rewrite fmap_nil, elem_of_nil. tauto.
  - rewrite IH, makeIndex_step_keys, fmap_cons, elem_of_cons. tauto.
Qed.

Lemma make_index_keys noise contentText k :
  k ∈ (make_index noise contentText).*1 ↔ k ∈ (wordsLow_of noise contentText).*1.
Proof.
  unfold make_index. rewrite fold_makeIndex_keys, fmap_nil, elem_of_nil. tauto.
Qed.

Lemma words_are_words noise text w :
  w ∈ (wordsLow_of noise text).*1 → is_word w ∧ w ∉ noise.
Proof.
  intros ([w' i] & -> & Hin)%list_elem_of_fmap.
  by apply list_elem_of_In, wordsLow_of_word in Hin.
Qed.

Lemma Object_keys_elem_of {V} (o : list (jsstring * V)) k :
  k ∈ Js.Object_keys o ↔ k ∈ o.*1.
Proof. unfold Js.Object_keys. by rewrite Object_entries_perm. Qed.

Lemma makeCompletions_step_get m word c :
  Js.assoc_get (makeCompletions_step m word) c =
  if decide (char0 word = c) then Some (default [] (Js.assoc_get m c) ++ [word])
  else Js.assoc_get m c.
Proof.
  unfold makeCompletions_step. rewrite assoc_get_set.
  destruct (decide (char0 word = c)) as [<-|Hne].
  - destruct (Js.assoc_get m (char0 word)) as [l|] eqn:Hm.
    + by rewrite Hm.
    + rewrite assoc_get_set. by rewrite decide_True.
  - destruct (Js.assoc_get m (char0 word)) as [l|] eqn:Hm; [done|].
    rewrite assoc_get_set. by rewrite decide_False.
Qed.

Lemma fold_makeCompletions_get words m c :
  Js.assoc_get (fold_left makeCompletions_step words m) c =
  match words_with c words with
  | [] => Js.assoc_get m c
  | l => Some (default [] (Js.assoc_get m c) ++ l)
  end.
Proof.
  revert m. induction words as [|w words IH]; intros m; [done|].
  cbn [fold_left]. rewrite IH, makeCompletions_step_get.
  unfold words_with. cbn [List.filter].
  destruct (decide (char0 w = c)) as [Hc|Hc].
  - rewrite bool_decide_eq_true_2 by done. cbn.
    destruct (List.filter _ words); [done|]. by rewrite <- app_assoc.
  - by rewrite bool_decide_eq_false_2 by done.
Qed.

(** [_makeCompletions] maps a character to the words that begin with it,
    in their order in the list, and has no entry for other characters. *)
Lemma makeCompletions_get words c :
  Js.assoc_get (_makeCompletions words) c =
  match words_with c words with [] => None | l => Some l end.
Proof. unfold _makeCompletions. by rewrite fold_makeCompletions_get. Qed.

Lemma words_with_elem_of c words w :
  w ∈ words_with c words ↔ w ∈ words ∧ char0 w = c.
Proof.
  unfold words_with. rewrite !list_elem_of_In, filter_In, bool_decide_eq_true. done.
Qed.

Lemma completion_writes_ok words :
  Forall is_word words → Forall write_ok (completion_writes words).
Proof.
  intros Hwords. unfold completion_writes. apply Forall_forall. intros x Hx.
  apply list_elem_of_fmap in Hx as (c & -> & Hc). cbn.
  destruct (Js.assoc_get (_makeCompletions words) c) as [ws|] eqn:Hget.
  - rewrite makeCompletions_get in Hget.
    destruct (words_with c words) as [|w l] eqn:Hww; [done|].
    injection Hget as <-. cbn. split; [done|]. intros w' Hin.
    rewrite <- Hww in Hin. apply words_with_elem_of in Hin as [Hin Hch].
    split; [|done]. rewrite Forall_forall in Hwords. by apply Hwords.
  - apply assoc_get_None in Hget. done.
Qed.

Lemma addContent_writes_ok t noise name contentText :
  Forall write_ok (addContent_writes t noise name contentText).
Proof.
  unfold addContent_writes.
  set (index := make_index noise (stored_text contentText)).
  assert (Hkeys : ∀ k, k ∈ index.*1 → is_word k).
  { intros k Hk. apply make_index_keys in Hk. by apply words_are_words in Hk as [? _]. }
  pose proof (saveWords_writes_elem_of t name (Js.Object_entries index)) as Hsave.
  destruct (saveWords_writes t name (Js.Object_entries index)) as [ws e].
  cbn [fst] in Hsave. apply Forall_cons. split; [done|].
  apply Forall_app. split.
  - apply Forall_forall. intros x Hx.
    destruct (Hsave x Hx) as (w & c & o & -> & Hin). cbn.
    apply Hkeys. rewrite Object_entries_elem_of in Hin.
    apply list_elem_of_fmap. by exists (w, WordInfo c o).
  - destruct e; [constructor|]. apply completion_writes_ok.
    apply Forall_forall. intros k Hk. apply Hkeys. by apply Object_keys_elem_of.
Qed.

Lemma addContent_well_formed st name contentText :
  well_formed st → well_formed (addContent name contentText st).2.
Proof.
  intros Hwf. rewrite addContent_eq. cbn [snd].
  apply run_writes_well_formed; [apply addContent_writes_ok|done].
Qed.

Lemma noise_insertMany_state (a : list jsstring) st :
  ∃ done_ : list jsstring,
    (∀ n, n ∈ done_ → n ∈ a) ∧
    (noise_insertMany a st).2 = set_noise (λ t, list_to_set done_ ∪ t) st.
Proof.
  revert st. induction a as [|n a IH]; intros st.
  - exists []. split; [done|]. cbn. destruct st as [[cm ct nt wt] nw].
    unfold set_noise. cbn. by rewrite (left_id_L ∅ (∪)).
  - cbn [noise_insertMany]. rewrite bind_unfold. cbn [gets].
    destruct (bool_decide (n ∈ noiseTable (db st))).
    + exists []. split; [by intros ? ?%elem_of_nil|]. cbn.
      destruct st as [[cm ct nt wt] nw]. unfold set_noise. cbn.
      by rewrite (left_id_L ∅ (∪)).
    + rewrite bind_unfold. unfold modify at 1.
      destruct (IH (set_noise (λ t, {[n]} ∪ t) st)) as (d & Hd & ->).
      exists (n :: d). split.
      * intros m [->|Hm]%elem_of_cons; [left|right; auto].
      * destruct st as [[cm ct nt wt] nw]. unfold set_noise. cbn.
        do 2 f_equal. set_solver.
Qed.

Lemma addNoiseWords_well_formed st noiseText :
  well_formed st → well_formed (addNoiseWords noiseText st).2.
Proof.
  intros Hwf. unfold addNoiseWords, words, _wordsLow.
  rewrite !bind_unfold. cbn [gets mret async_ret ret].
  rewrite bind_unfold. cbn [gets].
  set (a := List.filter _ _).
  assert (Ha : ∀ n, n ∈ a → is_word n).
  { intros n Hn. unfold a in Hn. apply list_elem_of_In, filter_In in Hn as [Hn _].
    apply list_elem_of_In in Hn. rewrite Set_from_elem_of in Hn.
    by apply words_are_words in Hn as [? _]. }
  destruct (0 <? length a)%nat; [|done].
  rewrite bind_unfold.
  destruct (noise_insertMany_state a st) as (d & Hd & Hst).
  destruct (noise_insertMany a st) as [[[]|e] st'] eqn:Hins; cbn [snd] in *; subst st'.
  - unfold modify, set_noiseWords. cbn [snd noiseWords db set_noise].
    rewrite fold_union_list.
    destruct st as [[cm ct nt wt] nw]. destruct Hwf as (Hw & Hn & Hc & Hm).
    cbn in *. split; [done|]. split; [|split; [|done]].
    + intros w [Hin|Hin]%elem_of_union; [|auto].
      apply elem_of_list_to_set in Hin. auto.
    + intros w [Hin|Hin]%elem_of_union; [|auto].
      apply elem_of_list_to_set in Hin. auto.
  - destruct st as [[cm ct nt wt] nw]. destruct Hwf as (Hw & Hn & Hc & Hm).
    cbn in *. split; [done|]. split; [|done].
    intros w [Hin|Hin]%elem_of_union; [|auto].
    apply elem_of_list_to_set in Hin. auto.
Qed.

Lemma create_empty_well_formed : well_formed (create empty_db).
Proof.
  split; [|split; [|split]]; cbn.
  - intros w fields Hl. by rewrite lookup_empty in Hl.
  - intros w Hw. by apply not_elem_of_empty in Hw.
  - intros w Hw. by apply not_elem_of_empty in Hw.
  - intros c ws Hl. by rewrite lookup_empty in Hl.
Qed.

(** C10. The engine attached to an empty database is well formed, and
    [addContent] and [addNoiseWords] keep a well-formed state well formed,
    whether they return or throw: every key of the inverted index, every
    noise word (stored and cached) and every word of a completion entry is a
    non-empty string over [a]..[z], and the key of a completion entry is the
    first character of each of its words. *)
Theorem well_formed_preserved (st : DocFinder) :
  well_formed st →
  (∀ name contentText, well_formed (addContent name contentText st).2) ∧
  (∀ noiseText, well_formed (addNoiseWords noiseText st).2).
Proof.
  intros Hwf. split.
  - intros name contentText. by apply addContent_well_formed.
  - intros noiseText. by apply addNoiseWords_well_formed.
Qed.

Lemma well_formed_preserved_witness :
  well_formed (create empty_db) ∧
  (∀ name contentText, well_formed (addContent name contentText (create empty_db)).2) ∧
  (∀ noiseText, well_formed (addNoiseWords noiseText (create empty_db)).2).
Proof.
  split; [apply create_empty_well_formed|].
  apply (well_formed_preserved (create empty_db)). apply create_empty_well_formed.
Defined.

(** ** Invariants of reachable states *)

Lemma run_write_consistent st x :
  consistent st → write_valid x → consistent (run_write x st).
Proof.
  intros [Hwf Hnoise Hcompl Hfields Hcont] [Hok Hx].
  split; [by apply run_write_well_formed|..];
    destruct st as [[cm ct nt wt] nw]; cbn in *.
  - by destruct x.
  - destruct x as [n c|word n o|c ws]; cbn; [done..|].
    intros c' ws' Hl. destruct (decide (c = c')) as [->|Hne].
    + rewrite lookup_insert_eq in Hl. injection Hl as <-. apply Set_from_NoDup.
    + rewrite lookup_insert_ne in Hl by done. eauto.
  - destruct x as [n c|word n o|c ws]; cbn; [done| |done].
    destruct (words_set (default [] (wt !! word)) n (pair_value o))
      as [doc'|e] eqn:Hset; [|done].
    intros w fields Hl. destruct (decide (word = w)) as [->|Hne].
    + rewrite lookup_insert_eq in Hl. injection Hl as <-.
      apply (words_set_keys _ _ _ _ Hset).
      destruct (wt !! w) as [old|] eqn:Hold; [by apply (Hfields w)|].
      cbn. split; [constructor|apply not_elem_of_nil].
    + rewrite lookup_insert_ne in Hl by done. eauto.
  - destruct x as [n c|word n o|c ws]; cbn; [|done..].
    intros d c' Hl. destruct (decide (n = d)) as [->|Hne].
    + rewrite lookup_insert_eq in Hl. by injection Hl as <-.
    + rewrite lookup_insert_ne in Hl by done. eauto.
Qed.

Lemma run_writes_consistent xs st :
  consistent st → Forall write_valid xs → consistent (run_writes xs st).
Proof.
  revert st. induction xs as [|x xs IH]; intros st Hc Hv; [done|].
  apply Forall_cons in Hv as [Hx Hv]. cbn. apply IH; [|done].
  by apply run_write_consistent.
Qed.

Lemma addContent_writes_shape t noise name contentText :
  ∃ xs, addContent_writes t noise name contentText =
        WContents name (stored_text contentText) :: xs ∧
        Forall (index_write name) xs.
Proof.
  pose proof (addContent_writes_ok t noise name contentText) as Hok.
  unfold addContent_writes in *.
  pose proof (saveWords_writes_elem_of t name
    (Js.Object_entries (make_index noise (stored_text contentText)))) as Hel.
  destruct (saveWords_writes t name _) as [ws e]. cbn [fst] in *.
  eexists. split; [done|].
  apply Forall_cons in Hok as [_ Hok]. apply Forall_app in Hok as [Hok1 Hok2].
  apply Forall_app. split.
  - apply Forall_forall. intros x Hx. split.
    + rewrite Forall_forall in Hok1. by apply Hok1.
    + by destruct (Hel x Hx) as (w & c & o & -> & _).
  - destruct e; [constructor|]. apply Forall_forall. intros x Hx. split.
    + rewrite Forall_forall in Hok2. by apply Hok2.
    + apply list_elem_of_fmap in Hx as (c & -> & _). done.
Qed.

Lemma stored_text_newline contentText : [LF] `suffix_of` stored_text contentText.
Proof.
  rewrite stored_text_suffix. case_bool_decide; [done|]. by apply suffix_app_r.
Qed.

Lemma addContent_consistent st name contentText :
  consistent st → consistent (addContent name contentText st).2.
Proof.
  intros Hc. rewrite addContent_eq. cbn [snd].
  destruct (addContent_writes_shape (wordsTable (db st)) (noiseWords st)
              name contentText) as (xs & -> & Hxs).
  apply run_writes_consistent; [done|]. apply Forall_cons. split.
  - split; [done|]. apply stored_text_newline.
  - eapply Forall_impl; [exact Hxs|]. intros x [Hok Hx]. split; [done|].
    by destruct x.
Qed.

Lemma addNoiseWords_frame st noiseText :
  ∃ (inserted added : gset jsstring),
    (addNoiseWords noiseText st).2 =
    set_noiseWords (λ s, added ∪ s) (set_noise (λ t, inserted ∪ t) st).
Proof.
  unfold addNoiseWords, words, _wordsLow.
  rewrite !bind_unfold. cbn [gets mret async_ret ret].
  rewrite bind_unfold. cbn [gets].
  set (a := List.filter _ _).
  assert (Hid : st = set_noiseWords (λ s, ∅ ∪ s) (set_noise (λ t, ∅ ∪ t) st)).
  { destruct st as [[cm ct nt wt] nw]. unfold set_noiseWords, set_noise. cbn.
    by rewrite !(left_id_L ∅ (∪)). }
  destruct (0 <? length a)%nat; [|by exists ∅, ∅].
  rewrite bind_unfold.
  destruct (noise_insertMany_state a st) as (d & Hd & Hst).
  destruct (noise_insertMany a st) as [[[]|e] st'] eqn:Hins; cbn [snd] in *; subst st'.
  - exists (list_to_set d), (list_to_set a). unfold modify, set_noiseWords.
    cbn [snd noiseWords db set_noise]. by rewrite fold_union_list.
  - exists (list_to_set d), ∅. destruct st as [[cm ct nt wt] nw].
    unfold set_noiseWords, set_noise. cbn. by rewrite (left_id_L ∅ (∪)).
Qed.

Lemma addNoiseWords_consistent st noiseText :
  consistent st → consistent (addNoiseWords noiseText st).2.
Proof.
  intros Hc. pose proof (addNoiseWords_well_formed st noiseText (cons_well_formed _ Hc)) as Hwf.
  rewrite (addNoiseWords_eq st noiseText) in * by apply Hc. cbn [snd] in *.
  destruct Hc as [_ Hnoise Hcompl Hfields Hcont].
  destruct st as [[cm ct nt wt] nw]. split; cbn in *; try done.
  set_solver.
Qed.

Lemma clear_eq st : clear st = (Return tt, mkDocFinder empty_db (noiseWords st)).
Proof. reflexivity. Qed.

(** [clear] empties the collections and leaves the cache as it is. *)
Lemma clear_keeps_cache st :
  noiseWords (clear st).2 = noiseWords st ∧ db (clear st).2 = empty_db.
Proof. by rewrite clear_eq. Qed.

Lemma clear_consistent st : consistent st → consistent (clear st).2.
Proof.
  intros [Hwf Hnoise Hcompl Hfields Hcont]. rewrite clear_eq.
  destruct st as [[cm ct nt wt] nw]. split; cbn in *.
  - destruct Hwf as (? & ? & ? & ?). split; [|split; [|split]]; cbn in *.
    + intros w fields Hl. by rewrite lookup_empty in Hl.
    + intros w Hw. by apply not_elem_of_empty in Hw.
    + done.
    + intros c ws Hl. by rewrite lookup_empty in Hl.
  - set_solver.
  - intros c ws Hl. by rewrite lookup_empty in Hl.
  - intros w fields Hl. by rewrite lookup_empty in Hl.
  - intros d c Hl. by rewrite lookup_empty in Hl.
Qed.

Lemma create_empty_consistent : consistent (create empty_db).
Proof.
  split; cbn.
  - apply create_empty_well_formed.
  - done.
  - intros c ws Hl. by rewrite lookup_empty in Hl.
  - intros w fields Hl. by rewrite lookup_empty in Hl.
  - intros d c Hl. by rewrite lookup_empty in Hl.
Qed.

Lemma reopen_consistent st : consistent st → consistent (create (db st)).
Proof.
  intros [Hwf Hnoise Hcompl Hfields Hcont].
  destruct st as [[cm ct nt wt] nw]. split; cbn in *; try done.
  destruct Hwf as (Hw & Hn & Hc & Hm). by split.
Qed.

Lemma reachable_consistent st : reachable st → consistent st.
Proof.
  induction 1;
    auto using create_empty_consistent, addNoiseWords_consistent,
      addContent_consistent, clear_consistent, reopen_consistent.
Qed.


(** *** Regular states *)

Lemma elem_of_assoc_set {V} (o : list (jsstring * V)) k v kv :
  kv ∈ Js.assoc_set o k v → kv = (k, v) ∨ kv ∈ o.
Proof.
  induction o as [|[k0 w] o IH]; cbn.
  - intros ->%list_elem_of_singleton. by left.
  - case_decide as Hk.
    + subst k0. intros [->|Hin]%elem_of_cons; [by left|]. right. by right.
    + intros [->|Hin]%elem_of_cons; [right; left|].
      destruct (IH Hin) as [->|Hin']; [by left|]. right. by right.
Qed.

Lemma run_write_regular st x :
  regular st → write_plain st x → regular (run_write x st).
Proof.
  intros Hreg Hx. destruct st as [[cm ct nt wt] nw].
  destruct x as [n c|word n o|c ws]; unfold regular in *; cbn in *.
  - intros w fields d v Hl Hin. destruct (Hreg w fields d v Hl Hin) as [Hp Hd].
    split; [done|]. destruct (decide (n = d)) as [->|Hne].
    + rewrite lookup_insert_eq. eauto.
    + by rewrite lookup_insert_ne.
  - destruct Hx as [Hfn Hsome]. rewrite (words_set_plain _ _ _ Hfn).
    intros w fields d v Hl Hin. destruct (decide (word = w)) as [->|Hne].
    + rewrite lookup_insert_eq in Hl. injection Hl as <-.
      apply elem_of_assoc_set in Hin as [[= -> ->]|Hin].
      * split; [by eexists|done].
      * destruct (wt !! w) as [old|] eqn:Hold; [|by apply elem_of_nil in Hin].
        by apply (Hreg w old).
    + rewrite lookup_insert_ne in Hl by done. by apply (Hreg w fields).
  - done.
Qed.

Lemma run_writes_regular xs st :
  regular st → plain_seq st xs → regular (run_writes xs st).
Proof.
  revert st. induction xs as [|x xs IH]; intros st Hr Hv; [done|].
  destruct Hv as [Hx Hv]. cbn. apply IH; [|done]. by apply run_write_regular.
Qed.

Lemma index_writes_plain name xs st :
  field_name name = true →
  Forall (index_write name) xs →
  is_Some (contentsTable (db st) !! name) →
  plain_seq st xs.
Proof.
  intros Hfn. revert st. induction xs as [|x xs IH]; intros st Hxs Hsome; [done|].
  apply Forall_cons in Hxs as [[Hok Hx] Hxs]. split.
  - destruct x; [done| |done]. by subst.
  - apply IH; [done|]. by destruct x, st as [[cm ct nt wt] nw].
Qed.

Lemma addContent_regular st name contentText :
  field_name name = true →
  regular st → regular (addContent name contentText st).2.
Proof.
  intros Hfn Hr. rewrite addContent_eq. cbn [snd].
  destruct (addContent_writes_shape (wordsTable (db st)) (noiseWords st)
              name contentText) as (xs & -> & Hxs).
  apply run_writes_regular; [done|]. split; [done|].
  apply (index_writes_plain name); [done|done|].
  destruct st as [[cm ct nt wt] nw]. cbn. rewrite lookup_insert_eq. eauto.
Qed.

Lemma addNoiseWords_regular st noiseText :
  regular st → regular (addNoiseWords noiseText st).2.
Proof.
  intros Hr. destruct (addNoiseWords_frame st noiseText) as (i & a & ->).
  by destruct st as [[cm ct nt wt] nw].
Qed.

Lemma clear_regular st : regular (clear st).2.
Proof.
  rewrite clear_eq. intros w fields d v Hl. cbn in Hl.
  by rewrite lookup_empty in Hl.
Qed.

Lemma create_empty_regular : regular (create empty_db).
Proof. intros w fields d v Hl. cbn in Hl. by rewrite lookup_empty in Hl. Qed.

Lemma reopen_regular st : regular st → regular (create (db st)).
Proof. intros Hr. by destruct st as [[cm ct nt wt] nw]. Qed.

Lemma plainly_reachable_reachable st : plainly_reachable st → reachable st.
Proof. induction 1; by constructor. Qed.

Lemma plainly_reachable_regular st : plainly_reachable st → regular st.
Proof.
  induction 1;
    auto using create_empty_regular, addNoiseWords_regular,
      addContent_regular, clear_regular, reopen_regular.
Qed.

Lemma plainly_reachable_consistent st : plainly_reachable st → consistent st.
Proof. intros Hr. by apply reachable_consistent, plainly_reachable_reachable. Qed.

(** ** Completion *)

Lemma take_nonspace_nonspace s : Forall (λ c, Js.is_space c = false) (take_nonspace s).
Proof.
  induction s as [|c s IH]; cbn; [constructor|].
  destruct (Js.is_space c) eqn:Hc; by constructor.
Qed.

Lemma take_nonspace_split s :
  ∃ rest, s = take_nonspace s ++ rest ∧
          (rest = [] ∨ ∃ c r, rest = c :: r ∧ Js.is_space c = true).
Proof.
  induction s as [|c s (rest & Hs & Hrest)]; cbn.
  - exists []. auto.
  - destruct (Js.is_space c) eqn:Hc.
    + exists (c :: s). split; [done|]. right. eauto.
    + exists rest. split; [cbn; congruence|done].
Qed.

Lemma split_go_nonspace tok cur b :
  Forall (λ c, Js.is_space c = false) tok → Js.split_go tok cur b = [cur ++ tok].
Proof.
  intros Htok. revert cur b. induction Htok as [|c tok Hc Htok IH]; intros cur b; cbn.
  - by rewrite app_nil_r.
  - rewrite Hc, IH. by rewrite <- app_assoc.
Qed.

Lemma split_go_last p c tok cur b :
  Js.is_space c = true → Forall (λ c, Js.is_space c = false) tok →
  last (Js.split_go (p ++ c :: tok) cur b) = Some tok.
Proof.
  intros Hc Htok. revert cur b. induction p as [|x p IH]; intros cur b; cbn.
  - rewrite Hc. destruct b; rewrite split_go_nonspace by done; done.
  - destruct (Js.is_space x); [|by apply IH].
    destruct b; [by apply IH|]. rewrite last_cons. by rewrite IH.
Qed.

(** [text.split(/\s+/).slice(-1)[0]] is the final token. *)
Lemma split_ws_last text : last (Js.split_ws text) = Some (last_token text).
Proof.
  unfold Js.split_ws, last_token.
  destruct (take_nonspace_split (reverse text)) as (rest & Hsplit & Hrest).
  pose proof (take_nonspace_nonspace (reverse text)) as Hns.
  set (t := take_nonspace (reverse text)) in *.
  assert (Htext : text = reverse rest ++ reverse t).
  { rewrite <- reverse_app, <- Hsplit. by rewrite reverse_involutive. }
  assert (Hns' : Forall (λ c, Js.is_space c = false) (reverse t)).
  { apply Forall_forall. intros c Hc. rewrite elem_of_reverse in Hc.
    rewrite Forall_forall in Hns. by apply Hns. }
  destruct Hrest as [->|(c & r & -> & Hc)].
  - rewrite Htext. cbn. by rewrite split_go_nonspace.
  - rewrite Htext, reverse_cons, <- app_assoc. cbn. by apply split_go_last.
Qed.

Lemma compare_flip a b : Js.compare b a = CompOpp (Js.compare a b).
Proof.
  revert b. induction a as [|x a IH]; intros [|y b]; cbn; try done.
  rewrite (N.compare_antisym (Js.code x) (Js.code y)).
  destruct (Js.code x ?= Js.code y); cbn; auto.
Qed.

#[global] Instance Js_le_total : Total Js.le.
Proof.
  intros a b. unfold Js.le. rewrite (compare_flip a b).
  destruct (Js.compare a b); cbn; auto.
Qed.

#[global] Instance Js_le_trans : Transitive Js.le.
Proof.
  unfold Js.le. intros a. induction a as [|x a IH]; intros [|y b] [|z c]; cbn;
    try done.
  destruct (N.compare_spec (Js.code x) (Js.code y)),
    (N.compare_spec (Js.code y) (Js.code z)),
    (N.compare_spec (Js.code x) (Js.code z)); try done; try lia.
  apply IH.
Qed.

Lemma StronglySorted_filter {A} (R : relation A) (p : A → bool) l :
  StronglySorted R l → StronglySorted R (List.filter p l).
Proof.
  induction 1 as [|x l Hl IH Hall]; cbn; [constructor|].
  destruct (p x); [|done]. constructor; [done|].
  apply Forall_forall. intros y Hy. apply list_elem_of_In, filter_In in Hy as [Hy _].
  rewrite Forall_forall in Hall. by apply Hall, list_elem_of_In.
Qed.

Lemma NoDup_List_filter {A} (p : A → bool) l :
  NoDup l → NoDup (List.filter p l).
Proof.
  induction 1 as [|x l Hx Hl IH]; cbn; [constructor|].
  destruct (p x); [|done]. constructor; [|done].
  intros Hin. apply list_elem_of_In, filter_In in Hin as [Hin _].
  by apply Hx, list_elem_of_In.
Qed.

Lemma complete_eq st text :
  complete text st =
  (Return
     (if negb (from_option Js.is_alpha false (last text)) then []
      else
        List.filter (λ w, Js.startsWith w (normalize (last_token text)))
          (merge_sort Js.le
             (default [] (completionsTable (db st)
                !! char0 (normalize (last_token text)))))),
   st).
Proof.
  unfold complete. destruct (negb _); [done|].
  rewrite fmap_last, split_ws_last. reflexivity.
Qed.

(** C6. [complete(text)] always returns.  If the last character of [text]
    is not in [a-zA-Z] the result is empty.  Otherwise, with [w] the
    normalised final token of [text] (no noise filter is applied), the
    result consists of the words of the completion entry of the first
    character of [w] that start with [w]; it is in ascending order of code
    units and, in a reachable state, free of duplicates; a missing or empty
    entry gives the empty list. *)
Theorem complete_spec (st : DocFinder) (text : jsstring) :
  reachable st →
  ∃ l, complete text st = (Return l, st) ∧
    (from_option Js.is_alpha false (last text) = false → l = []) ∧
    (from_option Js.is_alpha false (last text) = true →
       let w := normalize (last_token text) in
       let entry := default [] (completionsTable (db st) !! char0 w) in
       (∀ x, x ∈ l ↔ x ∈ entry ∧ w `prefix_of` x) ∧
       StronglySorted Js.le l ∧ NoDup l ∧
       (entry = [] → l = [])).
Proof.
  intros Hreach. apply reachable_consistent in Hreach.
  eexists. split; [apply complete_eq|]. split.
  - by intros ->.
  - intros Halpha w entry. rewrite Halpha. cbn [negb]. fold w. fold entry.
    assert (Hin : ∀ x, x ∈ List.filter (λ x, Js.startsWith x w) (merge_sort Js.le entry)
                       ↔ x ∈ entry ∧ w `prefix_of` x).
    { intros x. rewrite list_elem_of_In, filter_In, <- list_elem_of_In.
      by rewrite merge_sort_Permutation, startsWith_prefix. }
    split; [done|]. split; [|split].
    + apply StronglySorted_filter, StronglySorted_merge_sort; apply _.
    + apply NoDup_List_filter. rewrite merge_sort_Permutation. unfold entry.
      destruct (completionsTable (db st) !! char0 w) as [ws|] eqn:Hl; [|constructor].
      by apply (cons_completions _ Hreach _ _ Hl).
    + intros Hnil. destruct (List.filter _ _) as [|x l] eqn:Hf; [done|].
      assert (Hx : x ∈ x :: l) by left. apply Hin in Hx as [Hx _].
      rewrite Hnil in Hx. by apply elem_of_nil in Hx.
Qed.

Lemma complete_spec_witness :
  ∃ l, complete (str "see Al")
         (addContent (str "doc") (str "alpha Alps beta") (create empty_db)).2 =
       (Return l, (addContent (str "doc") (str "alpha Alps beta") (create empty_db)).2) ∧
       l = [str "alpha"; str "alps"].
Proof.
  destruct (complete_spec
    (addContent (str "doc") (str "alpha Alps beta") (create empty_db)).2
    (str "see Al")) as (l & Hl & _).
  - apply reachable_addContent, reachable_create.
  - exists l. split; [exact Hl|].
    assert (Hres : (complete (str "see Al")
              (addContent (str "doc") (str "alpha Alps beta") (create empty_db)).2).1
            = Return l) by (by rewrite Hl).
    vm_compute in Hres. injection Hres as <-. reflexivity.
Defined.

(** ** Search *)

Lemma fold_entries_get entries :
  NoDup entries.*1 → str "_id" ∉ entries.*1 →
  ∀ docs d,
    Js.assoc_get (fold_left findDocs_entry entries docs) d =
    match Js.assoc_get entries d with
    | Some occ => Some (default [] (Js.assoc_get docs d) ++ [occ])
    | None => Js.assoc_get docs d
    end.
Proof.
  induction entries as [|[n idx] rest IH]; intros Hnd Hid docs d; [done|].
  rewrite fmap_cons in Hnd, Hid. apply NoDup_cons in Hnd as [Hn Hnd].
  apply not_elem_of_cons in Hid as [Hne Hid]. cbn [fst] in Hn, Hne.
  cbn [fold_left]. rewrite IH by done. unfold findDocs_entry.
  rewrite bool_decide_eq_false_2 by done. cbn [Js.assoc_get].
  rewrite assoc_get_set. destruct (decide (n = d)) as [->|Hnd'].
  - apply assoc_get_None in Hn. by rewrite Hn.
  - done.
Qed.

Lemma fold_entries_NoDup entries docs :
  NoDup docs.*1 → NoDup (fold_left findDocs_entry entries docs).*1.
Proof.
  revert docs. induction entries as [|[n idx] rest IH]; intros docs Hnd; [done|].
  cbn [fold_left]. apply IH. unfold findDocs_entry. case_bool_decide; [done|].
  by apply assoc_set_NoDup.
Qed.

Lemma Object_entries_get {V} (o : list (jsstring * V)) k :
  NoDup o.*1 → Js.assoc_get (Js.Object_entries o) k = Js.assoc_get o k.
Proof.
  intros Hnd. destruct (Js.assoc_get o k) as [v|] eqn:Hget.
  - apply assoc_get_In; [by apply Object_entries_NoDup|].
    apply Object_entries_elem_of. by apply assoc_get_Some_In.
  - apply assoc_get_None. apply assoc_get_None in Hget.
    by rewrite Object_entries_perm.
Qed.

Lemma own_fields_get fs d :
  Js.assoc_get (own_fields fs) d =
  if bool_decide (d = str "__proto__") then None else Js.assoc_get fs d.
Proof.
  induction fs as [|[k v] fs IH]; cbn [own_fields List.filter fst].
  - by case_bool_decide.
  - fold (own_fields fs). destruct (bool_decide (k = str "__proto__")) eqn:Hk; cbn [negb].
    + apply bool_decide_eq_true in Hk. rewrite IH. case_bool_decide as Hd; [done|].
      cbn [Js.assoc_get]. rewrite decide_False; [done|]. congruence.
    + apply bool_decide_eq_false in Hk. cbn [Js.assoc_get]. rewrite IH.
      case_bool_decide as Hd; [|done]. rewrite decide_False; [done|]. congruence.
Qed.

Lemma own_fields_keys fs k : k ∈ (own_fields fs).*1 → k ∈ fs.*1.
Proof.
  intros ([k' v] & -> & Hin)%list_elem_of_fmap.
  apply list_elem_of_In, filter_In in Hin as [Hin _].
  apply list_elem_of_fmap. exists (k', v). split; [done|]. by apply list_elem_of_In.
Qed.

Lemma own_fields_NoDup fs : NoDup fs.*1 → NoDup (own_fields fs).*1.
Proof.
  induction fs as [|[k v] fs IH]; [done|]. rewrite fmap_cons, NoDup_cons.
  intros [Hk Hnd]. cbn [own_fields List.filter]. fold (own_fields fs).
  destruct (negb _); [|auto]. rewrite fmap_cons. apply NoDup_cons. split; [|auto].
  intros Hin. apply Hk. by apply own_fields_keys.
Qed.

(** The field of a document that [_findDocs] can see. *)
Lemma listed_cons st term terms d :
  listed st (term :: terms) d =
  match (if bool_decide (d = str "__proto__") then None else field st term d) with
  | Some v => v :: listed st terms d
  | None => listed st terms d
  end.
Proof.
  unfold listed. case_bool_decide; [done|]. cbn [omap list_omap].
  by destruct (field st term d).
Qed.

Lemma findDocs_loop_spec st terms :
  consistent st →
  ∀ docs, NoDup docs.*1 →
    ∃ docs', findDocs_loop terms docs st = (Return docs', st) ∧
      NoDup docs'.*1 ∧
      ∀ d, Js.assoc_get docs' d =
           match listed st terms d with
           | [] => Js.assoc_get docs d
           | l => Some (default [] (Js.assoc_get docs d) ++ l)
           end.
Proof.
  intros Hc. induction terms as [|term terms IH]; intros docs Hnd.
  - exists docs. split; [done|]. split; [done|]. intros d. unfold listed.
    by case_bool_decide.
  - cbn [findDocs_loop]. rewrite bind_unfold. unfold words_findOne. cbn [gets].
    set (docs1 := match own_fields <$> wordsTable (db st) !! term with
                  | Some fields => fold_left findDocs_entry (Js.Object_entries fields) docs
                  | None => docs
                  end).
    assert (Hnd1 : NoDup docs1.*1).
    { unfold docs1. destruct (wordsTable (db st) !! term); [|done].
      by apply fold_entries_NoDup. }
    assert (Hget1 : ∀ d, Js.assoc_get docs1 d =
              match (if bool_decide (d = str "__proto__") then None
                     else field st term d) with
              | Some v => Some (default [] (Js.assoc_get docs d) ++ [v])
              | None => Js.assoc_get docs d
              end).
    { intros d. unfold docs1, field.
      destruct (wordsTable (db st) !! term) as [fields|] eqn:Hl;
        [|by case_bool_decide].
      destruct (cons_fields _ Hc _ _ Hl) as (Hndf & Hid). cbn [fmap option_fmap option_map].
      rewrite fold_entries_get.
      - rewrite Object_entries_get by by apply own_fields_NoDup.
        by rewrite own_fields_get.
      - by apply Object_entries_NoDup, own_fields_NoDup.
      - rewrite Object_entries_perm. intros Hin. by apply Hid, own_fields_keys. }
    destruct (IH docs1 Hnd1) as (docs' & Hrun & Hnd' & Hget').
    exists docs'. split; [done|]. split; [done|].
    intros d. rewrite Hget', Hget1, listed_cons.
    destruct (if bool_decide (d = str "__proto__") then None else field st term d)
      as [v|]; cbn.
    + destruct (listed st terms d); cbn; [done|]. by rewrite <- app_assoc.
    + done.
Qed.

(** What [_findDocs] returns: one entry per document that the object of
    some term lists, holding the fields of the matching terms. *)
Lemma findDocs_spec st terms :
  consistent st →
  ∃ docs, _findDocs terms st = (Return docs, st) ∧
    NoDup docs.*1 ∧
    (∀ d l, (d, l) ∈ docs ↔ l = listed st terms d ∧ l ≠ []).
Proof.
  intros Hc. unfold _findDocs.
  destruct (findDocs_loop_spec st terms Hc []) as (docs & Hrun & Hnd & Hget);
    [constructor|].
  exists docs. split; [done|]. split; [done|]. intros d l.
  rewrite (assoc_get_In docs d l Hnd), Hget. cbn.
  destruct (listed st terms d) as [|occ m].
  - split; [done|]. by intros [-> ?].
  - split; [by intros [= <-]|]. by intros [-> _].
Qed.

(** *** Fields that hold an array [[count, offset]] *)

Lemma as_pair_Some v occ : as_pair v = Some occ → v = pair_value occ.
Proof.
  destruct v as [| |[|[c| | |] [|[o| | |] [|]]]|]; try done.
  by intros [= <-].
Qed.

Lemma as_pair_value occ : as_pair (pair_value occ) = Some occ.
Proof. by destruct occ. Qed.

Lemma pairs_back l :
  Forall (λ v, is_Some (as_pair v)) l → pair_value <$> omap as_pair l = l.
Proof.
  induction 1 as [|v l [occ Hv] Hl IH]; [done|]. cbn. rewrite Hv. cbn.
  by rewrite IH, (as_pair_Some _ _ Hv).
Qed.

Lemma omap_as_pair_nil l :
  Forall (λ v, is_Some (as_pair v)) l → omap as_pair l = [] → l = [].
Proof. destruct 1 as [|v l [occ Hv] Hl]; [done|]. cbn. by rewrite Hv. Qed.

Lemma fold_left_counts (l : list occurrence) (a : N) :
  fold_left (λ acc wordInfo, acc + wordInfo.1) l a = a + sum_counts l.
Proof.
  revert a. induction l as [|o l IH]; intros a; cbn; [lia|].
  rewrite IH. unfold sum_counts. lia.
Qed.

(** On arrays [[count, offset]] the score is the sum of the counts and the
    offsets are the second elements. *)
Lemma score_of_pairs (occs : list occurrence) :
  score_of (pair_value <$> occs) =
  Return (PNumber (fold_left (λ acc wordInfo, acc + wordInfo.1) occs 0)).
Proof.
  unfold score_of.
  assert (Hgen : ∀ a : N,
    reduce_outcome (λ acc wordInfo, x ← js_index wordInfo 0; js_add acc x)
      (pair_value <$> occs) (PNumber a) =
    Return (PNumber (fold_left (λ acc wordInfo, acc + wordInfo.1) occs a)));
    [|apply Hgen].
  induction occs as [|[c o] occs IH]; intros a; [done|].
  cbn [fmap list_fmap reduce_outcome]. cbn [fmap list_fmap] in IH.
  change (js_index (pair_value (c, o)) 0) with (Return (JPrim (PNumber c))).
  cbn [mbind outcome_bind js_add ToPrimitive ToNumber mret outcome_ret].
  apply IH.
Qed.

Lemma offsets_of_pairs (occs : list occurrence) contents :
  offsets_of (pair_value <$> occs) contents = Return (snd <$> occs).
Proof.
  unfold offsets_of.
  assert (Hidx : map_outcome (λ wordInfo, js_index wordInfo 1) (pair_value <$> occs)
                 = Return ((λ occ : occurrence, JPrim (PNumber occ.2)) <$> occs)).
  { induction occs as [|[c o] occs IH]; [done|].
    cbn [fmap list_fmap map_outcome]. cbn [fmap list_fmap] in IH. rewrite IH. done. }
  rewrite Hidx. cbn [mbind outcome_bind].
  induction occs as [|[c o] occs IH]; [done|].
  cbn [fmap list_fmap map_outcome]. cbn [fmap list_fmap] in IH.
  rewrite IH; [done|]. clear IH Hidx.
  induction occs as [|[c' o'] occs IH]; [done|].
  cbn [fmap list_fmap map_outcome]. cbn [fmap list_fmap] in IH. by rewrite IH.
Qed.

Lemma find_loop_eq st (docs : list (jsstring * list occurrence)) :
  (∀ d, d ∈ docs.*1 → is_Some (contentsTable (db st) !! d)) →
  find_loop ((λ e : jsstring * list occurrence, (e.1, pair_value <$> e.2)) <$> docs) st =
  (Return (result_of st <$> docs), st).
Proof.
  induction docs as [|[n infos] docs IH]; intros Hall; [done|].
  cbn [fmap list_fmap fst snd find_loop]. rewrite bind_unfold.
  destruct (Hall n) as [c Hc]; [left|].
  rewrite (docContent_present _ _ _ Hc). rewrite bind_unfold.
  unfold lift at 1. cbn [fmap list_fmap] in *. rewrite score_of_pairs.
  rewrite bind_unfold. unfold lift at 1. rewrite offsets_of_pairs.
  rewrite bind_unfold, IH.
  - cbn. unfold result_of. cbn. by rewrite Hc.
  - intros d Hd. apply Hall. by right.
Qed.

Lemma omap_bind {A B C} (f : A → option B) (g : B → option C) (l : list A) :
  omap g (omap f l) = omap (λ x, f x ≫= g) l.
Proof.
  induction l as [|x l IH]; [done|]. cbn. destruct (f x) as [y|]; cbn; [|done].
  destruct (g y); cbn; by rewrite IH.
Qed.

Lemma listed_fields st terms d v :
  v ∈ listed st terms d → ∃ term, field st term d = Some v.
Proof.
  unfold listed. case_bool_decide; [by intros ?%elem_of_nil|].
  intros (term & _ & Hf)%list_elem_of_omap. eauto.
Qed.

Lemma field_regular st term d v :
  regular st → field st term d = Some v →
  is_Some (as_pair v) ∧ is_Some (contentsTable (db st) !! d).
Proof.
  intros Hr. unfold field.
  destruct (wordsTable (db st) !! term) as [fields|] eqn:Hl; [|done].
  intros Hget%assoc_get_Some_In. by apply (Hr term fields).
Qed.

Lemma listed_matched st terms d :
  d ≠ str "__proto__" → omap as_pair (listed st terms d) = matched st terms d.
Proof.
  intros Hd. unfold listed, matched, stored.
  rewrite bool_decide_eq_false_2 by done. apply omap_bind.
Qed.

Section SearchProofs.
Context `{Collator} `{!CollatorLaws}.

Lemma result_le_numbers a b sa sb :
  score a = PNumber sa → score b = PNumber sb →
  result_le a b ↔
  sb < sa ∨ (sa = sb ∧ (localeCompare (name a) (name b) <= 0)%Z).
Proof.
  intros Ha Hb. unfold result_le, compareResults. rewrite Ha, Hb. cbn [ToNumber].
  case_bool_decide; [lia|].
  split; [intros ?; right; split; [lia|done]|].
  intros [?|[_ ?]]; [lia|done].
Qed.

#[global] Instance result_le_total : Total result_le.
Proof.
  intros a b. unfold result_le, compareResults.
  pose proof (localeCompare_flip (name a) (name b)) as Hflip.
  destruct (ToNumber (score a)) as [sa|], (ToNumber (score b)) as [sb|];
    repeat case_bool_decide; lia.
Qed.

(** [find] returns, ordered by [compareResults], one [Result] per matching
    document. *)
Lemma find_eq st text :
  consistent st → regular st →
  ∃ docs,
    find text st = (Return (merge_sort result_le (result_of st <$> docs)), st) ∧
    NoDup docs.*1 ∧
    (∀ d l, (d, l) ∈ docs ↔
       d ≠ str "__proto__" ∧ l = matched st (query_terms st text) d ∧ l ≠ []).
Proof.
  intros Hc Hr. unfold find, words, _wordsLow.
  rewrite !bind_unfold. cbn [gets mret async_ret ret].
  fold (query_terms st text). set (terms := query_terms st text).
  destruct (findDocs_spec st terms Hc) as (raw & Hrun & Hnd & Hraw).
  assert (Hpairs : ∀ d l, (d, l) ∈ raw →
            d ≠ str "__proto__" ∧ Forall (λ v, is_Some (as_pair v)) l ∧
            is_Some (contentsTable (db st) !! d)).
  { intros d l [-> Hne]%Hraw. split; [|split].
    - intros ->. apply Hne. unfold listed. by rewrite bool_decide_eq_true_2.
    - apply Forall_forall. intros v (term & Hf)%listed_fields.
      by apply (field_regular st term d v).
    - destruct (listed st terms d) as [|v l] eqn:Hl; [done|].
      destruct (listed_fields st terms d v) as (term & Hf); [rewrite Hl; left|].
      by apply (field_regular st term d v). }
  set (docs := (λ e : jsstring * list value, (e.1, omap as_pair e.2)) <$> raw).
  assert (Hback : (λ e : jsstring * list occurrence, (e.1, pair_value <$> e.2)) <$> docs
                  = raw).
  { unfold docs. rewrite <- list_fmap_compose.
    rewrite <- (list_fmap_id raw) at 2. apply Forall_fmap_ext, Forall_forall.
    intros [d l] Hin. cbn. f_equal. apply pairs_back. by apply (Hpairs d l). }
  assert (Hkeys : docs.*1 = raw.*1).
  { unfold docs. rewrite <- list_fmap_compose. by apply list_fmap_ext. }
  exists docs. rewrite bind_unfold, Hrun, bind_unfold, <- Hback, find_loop_eq.
  - split; [done|]. split; [by rewrite Hkeys|]. intros d l. unfold docs.
    rewrite list_elem_of_fmap. split.
    + intros ([d' l0] & [= -> ->] & Hin). cbn [fst snd].
      destruct (Hpairs _ _ Hin) as (Hd & Hall & _).
      apply Hraw in Hin as [-> Hne]. rewrite (listed_matched _ _ _ Hd).
      split; [done|]. split; [done|]. rewrite <- (listed_matched _ _ _ Hd).
      intros Hnil. by apply Hne, omap_as_pair_nil.
    + intros (Hd & -> & Hne). exists (d, listed st terms d). cbn [fst snd].
      rewrite (listed_matched _ _ _ Hd). split; [done|]. apply Hraw.
      split; [done|]. intros Hnil. apply Hne.
      by rewrite <- (listed_matched _ _ _ Hd), Hnil.
  - intros d. rewrite Hkeys. intros ([d' l] & -> & Hin)%list_elem_of_fmap.
    by apply (Hpairs d' l).
Qed.

End SearchProofs.

Lemma result_of_names st (docs : list (jsstring * list occurrence)) :
  name <$> (result_of st <$> docs) = docs.*1.
Proof. induction docs as [|e docs IH]; [done|]. cbn. by rewrite <- IH. Qed.

(** A list that [sort] leaves in order, each element before the next, is in
    order throughout when its scores are numbers. *)
Lemma Sorted_ranked `{Collator} `{!CollatorLaws} (l : list Result) :
  Forall (λ r, ∃ s, score r = PNumber s) l →
  Sorted result_le l → StronglySorted ranked l.
Proof.
  intros Hnum Hs. induction Hs as [|r l Hs IH Hhd]; [constructor|].
  apply Forall_cons in Hnum as [[s Hr] Hnum]. specialize (IH Hnum).
  constructor; [done|].
  destruct Hhd as [|b l Hrb]; [constructor|].
  apply Forall_cons in Hnum as [[sb Hb] Hnum].
  assert (Hrb' : ranked r b).
  { exists s, sb. split; [done|]. split; [done|].
    by apply (result_le_numbers r b). }
  constructor; [done|].
  apply StronglySorted_inv in IH as [_ Hall].
  eapply Forall_impl; [exact Hall|]. intros c (sb' & sc & Hb' & Hc & Hbc).
  destruct Hrb' as (s' & sb'' & Hr' & Hb'' & Hrb').
  exists s, sc. split; [done|]. split; [done|].
  assert (sb' = sb) by congruence. assert (sb'' = sb) by congruence.
  assert (s' = s) by congruence. subst.
  destruct Hrb' as [?|[? Hab]], Hbc as [?|[? Hbc]]; try (left; lia).
  right. split; [lia|]. by apply (localeCompare_trans _ (name b)).
Qed.


(** ** The depth bound of the conversions

    [ToPrimitive] is run with the size of its argument for a bound: every
    conversion it starts within is that of a value read from its argument,
    which is smaller, so that the bound is never met and a larger one gives
    the same result. *)

Lemma size_pos v : (1 ≤ size v)%nat.
Proof. destruct v; cbn; lia. Qed.

Lemma size_elem (l : list value) i v :
  l !! i = Some v → (size v ≤ list_sum (map size l))%nat.
Proof.
  revert i. induction l as [|x l IH]; intros [|i] Hl; try done;
    change (list_sum (map size (x :: l))) with (size x + list_sum (map size l))%nat.
  - injection Hl as ->. lia.
  - specialize (IH i Hl). lia.
Qed.

Lemma size_field (fs : list (jsstring * value)) k v :
  (k, v) ∈ fs → (size v ≤ list_sum (map (λ kv, size kv.2) fs))%nat.
Proof.
  induction fs as [|x fs IH]; [by intros ?%elem_of_nil|].
  change (list_sum (map (λ kv, size kv.2) (x :: fs)))
    with (size x.2 + list_sum (map (λ kv : jsstring * value, size kv.2) fs))%nat.
  intros [<-|Hin]%elem_of_cons; [cbn [snd]; lia|]. specialize (IH Hin). lia.
Qed.

Lemma Get_size_bounded n :
  ∀ o k v, (size o ≤ n)%nat → Get o k = Data v →
    (∃ m, v = VNum m) ∨ (size v < size o)%nat.
Proof.
  induction n as [|n IH]; intros o k v Hn Hget.
  { pose proof (size_pos o). lia. }
  destruct o as [m| |l|fs]; cbn [Get] in Hget; try done.
  - destruct k as [i| | | |]; try done.
    + destruct (l !! N.to_nat i) as [x|] eqn:Hl; [|done].
      injection Hget as ->. right. apply size_elem in Hl. cbn [size]. lia.
    + injection Hget as <-. left. by eexists.
  - destruct (Js.assoc_get (own_fields fs) (key_name k)) as [x|] eqn:Hown.
    + injection Hget as ->. right.
      apply assoc_get_Some_In in Hown.
      apply list_elem_of_In, filter_In in Hown as [Hin _].
      apply list_elem_of_In, size_field in Hin. cbn [size]. lia.
    + clear Hown. cbn [size] in *.
      assert (Hsum : (list_sum (map (λ kv, size kv.2) fs) ≤ n)%nat) by lia.
      clear Hn. revert Hget Hsum.
      induction fs as [|[name p] fs IHfs]; intros Hget Hsum.
      { by destruct k. }
      change (list_sum (map (λ kv, size kv.2) ((name, p) :: fs)))
        with (size p + list_sum (map (λ kv : jsstring * value, size kv.2) fs))%nat
        in *.
      case_bool_decide.
      * destruct p as [m| |l|fs']; [by destruct k|done| |].
        -- destruct (IH (VArr l) k v) as [?|?]; [lia|done|by left|right; lia].
        -- destruct (IH (VDoc fs') k v) as [?|?]; [lia|done|by left|right; lia].
      * destruct IHfs as [?|?]; [done|lia|by left|right; lia].
Qed.

Lemma Get_size o k v :
  Get o k = Data v → (∃ m, v = VNum m) ∨ (size v < size o)%nat.
Proof. by apply (Get_size_bounded (size o)). Qed.

Lemma map_outcome_ext {A B} (f g : A → outcome B) l :
  (∀ x, f x = g x) → map_outcome f l = map_outcome g l.
Proof.
  intros Hfg. induction l as [|x l IH]; [done|]. cbn. by rewrite Hfg, IH.
Qed.

Lemma outcome_bind_ext {A B} (m1 m2 : outcome A) (k1 k2 : A → outcome B) :
  m1 = m2 → (∀ a, k1 a = k2 a) → m1 ≫= k1 = m2 ≫= k2.
Proof. intros -> Hk. destruct m2; [apply Hk|done]. Qed.

Lemma ToPrimitive_fuel_enough n :
  ∀ m o, (size o ≤ n)%nat → (size o ≤ m)%nat →
    ToPrimitive_fuel n o = ToPrimitive_fuel m o.
Proof.
  induction n as [|n IH]; intros m o Hn Hm.
  { pose proof (size_pos o). lia. }
  destruct m as [|m]; [pose proof (size_pos o); lia|].
  cbn [ToPrimitive_fuel].
  assert (Hsub : ∀ k x, Get o k = Data x → (∀ i, x ≠ VNum i) →
            ToPrimitive_fuel n x = ToPrimitive_fuel m x).
  { intros k x Hget Hx. destruct (Get_size o k x Hget) as [[i ->]|Hlt].
    - by destruct (Hx i).
    - apply IH; lia. }
  destruct (Get o KToString) as [|?|[]]; try done.
  destruct (Get o KJoin) as [|?|[]]; try done.
  apply outcome_bind_ext.
  - destruct (Get o KLength) as [|[]|] eqn:Hlen; try done;
      by rewrite (Hsub KLength _ Hlen).
  - intros len. apply outcome_bind_ext; [|done].
    apply map_outcome_ext. intros i.
    destruct (Get o (KIndex (N.of_nat i))) as [|[]|] eqn:Hi; try done;
      by rewrite (Hsub _ _ Hi).
Qed.

Lemma ToPrimitive_fuel_stable o n :
  (size o ≤ n)%nat → ToPrimitive_fuel n o = ToPrimitive_fuel (size o) o.
Proof. intros Hn. by apply ToPrimitive_fuel_enough. Qed.
Lemma matched_contents st terms d :
  regular st → matched st terms d ≠ [] →
  is_Some (contentsTable (db st) !! d).
Proof.
  intros Hr Hm. unfold matched in Hm.
  destruct (omap _ terms) as [|occ l] eqn:Hom; [done|].
  assert (Hin : occ ∈ omap (λ term, stored st term d) terms) by (rewrite Hom; left).
  apply list_elem_of_omap in Hin as (term & _ & Hst). unfold stored in Hst.
  destruct (field st term d) as [v|] eqn:Hf; [|done].
  by apply (field_regular st term d v).
Qed.

(** X18. Ranking.  In a state reached under plain field names [find(text)]
    returns; its results are in descending order of score and, among equal
    scores, in ascending order of name under [localeCompare]; there is
    exactly one result per document, other than one named [__proto__], that
    some query term matches, and its score is the sum of the stored counts
    of the matching terms. *)
Theorem find_ranked `{Collator} `{!CollatorLaws} (st : DocFinder) (text : jsstring) :
  plainly_reachable st →
  ∃ results,
    find text st = (Return results, st) ∧
    StronglySorted ranked results ∧
    NoDup (name <$> results) ∧
    (∀ d, d ∈ name <$> results ↔
          d ≠ str "__proto__" ∧ matched st (query_terms st text) d ≠ []) ∧
    (∀ r, r ∈ results →
       score r = PNumber (sum_counts (matched st (query_terms st text) (name r)))).
Proof.
  intros Hreach.
  pose proof (plainly_reachable_consistent _ Hreach) as Hc.
  pose proof (plainly_reachable_regular _ Hreach) as Hr.
  destruct (find_eq st text Hc Hr) as (docs & Hrun & Hnd & Hdocs).
  eexists. split; [exact Hrun|]. split; [|split; [|split]].
  - apply Sorted_ranked; [|apply Sorted_merge_sort; apply _].
    rewrite merge_sort_Permutation. apply Forall_forall.
    intros r ([d l] & -> & _)%list_elem_of_fmap. by eexists.
  - by rewrite merge_sort_Permutation, result_of_names.
  - intros d. rewrite merge_sort_Permutation, result_of_names.
    rewrite list_elem_of_fmap. split.
    + intros ([d' l] & -> & Hin). by apply Hdocs in Hin as (? & -> & ?).
    + intros [Hd Hne]. exists (d, matched st (query_terms st text) d).
      split; [done|]. by apply Hdocs.
  - intros r Hr'. rewrite merge_sort_Permutation in Hr'.
    apply list_elem_of_fmap in Hr' as ([d l] & -> & Hin).
    apply Hdocs in Hin as (_ & -> & _). cbn. by rewrite fold_left_counts.
Qed.

(** The collation by code units satisfies the interface. *)
Lemma code_unit_compare_le a b : (code_unit_compare a b <= 0)%Z ↔ Js.le a b.
Proof. unfold code_unit_compare, Js.le. destruct (Js.compare a b); split; done || lia. Qed.

Lemma code_unit_compare_flip a b :
  Z.sgn (code_unit_compare b a) = (- Z.sgn (code_unit_compare a b))%Z.
Proof.
  unfold code_unit_compare. rewrite (compare_flip a b).
  by destruct (Js.compare a b).
Qed.

Lemma code_unit_compare_trans a b c :
  (code_unit_compare a b <= 0)%Z → (code_unit_compare b c <= 0)%Z →
  (code_unit_compare a c <= 0)%Z.
Proof. rewrite !code_unit_compare_le. apply Js_le_trans. Qed.

#[global] Instance code_unit_laws : CollatorLaws (H:=code_unit_collator).
Proof.
  split; [apply code_unit_compare_flip|apply code_unit_compare_trans].
Qed.

Lemma ranking_state_reachable : plainly_reachable ranking_state.
Proof.
  apply plainly_addContent; [|done].
  apply plainly_addContent; [|done]. apply plainly_create.
Qed.

Lemma find_ranked_witness :
  ∃ results,
    find (H:=code_unit_collator) (str "apple banana") ranking_state =
      (Return results, ranking_state) ∧
    StronglySorted (ranked (H:=code_unit_collator)) results ∧
    (name <$> results) = [str "d2"; str "d1"] ∧
    (score <$> results) = [PNumber 6; PNumber 3].
Proof.
  destruct (find_ranked (H:=code_unit_collator) ranking_state (str "apple banana")
              ranking_state_reachable) as (results & Hrun & Hsorted & _).
  exists results. split; [exact Hrun|]. split; [exact Hsorted|].
  assert (Hres : (find (H:=code_unit_collator) (str "apple banana") ranking_state).1
                 = Return results) by (by rewrite Hrun).
  vm_compute in Hres. injection Hres as <-. split; reflexivity.
Defined.

(** C3, at the failing input.  A document name with a dot is a path for the
    store: the ingestion of ["a.txt"] puts its occurrence under the field
    ["a"] as the embedded document [{txt: [1, 0]}].  With a document ["a"]
    in the contents, [find("foo")] returns for ["a"], which does not hold
    the word, a result whose score is [NaN]; without it, [find] throws the
    [NOT_FOUND] of [docContent("a")]. *)
Theorem find_dotted_name :
  (addContent (str "a.txt") (str "foo")
     (addContent (str "a") (str "x") (create empty_db)).2).1 = Return tt ∧
  field dotted_state_a (str "foo") (str "a") =
    Some (VDoc [(str "txt", pair_value (1, 0))]) ∧
  field dotted_state_a (str "foo") (str "a.txt") = None ∧
  (find (H:=code_unit_collator) (str "foo") dotted_state_a).1 =
    Return [mkResult (str "a") PNaN [str "x" ++ [LF]]] ∧
  (find (H:=code_unit_collator) (str "foo") dotted_state).1 =
    Throw (Error (str "NOT_FOUND") (str "doc a not found")).
Proof. repeat split; vm_compute; reflexivity. Qed.

(** ** Excerpt lines *)

Lemma line_start_unique contents o i1 i2 :
  line_start contents o i1 → line_start contents o i2 → i1 = i2.
Proof.
  intros (H1 & Hle1 & Hno1) (H2 & Hle2 & Hno2).
  destruct (Nat.lt_trichotomy i1 i2) as [Hlt|[->|Hlt]]; [|done|].
  - destruct H2 as [->|(j & -> & Hj)]; [lia|].
    destruct (Hno1 j); [lia|done].
  - destruct H1 as [->|(j & -> & Hj)]; [lia|].
    destruct (Hno2 j); [lia|done].
Qed.

Lemma found_ok_snoc c x from found :
  found_ok c from found →
  found_ok (c ++ [x]) from
    (if bool_decide (x = LF) then
       (if bool_decide (length c ≤ from)%nat then Z.of_nat (length c) else found)
     else found).
Proof.
  intros Hf. case_bool_decide as Hx; [case_bool_decide as Hle|].
  - subst x. right. exists (length c). split; [done|]. split; [done|]. split.
    + by rewrite lookup_app_r, Nat.sub_diag by lia.
    + intros j' [Hj' _]. rewrite lookup_ge_None_2; [done|].
      rewrite length_app. cbn. lia.
  - destruct Hf as [[-> Hno]|(j & -> & Hj & Hl & Hno)]; [left|right].
    + split; [done|]. intros j Hj. rewrite lookup_app_l by lia. auto.
    + exists j. split; [done|]. split; [done|]. split.
      * rewrite lookup_app_l; [done|]. by apply lookup_lt_Some in Hl.
      * intros j' Hj'. rewrite lookup_app_l by lia. auto.
  - assert (Hat : ∀ j, (c ++ [x]) !! j = Some LF → c !! j = Some LF).
    { intros j Hj. destruct (decide (j < length c)%nat).
      - by rewrite lookup_app_l in Hj.
      - rewrite lookup_app_r in Hj by lia.
        destruct (j - length c)%nat as [|m]; [cbn in Hj; by injection Hj|].
        by destruct m. }
    destruct Hf as [[-> Hno]|(j & -> & Hj & Hl & Hno)]; [left|right].
    + split; [done|]. intros j Hj Hl. by apply (Hno j Hj), Hat.
    + exists j. split; [done|]. split; [done|]. split.
      * rewrite lookup_app_l; [done|]. by apply lookup_lt_Some in Hl.
      * intros j' Hj' Hl'. by apply (Hno j' Hj'), Hat.
Qed.

Lemma lastIndexOf_from_spec s :
  ∀ pre found from,
    found_ok pre (N.to_nat from) found →
    found_ok (pre ++ s) (N.to_nat from)
      (Js.lastIndexOf_from s (N.of_nat (length pre)) from found).
Proof.
  induction s as [|x s IH]; intros pre found from Hf.
  - by rewrite app_nil_r.
  - cbn [Js.lastIndexOf_from]. destruct (from <? N.of_nat (length pre)) eqn:Hlt.
    + apply N.ltb_lt in Hlt.
      destruct Hf as [[-> Hno]|(j & -> & Hj & Hl & Hno)]; [left|right].
      * split; [done|]. intros j Hj. rewrite lookup_app_l by lia. auto.
      * exists j. split; [done|]. split; [done|]. split.
        -- rewrite lookup_app_l; [done|]. by apply lookup_lt_Some in Hl.
        -- intros j' Hj'. rewrite lookup_app_l by lia. auto.
    + apply N.ltb_ge in Hlt.
      pose proof (found_ok_snoc pre x (N.to_nat from) found Hf) as Hsnoc.
      rewrite (bool_decide_eq_true_2 (length pre ≤ N.to_nat from)%nat) in Hsnoc by lia.
      specialize (IH (pre ++ [x]) _ from Hsnoc).
      rewrite <- app_assoc in IH. cbn in IH.
      rewrite length_app in IH. cbn in IH.
      replace (N.of_nat (length pre + 1)) with (N.of_nat (length pre) + 1) in IH by lia.
      replace (Z.of_N (N.of_nat (length pre))) with (Z.of_nat (length pre)) by lia.
      exact IH.
Qed.

Lemma start_of_spec contents o :
  (0 <= start_of contents o)%Z ∧
  line_start contents (N.to_nat o) (Z.to_nat (start_of contents o)).
Proof.
  unfold start_of, Js.lastIndexOf_LF.
  assert (Hspec : found_ok contents (N.to_nat o)
                    (Js.lastIndexOf_from contents 0 o (-1)%Z)).
  { apply (lastIndexOf_from_spec contents [] (-1)%Z o).
    left. split; [done|]. intros j _. by rewrite lookup_nil. }
  destruct Hspec as [[Heq Hno]|(j & Heq & Hj & Hl & Hno)]; rewrite Heq.
  - split; [lia|]. split; [by left|]. split; [cbn; lia|]. intros k Hk. apply Hno. lia.
  - split; [lia|]. replace (Z.to_nat (Z.of_nat j + 1)) with (S j) by lia.
    split; [right; eauto|]. split; [lia|]. intros k Hk. apply Hno. lia.
Qed.

Lemma indexOf_from_skip pre rest k from :
  (Z.of_N k + Z.of_nat (length pre) <= from)%Z →
  Js.indexOf_from (pre ++ rest) k from =
  Js.indexOf_from rest (k + N.of_nat (length pre)) from.
Proof.
  revert k. induction pre as [|x pre IH]; intros k Hle; cbn [app Js.indexOf_from length].
  - f_equal. lia.
  - cbn in Hle. rewrite (proj2 (Z.leb_gt _ _)) by lia. cbn [andb].
    rewrite IH by lia. f_equal. lia.
Qed.

Lemma indexOf_from_body body rest k from :
  LF ∉ body → (from <= Z.of_N k)%Z →
  Js.indexOf_from (body ++ LF :: rest) k from =
  (Z.of_N k + Z.of_nat (length body))%Z.
Proof.
  revert k. induction body as [|x body IH]; intros k Hno Hle;
    cbn [app Js.indexOf_from length].
  - rewrite (proj2 (Z.leb_le _ _)) by lia. rewrite bool_decide_eq_true_2 by done.
    cbn. lia.
  - apply not_elem_of_cons in Hno as [Hx Hno].
    rewrite (bool_decide_eq_false_2 (x = LF)) by congruence.
    rewrite andb_false_r. rewrite IH by (done || lia). lia.
Qed.

(** [contents.substring(i, contents.indexOf('\n', i) + 1)] is the line that
    starts at [i]. *)
Lemma substring_line contents i body rest :
  drop i contents = body ++ LF :: rest → LF ∉ body →
  Js.substring contents (Z.of_nat i)
    (Js.indexOf_LF contents (Z.of_nat i) + 1) = body ++ [LF].
Proof.
  intros Hdrop Hno.
  assert (Hlen : (i + length body + 1 + length rest = length contents)%nat).
  { apply (f_equal length) in Hdrop. rewrite length_drop, length_app in Hdrop.
    cbn in Hdrop. lia. }
  assert (Hidx : Js.indexOf_LF contents (Z.of_nat i) = Z.of_nat (i + length body)).
  { unfold Js.indexOf_LF. rewrite <- (take_drop i contents), Hdrop.
    rewrite indexOf_from_skip by (rewrite length_take; lia).
    rewrite indexOf_from_body; [|done|rewrite length_take; lia].
    rewrite length_take. lia. }
  rewrite Hidx. unfold Js.substring, Js.clamp.
  replace (Z.to_nat (Z.min (Z.max (Z.of_nat i) 0) (Z.of_nat (length contents))))
    with i by lia.
  replace (Z.to_nat (Z.min (Z.max (Z.of_nat (i + length body) + 1) 0)
                       (Z.of_nat (length contents))))
    with (i + length body + 1)%nat by lia.
  rewrite Nat.min_l, Nat.max_r by lia. rewrite Hdrop.
  replace (i + length body + 1 - i)%nat with (length (body ++ [LF]))
    by (rewrite length_app; cbn; lia).
  change (body ++ LF :: rest) with (body ++ [LF] ++ rest).
  rewrite app_assoc. by rewrite take_app_length.
Qed.

Lemma first_newline l :
  ∃ body rest, l ++ [LF] = body ++ LF :: rest ∧ LF ∉ body.
Proof.
  induction l as [|x l (body & rest & Heq & Hno)].
  - exists [], []. split; [done|apply not_elem_of_nil].
  - destruct (decide (x = LF)) as [->|Hx].
    + exists [], (l ++ [LF]). split; [done|apply not_elem_of_nil].
    + exists (x :: body), rest. cbn. rewrite Heq. split; [done|].
      apply not_elem_of_cons. split; [congruence|done].
Qed.

Lemma line_exists contents i :
  [LF] `suffix_of` contents → (i < length contents)%nat →
  ∃ body rest, drop i contents = body ++ LF :: rest ∧ LF ∉ body.
Proof.
  intros [c ->] Hi. rewrite length_app in Hi. cbn in Hi.
  rewrite drop_app_le by lia. apply first_newline.
Qed.

Lemma StronglySorted_strict (l : list Z) :
  StronglySorted Z.le l → NoDup l → StronglySorted Z.lt l.
Proof.
  induction 1 as [|x l Hl IH Hall]; intros Hnd; [constructor|].
  apply NoDup_cons in Hnd as [Hx Hnd]. constructor; [auto|].
  apply Forall_forall. intros y Hy. rewrite Forall_forall in Hall.
  specialize (Hall y Hy). destruct (decide (x = y)) as [->|?]; [done|lia].
Qed.

(** The lines of a result, from the stored content and the occurrences
    collected for the document. *)
Lemma result_lines n score offsets contents :
  [LF] `suffix_of` contents →
  ∃ starts : list nat,
    StronglySorted lt starts ∧
    (∀ i, i ∈ starts ↔ ∃ o, o ∈ offsets ∧ line_start contents (N.to_nat o) i) ∧
    Forall2 (λ i line, (i < length contents)%nat → line_at contents i line)
      starts (lines (OffsetResult_result n score offsets contents)).
Proof.
  intros Hnl. unfold OffsetResult_result. cbn [lines].
  fold (start_of contents).
  set (zs := merge_sort Z.le (Js.Set_from (map (start_of contents) offsets))).
  assert (Hzs : ∀ z, z ∈ zs ↔ ∃ o, o ∈ offsets ∧ z = start_of contents o).
  { intros z. unfold zs. rewrite merge_sort_Permutation, Set_from_elem_of.
    change (map (start_of contents) offsets) with (start_of contents <$> offsets).
    rewrite list_elem_of_fmap. naive_solver. }
  assert (Hpos : ∀ z, z ∈ zs → (0 <= z)%Z).
  { intros z (o & _ & ->)%Hzs. apply start_of_spec. }
  assert (Hsorted : StronglySorted Z.lt zs).
  { apply StronglySorted_strict.
    - apply StronglySorted_merge_sort; apply _.
    - unfold zs. rewrite merge_sort_Permutation. apply Set_from_NoDup. }
  exists (Z.to_nat <$> zs). split; [|split].
  - clear Hzs. induction Hsorted as [|z l Hl IH Hall]; [constructor|].
    rewrite fmap_cons. constructor.
    + apply IH. intros y Hy. apply Hpos. by right.
    + apply Forall_forall. intros i (y & -> & Hy)%list_elem_of_fmap.
      rewrite Forall_forall in Hall. specialize (Hall y Hy).
      pose proof (Hpos z (list_elem_of_here _ _)).
      pose proof (Hpos y (list_elem_of_further _ _ _ Hy)). lia.
  - intros i. rewrite list_elem_of_fmap. split.
    + intros (z & -> & (o & Ho & ->)%Hzs). exists o. split; [done|].
      apply start_of_spec.
    + intros (o & Ho & Hstart). exists (start_of contents o). split.
      * eapply line_start_unique; [exact Hstart|apply start_of_spec].
      * apply Hzs. eauto.
  - change (map ?f zs) with (f <$> zs). apply Forall2_fmap.
    apply Forall_Forall2_diag, Forall_forall. intros z Hz Hlt.
    destruct (line_exists contents (Z.to_nat z) Hnl Hlt) as (body & rest & Hdrop & Hno).
    exists body, rest. split; [done|]. split; [done|].
    rewrite <- (substring_line contents (Z.to_nat z) body rest Hdrop Hno).
    rewrite Z2Nat.id by by apply Hpos. done.
Qed.

(** C4, counterexample.  For the document ["alpha beta\ngamma alpha\n"] the
    search for "alpha" returns score 2 and the single line of the first
    occurrence, not the two lines. *)
Lemma find_alpha_not_two_lines :
  (find (H:=code_unit_collator) (str "alpha") excerpt_state).1 =
    Return [mkResult (str "doc") 2 [str "alpha beta" ++ [LF]]] ∧
  (find (H:=code_unit_collator) (str "alpha") excerpt_state).1 ≠
    Return [mkResult (str "doc") 2
              [str "alpha beta" ++ [LF]; str "gamma alpha" ++ [LF]]].
Proof. split; [vm_compute; reflexivity|vm_compute; discriminate]. Qed.

(** C4, amended.  In a state reached under plain field names, the lines of
    each result of [find(text)] are obtained from the stored content of the
    document and the first-occurrence offsets stored for the matching
    terms: the line starts of these offsets, without duplicates and in
    ascending order, and for each start (inside the content) the line from
    it up to and including the next newline.  For the document
    ["alpha beta\ngamma alpha\n"] the search for "alpha" yields score 2 and
    exactly one line, ["alpha beta\n"]. *)
Theorem find_lines `{Collator} (st : DocFinder) (text : jsstring) :
  plainly_reachable st →
  (∃ results,
     find text st = (Return results, st) ∧
     ∀ r, r ∈ results →
       ∃ contents starts,
         contentsTable (db st) !! name r = Some contents ∧
         StronglySorted lt starts ∧
         (∀ i, i ∈ starts ↔
            ∃ occ, occ ∈ matched st (query_terms st text) (name r) ∧
                   line_start contents (N.to_nat occ.2) i) ∧
         Forall2 (λ i line, (i < length contents)%nat → line_at contents i line)
           starts (lines r)) ∧
  find (str "alpha") excerpt_state =
    (Return [mkResult (str "doc") 2 [str "alpha beta" ++ [LF]]], excerpt_state).
Proof.
  intros Hreach. split; [|vm_compute; reflexivity].
  pose proof (plainly_reachable_consistent _ Hreach) as Hc.
  pose proof (plainly_reachable_regular _ Hreach) as Hreg.
  destruct (find_eq st text Hc Hreg) as (docs & Hrun & Hnd & Hdocs).
  eexists. split; [exact Hrun|]. intros r Hr.
  rewrite merge_sort_Permutation in Hr.
  apply list_elem_of_fmap in Hr as ([d l] & -> & Hin).
  apply Hdocs in Hin as (_ & -> & Hne).
  destruct (matched_contents st _ d Hreg Hne) as [contents Hcont].
  unfold result_of. cbn [fst snd]. rewrite Hcont. cbn [default].
  destruct (result_lines d
    (PNumber (fold_left (λ acc wordInfo, acc + wordInfo.1)
                (matched st (query_terms st text) d) 0))
    (map snd (matched st (query_terms st text) d)) contents
    (cons_contents _ Hc _ _ Hcont)) as (starts & Hsorted & Hstarts & Hlines).
  exists contents, starts. split; [done|]. split; [done|]. split; [|done].
  intros i. rewrite Hstarts. split.
  - intros (o & Ho & Hstart).
    change (map snd ?l) with (snd <$> l) in Ho.
    apply list_elem_of_fmap in Ho as (occ & -> & Hocc). eauto.
  - intros (occ & Hocc & Hstart). exists occ.2. split; [|done].
    change (map snd ?l) with (snd <$> l). apply list_elem_of_fmap. eauto.
Qed.

Lemma find_lines_witness :
  ∃ results,
    find (H:=code_unit_collator) (str "gamma alpha") excerpt_state =
      (Return results, excerpt_state) ∧
    (lines <$> results) = [[str "alpha beta" ++ [LF]; str "gamma alpha" ++ [LF]]].
Proof.
  destruct (find_lines (H:=code_unit_collator) excerpt_state (str "gamma alpha"))
    as [(results & Hrun & _) _].
  - apply plainly_addContent; [apply plainly_create|done].
  - exists results. split; [exact Hrun|].
    assert (Hres : (find (H:=code_unit_collator) (str "gamma alpha") excerpt_state).1
                   = Return results) by (by rewrite Hrun).
    vm_compute in Hres. injection Hres as <-. reflexivity.
Defined.

(** ** The inverted index after an ingestion *)

Lemma pairs_of_nil w ws : pairs_of w ws = [] ↔ w ∉ ws.*1.
Proof.
  unfold pairs_of. induction ws as [|[w' o] ws IH]; cbn.
  - split; [intros _; apply not_elem_of_nil|done].
  - rewrite not_elem_of_cons. case_bool_decide as Hw; cbn in Hw.
    + subst. split; [done|]. by intros [? _].
    + rewrite IH. split; [intros ?; split; [congruence|done]|by intros [_ ?]].
Qed.

Lemma makeIndex_step_get index w' o' w :
  w ≠ str "constructor" →
  Js.assoc_get (makeIndex_step index (w', o')) w =
  if decide (w' = w) then
    Some match Js.assoc_get index w with
         | Some (WordInfo c o) => WordInfo (c + 1) o
         | Some ObjectFunction => ObjectFunction
         | None => WordInfo 1 o'
         end
  else Js.assoc_get index w.
Proof.
  intros Hw. unfold makeIndex_step. rewrite assoc_get_set.
  destruct (decide (w' = w)) as [->|Hne]; [|done].
  unfold index_get. destruct (Js.assoc_get index w) as [[c o|]|]; [done..|].
  by rewrite bool_decide_eq_false_2.
Qed.

Lemma fold_makeIndex_get ws :
  ∀ index w, w ≠ str "constructor" →
    Js.assoc_get (fold_left makeIndex_step ws index) w =
    match pairs_of w ws with
    | [] => Js.assoc_get index w
    | p :: ps =>
        Some match Js.assoc_get index w with
             | Some (WordInfo c o) => WordInfo (c + N.of_nat (length (p :: ps))) o
             | Some ObjectFunction => ObjectFunction
             | None => WordInfo (N.of_nat (length (p :: ps))) p.2
             end
    end.
Proof.
  induction ws as [|[w' o'] ws IH]; intros index w Hw; [done|].
  cbn [fold_left]. rewrite (IH _ w Hw), (makeIndex_step_get _ _ _ _ Hw).
  unfold pairs_of. cbn [List.filter fst]. fold (pairs_of w ws).
  destruct (decide (w' = w)) as [->|Hne].
  - rewrite bool_decide_eq_true_2 by done.
    destruct (pairs_of w ws) as [|p ps]; destruct (Js.assoc_get index w) as [[c o|]|];
      cbn [length snd]; try done; do 2 f_equal; lia.
  - by rewrite bool_decide_eq_false_2 by done.
Qed.

(** The index of a content: count and first offset for each of its words
    other than "constructor". *)
Lemma make_index_get noise contentText w :
  w ≠ str "constructor" →
  Js.assoc_get (make_index noise contentText) w =
  (λ occ, WordInfo occ.1 occ.2) <$> occurrence_of w (wordsLow_of noise contentText).
Proof.
  intros Hw. unfold make_index, occurrence_of. rewrite (fold_makeIndex_get _ _ _ Hw).
  by destruct (pairs_of w _).
Qed.

Lemma makeIndex_step_constructor index w' o' :
  (Js.assoc_get index (str "constructor") = None ∨
   Js.assoc_get index (str "constructor") = Some ObjectFunction) →
  Js.assoc_get (makeIndex_step index (w', o')) (str "constructor") =
  if decide (w' = str "constructor") then Some ObjectFunction
  else Js.assoc_get index (str "constructor").
Proof.
  intros Hidx. unfold makeIndex_step, index_get. rewrite assoc_get_set.
  destruct (decide (w' = str "constructor")) as [->|Hne]; [|done].
  by destruct Hidx as [-> | ->].
Qed.

Lemma fold_makeIndex_constructor_stays ws :
  ∀ index,
    Js.assoc_get index (str "constructor") = Some ObjectFunction →
    Js.assoc_get (fold_left makeIndex_step ws index) (str "constructor")
    = Some ObjectFunction.
Proof.
  induction ws as [|[w' o'] ws IH]; intros index Hidx; [done|].
  cbn [fold_left]. apply IH. rewrite makeIndex_step_constructor by auto.
  by case_decide.
Qed.

(** ... and the function [Object] for "constructor". *)
Lemma fold_makeIndex_constructor ws :
  ∀ index,
    (Js.assoc_get index (str "constructor") = None ∨
     Js.assoc_get index (str "constructor") = Some ObjectFunction) →
    str "constructor" ∈ ws.*1 →
    Js.assoc_get (fold_left makeIndex_step ws index) (str "constructor")
    = Some ObjectFunction.
Proof.
  induction ws as [|[w' o'] ws IH]; intros index Hidx Hin.
  - by apply elem_of_nil in Hin.
  - cbn [fold_left]. pose proof (makeIndex_step_constructor index w' o' Hidx) as Hstep.
    destruct (decide (w' = str "constructor")) as [Heq|Hne].
    + by apply fold_makeIndex_constructor_stays.
    + rewrite fmap_cons in Hin. apply elem_of_cons in Hin as [Hin|Hin]; [done|].
      apply IH; [|done]. by rewrite Hstep.
Qed.

Lemma occurrence_of_Some w ws : is_Some (occurrence_of w ws) ↔ w ∈ ws.*1.
Proof.
  unfold occurrence_of. destruct (pairs_of w ws) as [|p ps] eqn:Hp.
  - apply pairs_of_nil in Hp. split; [by intros [? [=]]|done].
  - split; [|eauto]. intros _. destruct (decide (w ∈ ws.*1)) as [|Hn]; [done|].
    apply pairs_of_nil in Hn. congruence.
Qed.


(** Under a plain field name [_saveWords] is refused at the function
    [Object] only. *)
Lemma saveWords_writes_plain t name entries :
  field_name name = true →
  (∀ w, (w, ObjectFunction) ∉ entries) →
  (saveWords_writes t name entries).2 = None.
Proof.
  intros Hfn. pose proof Hfn as Hspec. apply field_name_spec in Hspec.
  destruct Hspec as (_ & _ & _ & Hnul & _).
  induction entries as [|[word [count offset|]] rest IH]; intros Hno;
    cbn [saveWords_writes]; [done| |].
  - rewrite (bool_decide_eq_false_2 _ Hnul), (words_set_plain _ _ _ Hfn).
    destruct (saveWords_writes t name rest) as [ws e]. cbn [snd] in *.
    apply IH. intros w Hin. apply (Hno w). by right.
  - destruct (Hno word). left.
Qed.

Lemma field_run_write x st w d :
  match x with WWord _ name _ => field_name name = true | _ => True end →
  field (run_write x st) w d =
  match x with
  | WWord word name occ =>
      if decide (word = w) then
        if decide (name = d) then Some (pair_value occ) else field st w d
      else field st w d
  | _ => field st w d
  end.
Proof.
  destruct st as [[cm ct nt wt] nw]. destruct x as [n c|word n o|c ws]; [done| |done].
  intros Hfn. unfold field. cbn. rewrite (words_set_plain _ _ _ Hfn).
  destruct (decide (word = w)) as [->|Hne].
  - rewrite lookup_insert_eq, assoc_get_set.
    destruct (decide (n = d)); [done|]. by destruct (wt !! w).
  - by rewrite lookup_insert_ne.
Qed.

Lemma field_saveWords t name entries :
  field_name name = true → NoDup entries.*1 →
  (∀ w, (w, ObjectFunction) ∉ entries) →
  ∀ st w d,
    field (run_writes (saveWords_writes t name entries).1 st) w d =
    match Js.assoc_get entries w with
    | Some (WordInfo c o) =>
        if decide (name = d) then Some (pair_value (c, o)) else field st w d
    | _ => field st w d
    end.
Proof.
  intros Hfn. pose proof Hfn as Hspec. apply field_name_spec in Hspec.
  destruct Hspec as (_ & _ & _ & Hnul & _).
  induction entries as [|[word [count offset|]] rest IH]; intros Hnd Hno st w d;
    cbn [saveWords_writes] in *; [done| |].
  - rewrite fmap_cons, NoDup_cons in Hnd. destruct Hnd as [Hword Hnd].
    cbn [fst] in Hword.
    rewrite (bool_decide_eq_false_2 _ Hnul), (words_set_plain _ _ _ Hfn).
    destruct (saveWords_writes t name rest) as [ws e] eqn:Hrest. cbn [fst snd] in *.
    rewrite run_writes_cons.
    rewrite IH; [|done|intros w' Hin; apply (Hno w'); by right].
    rewrite field_run_write by done. cbn [Js.assoc_get].
    destruct (decide (word = w)) as [->|Hne]; [|done].
    apply assoc_get_None in Hword. by rewrite Hword.
  - destruct (Hno word). left.
Qed.

Lemma field_completion_writes words st w d :
  field (run_writes (completion_writes words) st) w d = field st w d.
Proof.
  unfold completion_writes. generalize (_makeCompletions words). intros m.
  generalize (m.*1). intros keys.
  revert st. induction keys as [|c keys IH]; intros st; [done|].
  cbn [map]. rewrite run_writes_cons, IH. by rewrite field_run_write.
Qed.

(** An index without the word "constructor" holds arrays only. *)
Lemma make_index_arrays noise text w :
  str "constructor" ∉ (wordsLow_of noise text).*1 →
  (w, ObjectFunction) ∉ Js.Object_entries (make_index noise text).
Proof.
  intros Hno Hin. rewrite Object_entries_elem_of in Hin.
  assert (Hkey : w ∈ (wordsLow_of noise text).*1).
  { apply make_index_keys, list_elem_of_fmap. by exists (w, ObjectFunction). }
  rewrite (assoc_get_In _ _ _ (make_index_NoDup noise text)) in Hin.
  rewrite make_index_get in Hin by (intros ->; done).
  by destruct (occurrence_of w (wordsLow_of noise text)).
Qed.

(** The inverted index after [addContent] under a plain field name, for a
    content without the word "constructor": the call returns, and the field
    of the name holds, in the documents of the words of the content, their
    count and first offset; every other field is as before. *)
Lemma addContent_field st name contentText :
  field_name name = true →
  str "constructor" ∉ (wordsLow_of (noiseWords st) (stored_text contentText)).*1 →
  (addContent name contentText st).1 = Return tt ∧
  ∀ w d, field (addContent name contentText st).2 w d =
    match occurrence_of w (wordsLow_of (noiseWords st) (stored_text contentText)) with
    | Some occ => if decide (name = d) then Some (pair_value occ) else field st w d
    | None => field st w d
    end.
Proof.
  intros Hfn Hno. rewrite addContent_eq. cbn [fst snd].
  unfold addContent_outcome, addContent_writes.
  set (noise := noiseWords st) in *. set (text := stored_text contentText) in *.
  set (t := wordsTable (db st)).
  pose proof (make_index_NoDup noise text) as Hnd.
  pose proof (saveWords_writes_plain t name (Js.Object_entries (make_index noise text))
                Hfn (λ w, make_index_arrays noise text w Hno)) as Hsucc.
  pose proof (field_saveWords t name (Js.Object_entries (make_index noise text))
    Hfn (Object_entries_NoDup _ Hnd) (λ w, make_index_arrays noise text w Hno)) as Hsave.
  destruct (saveWords_writes t name (Js.Object_entries (make_index noise text)))
    as [ws e]. cbn [fst snd] in *. subst e. split; [done|]. intros w d.
  rewrite run_writes_cons, run_writes_app, field_completion_writes.
  rewrite Hsave, field_run_write by done. rewrite (Object_entries_get _ _ Hnd).
  destruct (decide (w = str "constructor")) as [->|Hw].
  - assert (Js.assoc_get (make_index noise text) (str "constructor") = None) as ->.
    { apply assoc_get_None. by rewrite make_index_keys. }
    unfold occurrence_of. by rewrite (proj2 (pairs_of_nil _ _) Hno).
  - rewrite (make_index_get _ _ _ Hw).
    by destruct (occurrence_of w (wordsLow_of noise text)) as [[c o]|].
Qed.

(** C1, counterexample.  After the re-ingestion the content of [d] is
    ["bar\n"], in which "foo" does not occur, and [d] is still in the
    inverted-index entry of "foo". *)
Lemma reingest_keeps_old_entry :
  docContent (str "d") reingest_state = (Return (str "bar" ++ [LF]), reingest_state) ∧
  stored reingest_state (str "foo") (str "d") = Some (1, 0) ∧
  str "foo" ∉ (wordsLow_of (noiseWords reingest_state) (str "bar" ++ [LF])).*1.
Proof.
  split; [vm_compute; reflexivity|]. split; [vm_compute; reflexivity|].
  assert ((wordsLow_of (noiseWords reingest_state) (str "bar" ++ [LF])).*1
          = [str "bar"]) as -> by (vm_compute; reflexivity).
  intros Hin. apply list_elem_of_singleton in Hin. discriminate.
Qed.

(** C1, amended.  For a document name that is a plain field name and a
    content without the word "constructor", [addContent(name, text)]
    returns, and afterwards a document [d] is in the inverted-index entry
    of a word [w] iff it was there before the call or [d] is [name] and [w]
    occurs at least once as a non-noise normalised word in the content just
    stored for [name]; the occurrence stored for such a word and [name] is
    its count and first offset in that content, every other field is as
    before.  So for a name that is in no entry before the call (a first
    ingestion), [name] is in the entry of [w] iff [w] occurs in its
    content; entries made by an earlier ingestion of the name are kept. *)
Theorem addContent_index (st : DocFinder) (name contentText : jsstring) :
  field_name name = true →
  str "constructor" ∉ (wordsLow_of (noiseWords st) (stored_text contentText)).*1 →
  let st' := (addContent name contentText st).2 in
  let ws := wordsLow_of (noiseWords st) (stored_text contentText) in
  (addContent name contentText st).1 = Return tt ∧
  docContent name st' = (Return (stored_text contentText), st') ∧
  (∀ w d, is_Some (field st' w d) ↔
          (d = name ∧ w ∈ ws.*1) ∨ is_Some (field st w d)) ∧
  (∀ w, w ∈ ws.*1 → stored st' w name = occurrence_of w ws) ∧
  (∀ w d, ¬ (d = name ∧ w ∈ ws.*1) → field st' w d = field st w d) ∧
  ((∀ w, field st w name = None) →
   ∀ w, is_Some (field st' w name) ↔ w ∈ ws.*1).
Proof.
  intros Hfn Hno st' ws.
  destruct (addContent_field st name contentText Hfn Hno) as [Hret Hst].
  fold st' ws in Hst.
  assert (Hkeep : ∀ w d, ¬ (d = name ∧ w ∈ ws.*1) → field st' w d = field st w d).
  { intros w d Hn. rewrite Hst.
    destruct (occurrence_of w ws) as [occ|] eqn:Hocc; [|done].
    case_decide as Hd; [|done]. subst d. destruct Hn. split; [done|].
    apply occurrence_of_Some. by rewrite Hocc. }
  assert (Hnew : ∀ w, w ∈ ws.*1 →
            field st' w name = pair_value <$> occurrence_of w ws).
  { intros w Hw. rewrite Hst. apply occurrence_of_Some in Hw as [occ Hocc].
    rewrite Hocc. by rewrite decide_True. }
  assert (Hiff : ∀ w d, is_Some (field st' w d) ↔
                        (d = name ∧ w ∈ ws.*1) ∨ is_Some (field st w d)).
  { intros w d. destruct (decide (d = name ∧ w ∈ ws.*1)) as [[-> Hw]|Hn].
    - rewrite (Hnew w Hw). rewrite fmap_is_Some, occurrence_of_Some. tauto.
    - rewrite (Hkeep w d Hn). tauto. }
  split; [done|].
  split; [apply docContent_present, addContent_contents|].
  split; [done|]. split; [|split; [done|]].
  - intros w Hw. unfold stored. rewrite (Hnew w Hw).
    destruct (occurrence_of w ws) as [occ|]; [|done]. cbn. apply as_pair_value.
  - intros Hfresh w. rewrite Hiff, Hfresh. split.
    + intros [[_ ?]|[? [=]]]. done.
    + intros Hw. by left.
Qed.

Lemma addContent_index_witness :
  let st' := (addContent (str "d") (str "foo foo") (create empty_db)).2 in
  docContent (str "d") st' = (Return (str "foo foo" ++ [LF]), st') ∧
  stored st' (str "foo") (str "d") = Some (2, 0).
Proof.
  destruct (addContent_index (create empty_db) (str "d") (str "foo foo"))
    as (_ & Hdoc & _ & Hnew & _).
  - reflexivity.
  - vm_compute. intros Hin. repeat (apply elem_of_cons in Hin as [Hin|Hin]; [discriminate|]).
    by apply elem_of_nil in Hin.
  - split; [exact Hdoc|]. rewrite Hnew; [vm_compute; reflexivity|].
    assert ((wordsLow_of (noiseWords (create empty_db)) (stored_text (str "foo foo"))).*1
            = [str "foo"; str "foo"]) as -> by (vm_compute; reflexivity).
    left.
Defined.

Lemma reachable_well_formed st : reachable st → well_formed st.
Proof. intros Hr. apply reachable_consistent in Hr. apply Hr. Qed.

(** ** Examples *)

(** Completion boundary: a trailing non-alphabetic character gives no
    completion. *)
Example complete_boundary :
  (complete (str "al ") excerpt_state).1 = Return [] ∧
  (complete (str "al") excerpt_state).1 = Return [str "alpha"].
Proof. split; vm_compute; reflexivity. Qed.

(** Noise exclusion: a noise word is neither indexed nor completed. *)
Example noise_excluded :
  let st := (addContent (str "d") (str "the cat")
               (addNoiseWords (str "The") (create empty_db)).2).2 in
  (find (H:=code_unit_collator) (str "the") st).1 = Return [] ∧
  (complete (str "th") st).1 = Return [] ∧
  (complete (str "c") st).1 = Return [str "cat"].
Proof. repeat split; vm_compute; reflexivity. Qed.

(** Tie-break: equal scores are ordered by name. *)
Example tie_break :
  let st := (addContent (str "a") (str "x")
               (addContent (str "b") (str "x") (create empty_db)).2).2 in
  name <$> default [] (match (find (H:=code_unit_collator) (str "x") st).1 with
                       | Return rs => Some rs
                       | Throw _ => None
                       end) = [str "a"; str "b"].
Proof. vm_compute. reflexivity. Qed.

(** A content with the word "constructor": [index[word]] reads the function
    [Object] from the prototype, the store refuses the write, and the words
    after it are not indexed. *)
Example constructor_word :
  let r := addContent (str "d") (str "a constructor b") (create empty_db) in
  r.1 = Throw MongoError ∧
  stored r.2 (str "a") (str "d") = Some (1, 0) ∧
  stored r.2 (str "b") (str "d") = None ∧
  completionsTable (db r.2) = ∅.
Proof. repeat split; vm_compute; reflexivity. Qed.

(** After [clear] the cache still filters the words it held. *)
Example clear_then_noise :
  let st := (addNoiseWords (str "the")
               (clear (addNoiseWords (str "the") (create empty_db)).2).2).2 in
  noiseTable (db st) = ∅ ∧ noiseWords st = {[str "the"]}.
Proof. split; vm_compute; reflexivity. Qed.

(** * Further properties of the engine *)

(** ** [normalize] and [words] *)

Lemma toLowerCase_char_az c : Js.is_az c = true → Js.toLowerCase_char c = c.
Proof. destruct c as [[] [] [] [] [] [] [] []]; vm_compute; congruence. Qed.

Lemma toLowerCase_char_idem c :
  Js.toLowerCase_char (Js.toLowerCase_char c) = Js.toLowerCase_char c.
Proof. destruct c as [[] [] [] [] [] [] [] []]; vm_compute; congruence. Qed.

Lemma toLowerCase_idem s : Js.toLowerCase (Js.toLowerCase s) = Js.toLowerCase s.
Proof.
  unfold Js.toLowerCase. induction s as [|c s IH]; [done|].
  cbn. by rewrite toLowerCase_char_idem, IH.
Qed.

Lemma toLowerCase_az s :
  Forall (λ c, Js.is_az c = true) s → Js.toLowerCase s = s.
Proof.
  unfold Js.toLowerCase. induction 1 as [|c s Hc Hs IH]; [done|].
  cbn. by rewrite toLowerCase_char_az, IH.
Qed.

Lemma stem_az s : Forall (λ c, Js.is_az c = true) s → stem s = s.
Proof.
  intros Haz. apply stem_other. intros [pre ->].
  apply Forall_app in Haz as [_ Haz]. apply Forall_cons in Haz as [Hq _].
  vm_compute in Hq. discriminate.
Qed.

(** X1. [normalize] is idempotent and does not depend on the case of the
    token: a normalised word is its own normal form, and a token and its
    lower-case form have the same normal form. *)
Theorem normalize_idempotent (token : jsstring) :
  normalize (normalize token) = normalize token ∧
  normalize (Js.toLowerCase token) = normalize token.
Proof.
  split.
  - pose proof (normalize_az token) as Haz.
    unfold normalize at 1. rewrite toLowerCase_az, stem_az by done.
    apply filter_all. intros c Hc. rewrite Forall_forall in Haz. by apply Haz.
  - unfold normalize. by rewrite toLowerCase_idem.
Qed.

(** X2. [words(text)] returns, in text order, the normal forms of the
    tokens of [text] whose normal form is not empty and not a noise word:
    there is a strictly increasing list of start indices, exactly those of
    such tokens, and the result lists the normal form of the token at each
    of them; the state is not changed. *)
Theorem words_spec (st : DocFinder) (text : jsstring) :
  ∃ starts : list N,
    StronglySorted N.lt starts ∧
    (∀ i, i ∈ starts ↔
          token_start text (N.to_nat i) ∧
          normalize (token_at text (N.to_nat i)) ≠ [] ∧
          normalize (token_at text (N.to_nat i)) ∉ noiseWords st) ∧
    words text st =
      (Return ((λ i, normalize (token_at text (N.to_nat i))) <$> starts), st).
Proof.
  exists (wordsLow_of (noiseWords st) text).*2. split; [|split].
  - apply wordsLow_of_sorted.
  - intros i. rewrite list_elem_of_fmap. split.
    + intros ([w j] & -> & Hin). apply list_elem_of_In, wordsLow_of_In in Hin.
      destruct Hin as (Hst & -> & Hne & Hnoise). done.
    + intros (Hst & Hne & Hnoise).
      exists (normalize (token_at text (N.to_nat i)), i). split; [done|].
      apply list_elem_of_In, wordsLow_of_In. done.
  - unfold words, _wordsLow. rewrite bind_unfold. cbn [gets].
    unfold mret, async_ret, ret. do 2 f_equal. rewrite <- list_fmap_compose.
    apply Forall_fmap_ext, Forall_forall. intros [w i] Hin. cbn.
    by apply list_elem_of_In, wordsLow_of_In in Hin as (_ & -> & _).
Qed.

Example words_example :
  (words (str "The cat's  HAT, the 42")
     (addNoiseWords (str "the") (create empty_db)).2).1 =
  Return [str "cat"; str "hat"].
Proof. vm_compute. reflexivity. Qed.

(** ** [_makeIndex] and [_makeCompletions] *)

Lemma fold_makeIndex_key_order ws index :
  (fold_left makeIndex_step ws index).*1 = fold_left Js.Set_add ws.*1 index.*1.
Proof.
  revert index. induction ws as [|[w o] ws IH]; intros index; [done|].
  cbn [fold_left fmap list_fmap]. rewrite IH. f_equal.
  unfold makeIndex_step. by rewrite assoc_set_keys.
Qed.

Lemma filter_snd_sorted (f : jsstring * N → bool) (l : list (jsstring * N)) :
  StronglySorted N.lt l.*2 → StronglySorted N.lt (List.filter f l).*2.
Proof.
  induction l as [|x l IH]; [done|]. rewrite fmap_cons.
  intros Hs. apply StronglySorted_cons in Hs as [Hall Hs]. cbn.
  destruct (f x); [|by apply IH]. rewrite fmap_cons.
  apply StronglySorted_cons. split; [|by apply IH].
  apply Forall_forall. intros i (y & -> & Hy)%list_elem_of_fmap.
  apply list_elem_of_In, filter_In in Hy as [Hy _].
  rewrite Forall_forall in Hall. apply Hall.
  apply list_elem_of_fmap. exists y. split; [done|]. by apply list_elem_of_In.
Qed.

Lemma pairs_of_offsets w ws i : i ∈ (pairs_of w ws).*2 ↔ In (w, i) ws.
Proof.
  unfold pairs_of. rewrite list_elem_of_fmap. split.
  - intros ([w' i'] & -> & Hin). apply list_elem_of_In, filter_In in Hin as [Hin Hw].
    apply bool_decide_eq_true in Hw. cbn in Hw. by subst.
  - intros Hin. exists (w, i). split; [done|].
    apply list_elem_of_In, filter_In. split; [done|]. by apply bool_decide_eq_true.
Qed.

(** X3. [_makeIndex(text)] returns, without changing the state, an object
    whose keys are the distinct non-noise words of [text] in the order of
    their first occurrence; the key "constructor", when the text has that
    word, holds the function [Object] (read from the prototype) and not a
    pair. *)
Theorem makeIndex_keys (st : DocFinder) (contentText : jsstring) :
  ∃ index,
    _makeIndex contentText st = (Return index, st) ∧
    index.*1 = Js.Set_from (wordsLow_of (noiseWords st) contentText).*1 ∧
    (∀ v, Js.assoc_get index (str "constructor") = Some v → v = ObjectFunction) ∧
    (∀ w v, w ≠ str "constructor" → Js.assoc_get index w = Some v →
            v ≠ ObjectFunction).
Proof.
  exists (make_index (noiseWords st) contentText). split; [done|]. split; [|split].
  - unfold make_index. by rewrite fold_makeIndex_key_order.
  - intros v Hv.
    destruct (decide (str "constructor" ∈ (wordsLow_of (noiseWords st) contentText).*1))
      as [Hin|Hnin].
    + unfold make_index in Hv.
      rewrite fold_makeIndex_constructor in Hv; [congruence|by left|done].
    + assert (Hnone : Js.assoc_get (make_index (noiseWords st) contentText)
                        (str "constructor") = None).
      { apply assoc_get_None. by rewrite make_index_keys. }
      congruence.
  - intros w v Hw Hv. rewrite (make_index_get _ _ _ Hw) in Hv.
    destruct (occurrence_of w _) as [occ|]; cbn in Hv; congruence.
Qed.

(** X4. The pair [[count, offset]] that [_makeIndex(text)] holds for a word
    counts the tokens of [text] whose normal form is that word, and its
    offset is the start index of the first of them: the start indices of
    these tokens, in ascending order, are [count] many and begin with
    [offset]. *)
Theorem makeIndex_occurrence (st : DocFinder) (contentText w : jsstring)
  (count offset : N) :
  Js.assoc_get (make_index (noiseWords st) contentText) w
    = Some (WordInfo count offset) →
  _makeIndex contentText st = (Return (make_index (noiseWords st) contentText), st) ∧
  ∃ starts : list N,
    StronglySorted N.lt starts ∧
    (∀ i, i ∈ starts ↔
          token_start contentText (N.to_nat i) ∧
          normalize (token_at contentText (N.to_nat i)) = w) ∧
    count = N.of_nat (length starts) ∧
    head starts = Some offset ∧
    w ∉ noiseWords st.
Proof.
  intros Hget. split; [done|].
  set (ws := wordsLow_of (noiseWords st) contentText).
  assert (Hw : w ≠ str "constructor").
  { intros ->.
    destruct (decide (str "constructor" ∈ ws.*1)) as [Hin|Hnin].
    - unfold make_index in Hget.
      rewrite fold_makeIndex_constructor in Hget; [congruence|by left|done].
    - assert (Hnone : Js.assoc_get (make_index (noiseWords st) contentText)
                        (str "constructor") = None).
      { apply assoc_get_None. by rewrite make_index_keys. }
      congruence. }
  rewrite (make_index_get _ _ _ Hw) in Hget. fold ws in Hget.
  unfold occurrence_of in Hget.
  destruct (pairs_of w ws) as [|p ps] eqn:Hp; [done|].
  cbn in Hget. injection Hget as <- <-.
  assert (Hin : In (w, p.2) ws).
  { apply pairs_of_offsets. rewrite Hp. left. }
  apply wordsLow_of_In in Hin as (_ & _ & Hne & Hnoise).
  exists (pairs_of w ws).*2. split; [|split; [|split; [|split]]].
  - apply filter_snd_sorted, wordsLow_of_sorted.
  - intros i. rewrite pairs_of_offsets. unfold ws. rewrite wordsLow_of_In.
    split; [by intros (? & -> & _)|]. by intros [? <-].
  - by rewrite length_fmap, Hp.
  - by rewrite Hp.
  - done.
Qed.

Lemma makeIndex_occurrence_witness :
  ∃ starts : list N,
    (∀ i, i ∈ starts ↔
          token_start (str "a b A") (N.to_nat i) ∧
          normalize (token_at (str "a b A") (N.to_nat i)) = str "a") ∧
    2 = N.of_nat (length starts) ∧ head starts = Some 0.
Proof.
  destruct (makeIndex_occurrence (create empty_db) (str "a b A") (str "a") 2 0)
    as (_ & starts & _ & Hin & Hlen & Hhead & _).
  - vm_compute. reflexivity.
  - exists starts. split; [exact Hin|]. split; [exact Hlen|exact Hhead].
Defined.

Lemma makeCompletions_key_order words m :
  (fold_left makeCompletions_step words m).*1 =
  fold_left Js.Set_add (char0 <$> words) m.*1.
Proof.
  revert m. induction words as [|w words IH]; intros m; [done|].
  cbn [fold_left fmap list_fmap]. rewrite IH. f_equal.
  unfold makeCompletions_step, Js.Set_add. rewrite assoc_set_keys.
  destruct (Js.assoc_get m (char0 w)) as [l|] eqn:Hget.
  - assert (Hin : char0 w ∈ m.*1).
    { apply assoc_get_Some_In in Hget. apply list_elem_of_fmap. by exists (char0 w, l). }
    by rewrite !decide_True.
  - apply assoc_get_None in Hget. rewrite assoc_set_keys.
    rewrite (decide_False (P:=char0 w ∈ m.*1)) by done.
    rewrite decide_True; [done|]. apply elem_of_app. right. left.
Qed.

(** X5. [_makeCompletions(words)] returns a [Map] whose keys are the first
    characters of the words, in the order in which they first occur, and
    that maps each of them to the words that begin with it, in their order
    in [words]; no other key has an entry. *)
Theorem makeCompletions_spec (words : list jsstring) :
  (_makeCompletions words).*1 = Js.Set_from (char0 <$> words) ∧
  (∀ c, Js.assoc_get (_makeCompletions words) c =
        match List.filter (λ w, bool_decide (char0 w = c)) words with
        | [] => None
        | l => Some l
        end) ∧
  (∀ c l w, Js.assoc_get (_makeCompletions words) c = Some l →
            (w ∈ l ↔ w ∈ words ∧ char0 w = c)).
Proof.
  split; [|split].
  - unfold _makeCompletions. by rewrite makeCompletions_key_order.
  - intros c. apply makeCompletions_get.
  - intros c l w Hget. rewrite makeCompletions_get in Hget.
    destruct (words_with c words) as [|x xs] eqn:Hww; [done|].
    injection Hget as <-. rewrite <- Hww. apply words_with_elem_of.
Qed.

(** ** What [addContent] and [addNoiseWords] leave alone *)

Lemma addContent_writes_footprint t noise name contentText :
  Forall (write_of name (wordsLow_of noise (stored_text contentText)).*1)
    (addContent_writes t noise name contentText).
Proof.
  unfold addContent_writes.
  set (index := make_index noise (stored_text contentText)).
  assert (Hkeys : ∀ k, k ∈ index.*1 →
            k ∈ (wordsLow_of noise (stored_text contentText)).*1).
  { intros k Hk. by apply make_index_keys in Hk. }
  pose proof (saveWords_writes_elem_of t name (Js.Object_entries index)) as Hsave.
  destruct (saveWords_writes t name (Js.Object_entries index)) as [ws e].
  cbn [fst] in Hsave. apply Forall_cons. split; [done|].
  apply Forall_app. split.
  - apply Forall_forall. intros x Hx.
    destruct (Hsave x Hx) as (w & c & o & -> & Hin). cbn. split; [done|].
    apply Hkeys. rewrite Object_entries_elem_of in Hin.
    apply list_elem_of_fmap. by exists (w, WordInfo c o).
  - destruct e; [constructor|]. apply Forall_forall. intros x Hx.
    unfold completion_writes in Hx.
    apply list_elem_of_fmap in Hx as (c & -> & Hc). cbn. intros w Hw.
    destruct (Js.assoc_get (_makeCompletions (Js.Object_keys index)) c) as [l|] eqn:Hget;
      [|by apply elem_of_nil in Hw].
    rewrite makeCompletions_get in Hget.
    destruct (words_with c (Js.Object_keys index)) as [|y ys] eqn:Hww; [done|].
    injection Hget as <-. cbn in Hw. rewrite <- Hww in Hw.
    apply words_with_elem_of in Hw as [Hw Hc0]. split; [|done].
    apply Hkeys. by apply Object_keys_elem_of.
Qed.

Lemma run_write_other_document name ws x st d :
  field_name name = true →
  write_of name ws x → d ≠ name →
  contentsTable (db (run_write x st)) !! d = contentsTable (db st) !! d ∧
  ∀ w, field (run_write x st) w d = field st w d.
Proof.
  intros Hfn Hx Hd. split.
  - destruct st as [[cm ct nt wt] nw]. destruct x as [n c|word n o|c l]; cbn in *;
      [|done..]. subst n. by rewrite lookup_insert_ne.
  - intros w. destruct x as [n c|word n o|c l]; [done| |done].
    destruct Hx as [-> _]. rewrite field_run_write by done.
    case_decide; [|done]. by rewrite decide_False.
Qed.

Lemma run_writes_other_document name ws xs st d :
  field_name name = true →
  Forall (write_of name ws) xs → d ≠ name →
  contentsTable (db (run_writes xs st)) !! d = contentsTable (db st) !! d ∧
  ∀ w, field (run_writes xs st) w d = field st w d.
Proof.
  intros Hfn Hxs Hd. revert st. induction Hxs as [|x xs Hx Hxs IH]; intros st; [done|].
  rewrite run_writes_cons. destruct (IH (run_write x st)) as [-> Hst].
  destruct (run_write_other_document name ws x st d Hfn Hx Hd) as [-> Hst'].
  split; [done|]. intros w. by rewrite Hst, Hst'.
Qed.

(** X6. [addContent(name, text)] under a plain field name changes nothing
    of another document, whether it returns or throws: for every other
    name, [docContent] gives the outcome it gave before, and the field of
    that name in the document of any word is as it was. *)
Theorem addContent_other_documents (st : DocFinder)
  (name contentText d : jsstring) :
  field_name name = true →
  d ≠ name →
  let st' := (addContent name contentText st).2 in
  (docContent d st').1 = (docContent d st).1 ∧
  ∀ w, field st' w d = field st w d.
Proof.
  intros Hfn Hd st'. unfold st'. rewrite addContent_eq. cbn [snd].
  destruct (run_writes_other_document name _ _ st d Hfn
    (addContent_writes_footprint (wordsTable (db st)) (noiseWords st) name contentText)
    Hd) as [Hc Hs].
  split; [|done].
  unfold docContent, contents_findOne. rewrite !bind_unfold. cbn [gets].
  rewrite Hc. by destruct (contentsTable (db st) !! d).
Qed.

Lemma addContent_other_documents_witness :
  let st := (addContent (str "a") (str "x y") (create empty_db)).2 in
  let st' := (addContent (str "b") (str "x z") st).2 in
  (docContent (str "a") st').1 = Return (str "x y" ++ [LF]) ∧
  field st' (str "x") (str "a") = Some (pair_value (1, 0)).
Proof.
  intros st st'.
  destruct (addContent_other_documents st (str "b") (str "x z") (str "a"))
    as [Hdoc Hst]; [reflexivity|discriminate|].
  fold st' in Hdoc, Hst. split.
  - rewrite Hdoc. vm_compute. reflexivity.
  - rewrite Hst. vm_compute. reflexivity.
Defined.

(** Under a name with a dot the field of another document is written: after
    the ingestion of ["a"], the ingestion of ["a.0"] replaces the count
    stored for ["a"] by the array [[1, 0]]. *)
Example dotted_name_changes_other_document :
  let st := (addContent (str "a") (str "foo foo foo") (create empty_db)).2 in
  let st' := (addContent (str "a.0") (str "foo") st).2 in
  field st (str "foo") (str "a") = Some (pair_value (3, 0)) ∧
  (addContent (str "a.0") (str "foo") st).1 = Return tt ∧
  field st' (str "foo") (str "a") = Some (VArr [pair_value (1, 0); VNum 0]).
Proof. repeat split; vm_compute; reflexivity. Qed.

Lemma field_run_write_other word name occ st w d :
  word ≠ w →
  field (run_write (WWord word name occ) st) w d = field st w d.
Proof.
  intros Hne. unfold field. by rewrite run_write_word_other.
Qed.

Lemma run_write_avoids name ws x st w :
  write_of name ws x → w ∉ ws →
  (∀ d, stored (run_write x st) w d = stored st w d) ∧
  (∀ c l', completionsTable (db (run_write x st)) !! c = Some l' → w ∈ l' →
     ∃ l, completionsTable (db st) !! c = Some l ∧ w ∈ l).
Proof.
  intros Hx Hw. split.
  - intros d. unfold stored. destruct x as [n c|word n o|c l]; [done| |done].
    destruct Hx as [_ Hin]. rewrite field_run_write_other; [done|]. by intros ->.
  - destruct st as [[cm ct nt wt] nw]. destruct x as [n c|word n o|c l]; cbn in *;
      [eauto..|].
    intros c' l' Hl' Hin. destruct (decide (c = c')) as [->|Hne].
    + rewrite lookup_insert_eq in Hl'. injection Hl' as <-.
      rewrite Set_from_elem_of, elem_of_app in Hin.
      destruct Hin as [Hin|Hin]; [by apply Hx in Hin as [? _]|].
      destruct (cm !! c') as [l0|]; [eauto|by apply elem_of_nil in Hin].
    + rewrite lookup_insert_ne in Hl' by done. eauto.
Qed.

Lemma run_writes_avoids name ws xs st w :
  Forall (write_of name ws) xs → w ∉ ws →
  (∀ d, stored (run_writes xs st) w d = stored st w d) ∧
  (∀ c l', completionsTable (db (run_writes xs st)) !! c = Some l' → w ∈ l' →
     ∃ l, completionsTable (db st) !! c = Some l ∧ w ∈ l).
Proof.
  intros Hxs Hw. revert st. induction Hxs as [|x xs Hx Hxs IH]; intros st.
  - split; [done|eauto].
  - rewrite run_writes_cons. destruct (IH (run_write x st)) as [Hst Hc].
    destruct (run_write_avoids name ws x st w Hx Hw) as [Hst' Hc'].
    split.
    + intros d. by rewrite Hst, Hst'.
    + intros c l' Hl' Hin. destruct (Hc c l' Hl' Hin) as (l1 & Hl1 & Hin1). eauto.
Qed.

(** X7. A noise word is never indexed: when [w] is in [this.noiseWords],
    [addContent] leaves the occurrences stored under [w] as they were and
    adds [w] to no completion entry (a completion entry that holds [w]
    afterwards held it before). *)
Theorem noise_word_not_indexed (st : DocFinder) (name contentText w : jsstring) :
  w ∈ noiseWords st →
  let st' := (addContent name contentText st).2 in
  (∀ d, stored st' w d = stored st w d) ∧
  (∀ c l', completionsTable (db st') !! c = Some l' → w ∈ l' →
     ∃ l, completionsTable (db st) !! c = Some l ∧ w ∈ l).
Proof.
  intros Hw st'. unfold st'. rewrite addContent_eq. cbn [snd].
  apply (run_writes_avoids name
           (wordsLow_of (noiseWords st) (stored_text contentText)).*1).
  - apply addContent_writes_footprint.
  - intros Hin. by apply words_are_words in Hin as [_ ?].
Qed.

Lemma noise_word_not_indexed_witness :
  let st := (addNoiseWords (str "the") (create empty_db)).2 in
  let st' := (addContent (str "d") (str "the cat") st).2 in
  stored st' (str "the") (str "d") = None ∧
  stored st' (str "cat") (str "d") = Some (1, 4).
Proof.
  intros st st'. split; [|vm_compute; reflexivity].
  destruct (noise_word_not_indexed st (str "d") (str "the cat") (str "the"))
    as [Hst _].
  - vm_compute. reflexivity.
  - fold st' in Hst. rewrite Hst. reflexivity.
Defined.


(** X8. [addNoiseWords] touches the noise words only, in every state and
    whether it returns or throws: the contents, the inverted index and the
    completions stay as they were (entries of a word that becomes noise are
    not removed), and the noise collection and the cache only grow. *)
Theorem addNoiseWords_keeps_index (st : DocFinder) (noiseText : jsstring) :
  let st' := (addNoiseWords noiseText st).2 in
  contentsTable (db st') = contentsTable (db st) ∧
  wordsTable (db st') = wordsTable (db st) ∧
  completionsTable (db st') = completionsTable (db st) ∧
  noiseTable (db st) ⊆ noiseTable (db st') ∧
  noiseWords st ⊆ noiseWords st'.
Proof.
  intros st'. unfold st'.
  destruct (addNoiseWords_frame st noiseText) as (inserted & added & ->).
  destruct st as [[cm ct nt wt] nw]. cbn. repeat split; set_solver.
Qed.
(** ** Completions grow *)

Lemma run_write_completions_mono x st c l w :
  completionsTable (db st) !! c = Some l → w ∈ l →
  ∃ l', completionsTable (db (run_write x st)) !! c = Some l' ∧ w ∈ l'.
Proof.
  intros Hl Hw. destruct st as [[cm ct nt wt] nw].
  destruct x as [n t|word n o|c' ws]; cbn in *; [eauto..|].
  destruct (decide (c' = c)) as [->|Hne].
  - rewrite lookup_insert_eq. eexists. split; [done|].
    rewrite Set_from_elem_of, elem_of_app, Hl. by right.
  - rewrite lookup_insert_ne by done. eauto.
Qed.

Lemma run_writes_completions_mono xs st c l w :
  completionsTable (db st) !! c = Some l → w ∈ l →
  ∃ l', completionsTable (db (run_writes xs st)) !! c = Some l' ∧ w ∈ l'.
Proof.
  revert st l. induction xs as [|x xs IH]; intros st l Hl Hw; [eauto|].
  rewrite run_writes_cons.
  destruct (run_write_completions_mono x st c l w Hl Hw) as (l1 & Hl1 & Hw1).
  by apply (IH _ l1).
Qed.

Lemma completion_writes_elem_of words w :
  w ∈ words →
  ∃ l, WCompletion (char0 w) l ∈ completion_writes words ∧ w ∈ l.
Proof.
  intros Hw.
  assert (Hww : w ∈ words_with (char0 w) words) by by apply words_with_elem_of.
  pose proof (makeCompletions_get words (char0 w)) as Hget.
  destruct (words_with (char0 w) words) as [|x xs] eqn:Heq;
    [by apply elem_of_nil in Hww|].
  exists (x :: xs). split; [|done]. unfold completion_writes.
  apply list_elem_of_fmap. exists (char0 w). rewrite Hget. split; [done|].
  apply assoc_get_Some_In in Hget. apply list_elem_of_fmap. by eexists (_, _).
Qed.

Lemma addContent_completions_new st name contentText w :
  (addContent name contentText st).1 = Return tt →
  w ∈ (wordsLow_of (noiseWords st) (stored_text contentText)).*1 →
  ∃ l', completionsTable (db (addContent name contentText st).2) !! char0 w
          = Some l' ∧ w ∈ l'.
Proof.
  rewrite addContent_eq. cbn [fst snd].
  unfold addContent_outcome, addContent_writes.
  set (index := make_index (noiseWords st) (stored_text contentText)).
  destruct (saveWords_writes (wordsTable (db st)) name (Js.Object_entries index))
    as [ws [e|]];
    [done|]. cbn [snd]. intros _ Hw.
  destruct (completion_writes_elem_of (Js.Object_keys index) w)
    as (l & Hin & Hwl).
  { apply Object_keys_elem_of. by apply make_index_keys. }
  apply list_elem_of_split in Hin as (l1 & l2 & Heq).
  rewrite Heq, run_writes_cons, run_writes_app, run_writes_app, run_writes_cons.
  set (s1 := run_writes l1 _).
  assert (Hafter : ∃ l', completionsTable (db (run_write (WCompletion (char0 w) l) s1))
                           !! char0 w = Some l' ∧ w ∈ l').
  { destruct s1 as [[cm ct nt wt] nw]. cbn. rewrite lookup_insert_eq.
    eexists. split; [done|]. rewrite Set_from_elem_of, elem_of_app. by left. }
  destruct Hafter as (l' & Hl' & Hwl').
  by apply (run_writes_completions_mono l2 _ _ l').
Qed.

(** X9. Completion entries only grow under [addContent]: a word of an entry
    is still in that entry after the call, returned or thrown; and after a
    call that returned, every non-noise word of the content is in the entry
    of its first character. *)
Theorem addContent_completions (st : DocFinder) (name contentText : jsstring) :
  let st' := (addContent name contentText st).2 in
  (∀ c l w, completionsTable (db st) !! c = Some l → w ∈ l →
     ∃ l', completionsTable (db st') !! c = Some l' ∧ w ∈ l') ∧
  ((addContent name contentText st).1 = Return tt →
   ∀ w, w ∈ (wordsLow_of (noiseWords st) (stored_text contentText)).*1 →
     ∃ l', completionsTable (db st') !! char0 w = Some l' ∧ w ∈ l').
Proof.
  intros st'. split.
  - unfold st'. rewrite addContent_eq. cbn [snd].
    intros c l w. apply run_writes_completions_mono.
  - intros Hok w Hw. by apply addContent_completions_new.
Qed.

Lemma addContent_completions_witness :
  let st := (addContent (str "a") (str "cat") (create empty_db)).2 in
  let st' := (addContent (str "b") (str "cow") st).2 in
  ∃ l', completionsTable (db st') !! str "c" = Some l' ∧
        str "cat" ∈ l' ∧ str "cow" ∈ l'.
Proof.
  intros st st'.
  destruct (addContent_completions st (str "b") (str "cow")) as [Hmono Hnew].
  destruct (Hnew eq_refl (str "cow")) as (l' & Hl' & Hcow).
  { vm_compute. left. }
  destruct (Hmono (str "c") [str "cat"] (str "cat")) as (l2 & Hl2 & Hcat).
  { vm_compute. reflexivity. }
  { left. }
  exists l'. split; [exact Hl'|]. split; [|exact Hcow].
  change (char0 (str "cow")) with (str "c") in Hl'. fold st' in Hl', Hl2.
  rewrite Hl' in Hl2. by injection Hl2 as ->.
Defined.


(** ** [find] in any state *)

Lemma type_error_only_bind {A B} (m : outcome A) (k : A → outcome B) :
  type_error_only m → (∀ a, type_error_only (k a)) → type_error_only (m ≫= k).
Proof. destruct m as [a|e]; [intros _ Hk; apply Hk|by intros ? _]. Qed.

Lemma type_error_only_map {A B} (f : A → outcome B) l :
  (∀ x, type_error_only (f x)) → type_error_only (map_outcome f l).
Proof.
  intros Hf. induction l as [|x l IH]; [done|]. cbn [map_outcome].
  apply type_error_only_bind; [done|]. intros y.
  apply type_error_only_bind; [done|]. by intros ys.
Qed.

Lemma type_error_only_reduce {A B} (f : B → A → outcome B) l a :
  (∀ b x, type_error_only (f b x)) → type_error_only (reduce_outcome f l a).
Proof.
  intros Hf. revert a. induction l as [|x l IH]; intros a; [done|].
  cbn [reduce_outcome]. by apply type_error_only_bind.
Qed.

Lemma ToPrimitive_fuel_outcome fuel o : type_error_only (ToPrimitive_fuel fuel o).
Proof.
  revert o. induction fuel as [|fuel IH]; intros o; [done|].
  cbn [ToPrimitive_fuel].
  destruct (Get o KToString) as [|v|[]]; try done.
  destruct (Get o KJoin) as [|v|[]]; try done.
  apply type_error_only_bind.
  - destruct (Get o KLength) as [|[]|]; try done;
      (apply type_error_only_bind; [apply IH|done]).
  - intros len. apply type_error_only_bind; [|done].
    apply type_error_only_map. intros i.
    destruct (Get o (KIndex (N.of_nat i))) as [|[]|]; try done; apply IH.
Qed.

Lemma ToPrimitive_outcome x : type_error_only (ToPrimitive x).
Proof.
  destruct x as [p|o]; [done|]. cbn [ToPrimitive].
  pose proof (ToPrimitive_fuel_outcome (size o) o) as Ho.
  by destruct (ToPrimitive_fuel (size o) o).
Qed.

Lemma js_index_outcome v i : type_error_only (js_index v i).
Proof. by destruct v. Qed.

Lemma score_of_outcome l : type_error_only (score_of l).
Proof.
  apply type_error_only_reduce. intros acc v.
  apply type_error_only_bind; [apply js_index_outcome|]. intros x.
  unfold js_add. apply type_error_only_bind; [apply ToPrimitive_outcome|done].
Qed.

Lemma offsets_of_outcome l contents : type_error_only (offsets_of l contents).
Proof.
  unfold offsets_of. apply type_error_only_bind.
  - apply type_error_only_map. intros v. apply js_index_outcome.
  - intros offsets. apply type_error_only_map. intros x. unfold search_position.
    apply type_error_only_bind; [apply ToPrimitive_outcome|done].
Qed.

Lemma findDocs_loop_returns st terms :
  ∀ docs, ∃ docs', findDocs_loop terms docs st = (Return docs', st).
Proof.
  induction terms as [|term terms IH]; intros docs; [by exists docs|].
  cbn [findDocs_loop]. rewrite bind_unfold. unfold words_findOne. cbn [gets].
  apply IH.
Qed.

Lemma find_loop_outcome st docs :
  (∃ results, find_loop docs st = (Return results, st)) ∨
  (∃ d, find_loop docs st =
          (Throw (Error (str "NOT_FOUND") (str "doc " ++ d ++ str " not found")), st) ∧
        contentsTable (db st) !! d = None) ∨
  find_loop docs st = (Throw TypeError, st).
Proof.
  induction docs as [|[n infos] docs IH]; [left; by eexists|].
  cbn [find_loop]. rewrite bind_unfold.
  destruct (contentsTable (db st) !! n) as [c|] eqn:Hc.
  - rewrite (docContent_present _ _ _ Hc), bind_unfold. unfold lift.
    pose proof (score_of_outcome infos) as Hs.
    destruct (score_of infos) as [s|e]; [|cbn in Hs; subst e; by right; right].
    rewrite bind_unfold.
    pose proof (offsets_of_outcome infos c) as Ho.
    destruct (offsets_of infos c) as [os|e]; [|cbn in Ho; subst e; by right; right].
    rewrite bind_unfold.
    destruct IH as [[results ->]|[(d & -> & Hd)| ->]];
      [left; by eexists|right; left; eauto|by right; right].
  - rewrite (docContent_absent _ _ Hc). right. left. eauto.
Qed.

(** X10. [find] never changes the state, and it ends in one of three ways:
    it returns; or it throws the [NOT_FOUND] error of [docContent] for a
    name that the inverted index lists and the contents lack; or it throws
    a [TypeError], when a listed value cannot be converted to a
    primitive. *)
Theorem find_outcome `{Collator} (st : DocFinder) (text : jsstring) :
  (find text st).2 = st ∧
  ((∃ results, (find text st).1 = Return results) ∨
   (∃ d, (find text st).1 =
           Throw (Error (str "NOT_FOUND") (str "doc " ++ d ++ str " not found")) ∧
         contentsTable (db st) !! d = None) ∨
   (find text st).1 = Throw TypeError).
Proof.
  unfold find, words, _wordsLow, _findDocs.
  rewrite !bind_unfold. cbn [gets mret async_ret ret].
  rewrite bind_unfold.
  destruct (findDocs_loop_returns st
    (Js.Set_from (wordsLow_of (noiseWords st) text).*1) []) as [docs ->].
  rewrite bind_unfold.
  destruct (find_loop_outcome st docs) as [[results ->]|[(d & -> & Hd)| ->]].
  - split; [done|]. left. by eexists.
  - split; [done|]. right. left. eauto.
  - split; [done|]. by right; right.
Qed.

(** Each of the three ways happens: a search that returns, one that meets
    a name without content, and one that meets an object whose [toString]
    and [valueOf] are stored arrays. *)
Example find_outcomes :
  (find (H:=code_unit_collator) (str "apple") ranking_state).1 =
    Return [mkResult (str "d1") 3 [str "apple apple apple" ++ [LF]];
            mkResult (str "d2") 1
              [str "apple banana banana banana banana banana" ++ [LF]]] ∧
  (find (H:=code_unit_collator) (str "foo") dotted_state).1 =
    Throw (Error (str "NOT_FOUND") (str "doc a not found")) ∧
  field unprintable_state (str "foo") (str "a") =
    Some (VDoc [(str "0", VDoc [(str "toString", pair_value (1, 0));
                                (str "valueOf", pair_value (1, 0))])]) ∧
  (find (H:=code_unit_collator) (str "foo") unprintable_state).1 = Throw TypeError.
Proof. repeat split; vm_compute; reflexivity. Qed.

(** X11. A query without a non-noise word (the empty query, or one made of
    noise words only) finds nothing, whatever the index holds. *)
Theorem find_noise_query `{Collator} (st : DocFinder) (text : jsstring) :
  (∀ w, w ∈ normalized_words text → w ∈ noiseWords st) →
  find text st = (Return [], st).
Proof.
  intros Hall.
  assert (Hnil : (wordsLow_of (noiseWords st) text).*1 = []).
  { destruct (wordsLow_of (noiseWords st) text).*1 as [|w l] eqn:Hl; [done|].
    assert (Hw : w ∈ (wordsLow_of (noiseWords st) text).*1) by (rewrite Hl; left).
    apply elem_of_words in Hw as [Hw Hn]. by apply Hall in Hw. }
  unfold find, words, _wordsLow, _findDocs.
  rewrite !bind_unfold. cbn [gets mret async_ret ret].
  rewrite bind_unfold, Hnil. reflexivity.
Qed.

Lemma find_noise_query_witness :
  let st := (addNoiseWords (str "cat")
               (addContent (str "d") (str "cat") (create empty_db)).2).2 in
  stored st (str "cat") (str "d") = Some (1, 0) ∧
  find (H:=code_unit_collator) (str "Cat") st = (Return [], st).
Proof.
  intros st. split; [vm_compute; reflexivity|].
  apply (find_noise_query (H:=code_unit_collator) st (str "Cat")).
  intros w Hw.
  assert (Heq : normalized_words (str "Cat") = [str "cat"]) by (vm_compute; reflexivity).
  rewrite Heq in Hw. apply list_elem_of_singleton in Hw. subst w.
  vm_compute. reflexivity.
Defined.

Lemma findDocs_loop_empty st terms docs :
  wordsTable (db st) = ∅ → findDocs_loop terms docs st = (Return docs, st).
Proof.
  intros Hempty. induction terms as [|term terms IH]; [done|].
  cbn [findDocs_loop]. rewrite bind_unfold. unfold words_findOne. cbn [gets].
  by rewrite Hempty, lookup_empty.
Qed.

(** X12. After [clear()] every document is gone: [docContent] throws
    [NOT_FOUND] for every name, [find] returns no result for every query and
    [complete] no completion for every text; the noise words that
    [this.noiseWords] holds are kept. *)
Theorem clear_spec `{Collator} (st : DocFinder) :
  let st' := (clear st).2 in
  (clear st).1 = Return tt ∧
  (∀ name, docContent name st' =
     (Throw (Error (str "NOT_FOUND") (str "doc " ++ name ++ str " not found")), st')) ∧
  (∀ text, find text st' = (Return [], st')) ∧
  (∀ text, complete text st' = (Return [], st')) ∧
  noiseWords st' = noiseWords st ∧
  noiseTable (db st') = ∅.
Proof.
  intros st'. unfold st'. rewrite clear_eq. cbn [fst snd].
  split; [done|]. split; [|split; [|split; [|done]]].
  - intros name. apply docContent_absent. apply lookup_empty.
  - intros text. unfold find, words, _wordsLow, _findDocs.
    rewrite !bind_unfold. cbn [gets mret async_ret ret].
    by rewrite bind_unfold, findDocs_loop_empty.
  - intros text. rewrite complete_eq. cbn. rewrite lookup_empty. cbn.
    by destruct (negb _).
Qed.


(** X13. In a reachable state [_findDocs(terms)] returns, without changing
    the state, a [Map] with one entry per document name that the object of
    some term lists: the values of the fields of that name in the documents
    of the terms, in the order of the terms ([listed]; the field
    [__proto__] is not among the properties of the object and is not
    listed); names that no term lists have no entry. *)
Theorem findDocs_result (st : DocFinder) (terms : list jsstring) :
  reachable st →
  ∃ docs,
    _findDocs terms st = (Return docs, st) ∧
    NoDup docs.*1 ∧
    (∀ d l, (d, l) ∈ docs ↔ l = listed st terms d ∧ l ≠ []).
Proof. intros Hr. by apply findDocs_spec, reachable_consistent. Qed.

Lemma findDocs_result_witness :
  ∃ docs,
    _findDocs [str "banana"; str "kiwi"; str "apple"] ranking_state =
      (Return docs, ranking_state) ∧
    docs = [(str "d2", [pair_value (5, 6); pair_value (1, 0)]);
            (str "d1", [pair_value (3, 0)])].
Proof.
  destruct (findDocs_result ranking_state [str "banana"; str "kiwi"; str "apple"]
              (plainly_reachable_reachable _ ranking_state_reachable))
    as (docs & Hrun & _).
  exists docs. split; [exact Hrun|].
  assert (Hres : (_findDocs [str "banana"; str "kiwi"; str "apple"] ranking_state).1
                 = Return docs) by (by rewrite Hrun).
  vm_compute in Hres. by injection Hres as <-.
Defined.

(** ** Ingestion, then search and completion *)

Lemma sum_counts_ge (l : list occurrence) occ : occ ∈ l → occ.1 <= sum_counts l.
Proof.
  induction l as [|x l IH]; [by intros ?%elem_of_nil|].
  change (sum_counts (x :: l)) with (x.1 + sum_counts l).
  intros [->|Hin]%elem_of_cons; [lia|]. specialize (IH Hin). lia.
Qed.

Lemma occurrence_of_positive w ws c o : occurrence_of w ws = Some (c, o) → 1 <= c.
Proof.
  unfold occurrence_of. destruct (pairs_of w ws); [done|].
  intros [= <- _]. cbn [length]. lia.
Qed.

(** X14. What [addContent] indexed, [find] finds: in a state reached under
    plain field names, after [addContent(docName, text)] for a plain field
    name other than [__proto__] and a content without the word
    "constructor", every query that has a non-noise word of the content
    among its terms returns a result for [docName], with a score of at
    least 1. *)
Theorem find_after_addContent `{Collator} (st : DocFinder)
  (docName contentText w query : jsstring) :
  plainly_reachable st →
  field_name docName = true →
  docName ≠ str "__proto__" →
  str "constructor" ∉ (wordsLow_of (noiseWords st) (stored_text contentText)).*1 →
  w ∈ (wordsLow_of (noiseWords st) (stored_text contentText)).*1 →
  w ∈ (wordsLow_of (noiseWords st) query).*1 →
  let st' := (addContent docName contentText st).2 in
  (addContent docName contentText st).1 = Return tt ∧
  ∃ results r s,
    find query st' = (Return results, st') ∧
    r ∈ results ∧ name r = docName ∧ score r = PNumber s ∧ 1 <= s.
Proof.
  intros Hreach Hfn Hproto Hno Hw Hq st'.
  destruct (addContent_field st docName contentText Hfn Hno) as [Hok Hfield].
  split; [exact Hok|].
  assert (Hcons : consistent st').
  { apply addContent_consistent. by apply plainly_reachable_consistent. }
  assert (Hreg : regular st').
  { apply addContent_regular; [done|]. by apply plainly_reachable_regular. }
  assert (Hnoise : noiseWords st' = noiseWords st).
  { unfold st'. rewrite addContent_eq. cbn [snd]. apply run_writes_noiseWords. }
  destruct (find_eq st' query Hcons Hreg) as (docs & Hrun & Hnd & Hdocs).
  apply occurrence_of_Some in Hw as [[c o] Hocc].
  assert (Hst : stored st' w docName = Some (c, o)).
  { unfold stored, st'. by rewrite Hfield, Hocc, decide_True by done. }
  assert (Hm : (c, o) ∈ matched st' (query_terms st' query) docName).
  { unfold matched. apply list_elem_of_omap. exists w. split; [|done].
    unfold query_terms. rewrite Hnoise. by apply Set_from_elem_of. }
  assert (Hin : (docName, matched st' (query_terms st' query) docName) ∈ docs).
  { apply Hdocs. split; [done|]. split; [done|]. intros Hnil. rewrite Hnil in Hm.
    by apply elem_of_nil in Hm. }
  eexists _, (result_of st' (docName, matched st' (query_terms st' query) docName)), _.
  split; [exact Hrun|]. split; [|split; [|split]].
  - rewrite merge_sort_Permutation. apply list_elem_of_fmap. eauto.
  - done.
  - cbn. by rewrite fold_left_counts.
  - pose proof (sum_counts_ge _ _ Hm) as Hge. cbn in Hge.
    pose proof (occurrence_of_positive _ _ _ _ Hocc). lia.
Qed.

Lemma find_after_addContent_witness :
  let st' := (addContent (str "d") (str "Red fox") (create empty_db)).2 in
  ((addContent (str "d") (str "Red fox") (create empty_db)).1 = Return tt ∧
   ∃ results r s,
     find (H:=code_unit_collator) (str "the FOX") st' = (Return results, st') ∧
     r ∈ results ∧ name r = str "d" ∧ score r = PNumber s ∧ 1 <= s) ∧
  (find (H:=code_unit_collator) (str "the FOX") st').1 =
    Return [mkResult (str "d") 1 [str "Red fox" ++ [LF]]].
Proof.
  split; [|vm_compute; reflexivity].
  apply (find_after_addContent (H:=code_unit_collator) (create empty_db)
           (str "d") (str "Red fox") (str "fox") (str "the FOX")).
  - apply plainly_create.
  - reflexivity.
  - discriminate.
  - vm_compute. intros Hin. repeat (apply elem_of_cons in Hin as [Hin|Hin]; [discriminate|]).
    by apply elem_of_nil in Hin.
  - vm_compute. right. left.
  - vm_compute. right. left.
Defined.

Lemma char0_prefix p w : p ≠ [] → p `prefix_of` w → char0 p = char0 w.
Proof. intros Hp [k ->]. by destruct p. Qed.

(** X15. What [addContent] indexed, [complete] completes: after
    [addContent(name, text)] returned, for every non-noise word [w] of the
    content and every text that ends with a letter and whose final token has
    a non-empty normal form that is a prefix of [w], [complete] returns a
    list that holds [w]. *)
Theorem complete_after_addContent (st : DocFinder)
  (name contentText w text : jsstring) :
  (addContent name contentText st).1 = Return tt →
  w ∈ (wordsLow_of (noiseWords st) (stored_text contentText)).*1 →
  from_option Js.is_alpha false (last text) = true →
  normalize (last_token text) ≠ [] →
  normalize (last_token text) `prefix_of` w →
  let st' := (addContent name contentText st).2 in
  ∃ l, complete text st' = (Return l, st') ∧ w ∈ l.
Proof.
  intros Hok Hw Halpha Hne Hpre st'.
  destruct (addContent_completions_new st name contentText w Hok Hw)
    as (l' & Hl' & Hwl').
  eexists. split; [apply complete_eq|]. rewrite Halpha. cbn [negb].
  rewrite (char0_prefix _ _ Hne Hpre). subst st'. rewrite Hl'. cbn [default].
  apply list_elem_of_In, filter_In. split.
  - apply list_elem_of_In. by rewrite merge_sort_Permutation.
  - by apply startsWith_prefix.
Qed.

Lemma complete_after_addContent_witness :
  let st' := (addContent (str "d") (str "Red fox") (create empty_db)).2 in
  ∃ l, complete (str "a quick Fo") st' = (Return l, st') ∧ str "fox" ∈ l.
Proof.
  apply (complete_after_addContent (create empty_db) (str "d") (str "Red fox")
           (str "fox") (str "a quick Fo")).
  - vm_compute. reflexivity.
  - vm_compute. right. left.
  - reflexivity.
  - vm_compute. discriminate.
  - exists (str "x"). vm_compute. reflexivity.
Defined.

(** ** [OffsetResult.result] and [compareResults] at the edges *)

Lemma indexOf_from_none s k from :
  (Z.of_N k + Z.of_nat (length s) <= from)%Z → Js.indexOf_from s k from = (-1)%Z.
Proof.
  intros Hle. rewrite <- (app_nil_r s). by rewrite indexOf_from_skip.
Qed.

(** X16. An offset at or past the final newline of the content (a stale
    offset: the content stored now is shorter than the one the offset was
    taken from) selects the whole content as its line:
    [lastIndexOf] finds the final newline, no newline follows it, [indexOf]
    gives -1 and [substring(length, 0)] swaps its arguments. *)
Theorem result_stale_offset (name : jsstring) (score : prim) (o : N) (c : jsstring) :
  (length c ≤ N.to_nat o)%nat →
  OffsetResult_result name score [o] (c ++ [LF]) =
  mkResult name score [c ++ [LF]].
Proof.
  intros Hle. unfold OffsetResult_result. f_equal.
  fold (start_of (c ++ [LF])). cbn [map Js.Set_from fold_left].
  unfold Js.Set_add. cbn [decide]. rewrite decide_False by apply not_elem_of_nil.
  cbn [app merge_sort merge_sort_aux merge_list_to_stack merge_stack list_merge map].
  destruct (start_of_spec (c ++ [LF]) o) as [Hpos Hstart].
  assert (Hexp : line_start (c ++ [LF]) (N.to_nat o) (S (length c))).
  { split; [|split].
    - right. exists (length c). split; [done|].
      by rewrite lookup_app_r, Nat.sub_diag by lia.
    - lia.
    - intros k Hk. rewrite lookup_ge_None_2; [done|].
      rewrite length_app. cbn. lia. }
  pose proof (line_start_unique _ _ _ _ Hstart Hexp) as Heq.
  assert (Hz : start_of (c ++ [LF]) o = Z.of_nat (S (length c))) by lia.
  rewrite Hz. unfold Js.indexOf_LF.
  rewrite indexOf_from_none by (rewrite length_app; cbn; lia).
  unfold Js.substring, Js.clamp. rewrite length_app. cbn [length].
  replace (Z.to_nat (Z.min (Z.max (Z.of_nat (S (length c))) 0)
                       (Z.of_nat (length c + 1)))) with (length c + 1)%nat by lia.
  replace (Z.to_nat (Z.min (Z.max (-1 + 1) 0) (Z.of_nat (length c + 1))))
    with 0%nat by lia.
  rewrite Nat.max_l, Nat.min_r, Nat.sub_0_r by lia. cbn [drop].
  f_equal. rewrite <- (length_app c [LF]) at 1. cbn. apply take_ge.
  rewrite length_app. cbn. lia.
Qed.

Lemma result_stale_offset_witness :
  (find (H:=code_unit_collator) (str "d")
     (addContent (str "n") (str "a")
        (addContent (str "n") (str "a b c d") (create empty_db)).2).2).1 =
  Return [mkResult (str "n") 1 [str "a" ++ [LF]]] ∧
  OffsetResult_result (str "n") 1 [6] (str "a" ++ [LF]) =
  mkResult (str "n") 1 [str "a" ++ [LF]].
Proof.
  split; [vm_compute; reflexivity|].
  apply (result_stale_offset (str "n") 1 6 (str "a")). cbn. lia.
Defined.

(** X17. [compareResults] is a consistent comparator when [localeCompare]
    is one: swapping the arguments flips the sign, and a result compares as
    0 with itself, so [results.sort(compareResults)] is well defined. *)
Theorem compareResults_flip `{Collator} `{!CollatorLaws} (a b : Result) :
  Z.sgn (compareResults b a) = (- Z.sgn (compareResults a b))%Z ∧
  compareResults a a = 0%Z.
Proof.
  split.
  - unfold compareResults. pose proof (localeCompare_flip (name a) (name b)).
    destruct (ToNumber (score a)) as [sa|], (ToNumber (score b)) as [sb|];
      cbn zeta; repeat case_bool_decide; lia.
  - unfold compareResults.
    pose proof (localeCompare_flip (name a) (name a)) as Hf.
    assert (Hz : localeCompare (name a) (name a) = 0%Z).
    { destruct (Z.sgn_spec (localeCompare (name a) (name a)))
        as [[? ?]|[[? ?]|[? ?]]]; lia. }
    destruct (ToNumber (score a)) as [sa|]; [|done].
    cbn zeta. by rewrite bool_decide_eq_false_2 by lia.
Qed.

Lemma compareResults_flip_witness :
  Z.sgn (compareResults (H:=code_unit_collator)
           (mkResult (str "b") 2 []) (mkResult (str "a") 2 [])) = 1%Z ∧
  Z.sgn (compareResults (H:=code_unit_collator)
           (mkResult (str "a") 2 []) (mkResult (str "b") 2 [])) = (-1)%Z.
Proof.
  destruct (compareResults_flip (H:=code_unit_collator)
              (mkResult (str "a") 2 []) (mkResult (str "b") 2 [])) as [Hflip _].
  split; [|vm_compute; reflexivity].
  rewrite Hflip. vm_compute. reflexivity.
Defined.
